(** * LegalEyes: response parser, markdown renderer, text extractor

    A shallow embedding of the algorithmic core of the LegalEyes browser
    extension (popup.js, content.js, options.js and the renderer of
    popout.js) and the properties its specification states about it,
    followed by further properties read off the code.

    JavaScript strings are sequences of UTF-16 code units; they are modelled
    as lists of code units ([N]).  Regular expressions are transcribed
    literally into a small abstract syntax and run by a backtracking matcher
    that follows the ECMAScript matching rules for the constructs the
    program uses.  Patterns are quoted from the source next to their
    transcription; where a pattern has a star directly before a closing
    parenthesis, a space is put between the two. *)

From Stdlib Require Import List NArith ZArith QArith Bool Lia Arith.
From Stdlib Require Import Strings.String Strings.Ascii.
From Stdlib Require Import Sorting.Permutation.
Import ListNotations.

Set Implicit Arguments.
Set Warnings "-register-all".
Local Open Scope N_scope.

(* ================================================================== *)
(** ** JavaScript strings *)

Module Js.

Abbreviation cu := N (only parsing).
Abbreviation str := (list N) (only parsing).

(** Code units of an ASCII literal of the source text. *)
Definition lit (s : string) : str :=
  List.map N_of_ascii (list_ascii_of_string s).

Definition str_eqb (a b : str) : bool :=
  if list_eq_dec N.eq_dec a b then true else false.

(** [s.length], for strings and arrays. *)
Definition len (A : Type) (s : list A) : Z := Z.of_nat (List.length s).

(** [s.length === 0], for strings and arrays. *)
Definition is_empty (A : Type) (s : list A) : bool :=
  match s with [] => true | _ => false end.

(** ECMAScript LineTerminator: LF, CR, LS, PS. *)
Definition is_lt (c : cu) : bool :=
  (c =? 10) || (c =? 13) || (c =? 0x2028) || (c =? 0x2029).

(** ECMAScript [\s] and the set stripped by [trim]: WhiteSpace and
    LineTerminator. *)
Definition is_ws (c : cu) : bool :=
  (c =? 9) || (c =? 10) || (c =? 11) || (c =? 12) || (c =? 13) || (c =? 32)
  || (c =? 0xA0) || (c =? 0x1680)
  || ((0x2000 <=? c) && (c <=? 0x200A))
  || (c =? 0x2028) || (c =? 0x2029) || (c =? 0x202F) || (c =? 0x205F)
  || (c =? 0x3000) || (c =? 0xFEFF).

(** [.] without the [s] flag. *)
Definition is_dot (c : cu) : bool := negb (is_lt c).

Definition any_cu (c : cu) : bool := true.

Definition is_c (x : cu) (c : cu) : bool := c =? x.
Definition not_c (x : cu) (c : cu) : bool := negb (c =? x).

Definition upper_cu (c : cu) : cu :=
  if (97 <=? c) && (c <=? 122) then c - 32 else c.

Definition lower_cu (c : cu) : cu :=
  if (65 <=? c) && (c <=? 90) then c + 32 else c.

(** Canonicalize under the [i] flag (no [u] flag): a pattern character
    from ASCII matches exactly itself and, for a letter, its other case;
    a code unit of 128 or more never canonicalizes to an ASCII one. *)
Definition is_ci (x : cu) (c : cu) : bool := upper_cu c =? upper_cu x.

(** [String.prototype.toLowerCase], on the ASCII letters.  The program
    applies it to text matched by an ASCII label pattern and to heading
    text that is then searched for ASCII keywords. *)
Definition toLowerCase (s : str) : str := List.map lower_cu s.
Definition toUpperCase (s : str) : str := List.map upper_cu s.

Fixpoint drop_ws (s : str) : str :=
  match s with
  | c :: s' => if is_ws c then drop_ws s' else s
  | [] => []
  end.

(** [String.prototype.trim]. *)
Definition trim (s : str) : str := rev (drop_ws (rev (drop_ws s))).

Fixpoint startsWith (s p : str) : bool :=
  match p, s with
  | [], _ => true
  | x :: p', c :: s' => (c =? x) && startsWith s' p'
  | _ :: _, [] => false
  end.

(** [s.substring(n)] for a one-argument call: the start is clamped to
    the string. *)
Definition substring_from (n : Z) (s : str) : str :=
  skipn (Z.to_nat (Z.max 0 n)) s.

(** [s.indexOf(p)]: the first index where [p] occurs, or -1. *)
Fixpoint indexOf_from (i : Z) (s p : str) : Z :=
  if startsWith s p then i
  else match s with
       | [] => (-1)%Z
       | _ :: s' => indexOf_from (i + 1)%Z s' p
       end.
Definition indexOf (s p : str) : Z := indexOf_from 0%Z s p.

Definition includes (s p : str) : bool := (0 <=? indexOf s p)%Z.

(** [s.split('\n')]: the pieces between line feeds (always at least one). *)
Fixpoint split_on (x : cu) (cur : str) (s : str) : list str :=
  match s with
  | [] => [rev cur]
  | c :: s' => if c =? x then rev cur :: split_on x [] s'
               else split_on x (c :: cur) s'
  end.
Definition split_lines (s : str) : list str := split_on 10 [] s.

(** [a.join(sep)]. *)
Fixpoint join (sep : str) (l : list str) : str :=
  match l with
  | [] => []
  | [a] => a
  | a :: l' => a ++ sep ++ join sep l'
  end.

(* ------------------------------------------------------------------ *)
(** *** Regular expressions *)

(** The constructs that occur in the program's patterns.  [Cls p] is one
    code unit satisfying [p] (a literal, a class, [.] or [\s]);
    [Star true r] is [r*], [Star false r] is [r*?]; [Look true r] is
    [(?=r)], [Look false r] is [(?!r)]; [NotBehind p] is the negative
    look-behind [(?<![...])] on one class; [Bol m] and [Eol m] are [^] and
    [$], with [m] the multiline flag. *)
Inductive regex : Type :=
| Eps
| Cls (p : cu -> bool)
| Seq (r1 r2 : regex)
| Alt (r1 r2 : regex)
| Star (greedy : bool) (r : regex)
| Group (i : nat) (r : regex)
| Look (positive : bool) (r : regex)
| NotBehind (p : cu -> bool)
| Bol (multiline : bool)
| Eol (multiline : bool).

Fixpoint seqs (l : list regex) : regex :=
  match l with
  | [] => Eps
  | [r] => r
  | r :: l' => Seq r (seqs l')
  end.

Fixpoint alts (l : list regex) : regex :=
  match l with
  | [] => Eps
  | [r] => r
  | r :: l' => Alt r (alts l')
  end.

(** A literal, case-sensitive and under the [i] flag. *)
Fixpoint chars (eqc : cu -> cu -> bool) (w : str) : regex :=
  match w with
  | [] => Eps
  | x :: w' => Seq (Cls (eqc x)) (chars eqc w')
  end.
Definition lits (s : string) : regex := chars is_c (lit s).
Definition lits_i (s : string) : regex := chars is_ci (lit s).

Definition opt (r : regex) : regex := Alt r Eps.          (* r?  *)
Definition plus (r : regex) : regex := Seq r (Star true r). (* r+  *)
Definition plus_lazy (r : regex) : regex := Seq r (Star false r). (* r+? *)

(** Matcher state: the input as a zipper around the current position
    ([before] is reversed) and the captures recorded so far. *)
Record mstate : Type := MState {
  before : str;
  after : str;
  caps : list (nat * str)
}.

Fixpoint lookup_cap (i : nat) (l : list (nat * str)) : option str :=
  match l with
  | [] => None
  | (j, v) :: l' => if Nat.eqb i j then Some v else lookup_cap i l'
  end.

(** The text consumed since a position at which [n] code units lay
    before the cursor. *)
Definition consumed_since (n : nat) (st : mstate) : str :=
  rev (firstn (List.length (before st) - n) (before st)).

(** Backtracking matcher in continuation-passing style: [rmatch r st k]
    is the first way, in the priority order of ECMAScript, to match [r] at
    [st] such that the continuation [k] succeeds.  An iteration of a star
    that consumes nothing is rejected, as by RepeatMatcher. *)
Fixpoint rmatch (r : regex) (st : mstate) (k : mstate -> option mstate)
  {struct r} : option mstate :=
  match r with
  | Eps => k st
  | Cls p =>
      match after st with
      | c :: rest =>
          if p c then k (MState (c :: before st) rest (caps st)) else None
      | [] => None
      end
  | Seq r1 r2 => rmatch r1 st (fun st' => rmatch r2 st' k)
  | Alt r1 r2 =>
      match rmatch r1 st k with
      | Some res => Some res
      | None => rmatch r2 st k
      end
  | Star greedy r1 =>
      (fix loop (fuel : nat) (st : mstate) {struct fuel} : option mstate :=
         match fuel with
         | O => k st
         | S fuel' =>
             if greedy then
               match rmatch r1 st (fun st' =>
                       if (List.length (after st') <? List.length (after st))%nat
                       then loop fuel' st' else None) with
               | Some res => Some res
               | None => k st
               end
             else
               match k st with
               | Some res => Some res
               | None =>
                   rmatch r1 st (fun st' =>
                     if (List.length (after st') <? List.length (after st))%nat
                     then loop fuel' st' else None)
               end
         end) (List.length (after st)) st
  | Group i r1 =>
      let n := List.length (before st) in
      rmatch r1 st (fun st' =>
        k (MState (before st') (after st')
                  ((i, consumed_since n st') :: caps st')))
  | Look positive r1 =>
      match rmatch r1 st Some with
      | Some st' =>
          if positive then k (MState (before st) (after st) (caps st'))
          else None
      | None => if positive then None else k st
      end
  | NotBehind p =>
      match before st with
      | c :: _ => if p c then None else k st
      | [] => k st
      end
  | Bol m =>
      match before st with
      | [] => k st
      | c :: _ => if m && is_lt c then k st else None
      end
  | Eol m =>
      match after st with
      | [] => k st
      | c :: _ => if m && is_lt c then k st else None
      end
  end.

(** A successful match: the text before it, the matched text ([m[0]]),
    the captures and the text after it. *)
Record mresult : Type := MResult {
  m_pre : str;
  m_text : str;
  m_caps : list (nat * str);
  m_post : str
}.

(** [m[i]]: the capture of group [i], [None] for [undefined]. *)
Definition group (i : nat) (m : mresult) : option str :=
  lookup_cap i (m_caps m).

(** [$i] in a replacement template: the capture, empty when the group
    did not take part in the match. *)
Definition dollar (i : nat) (m : mresult) : str :=
  match group i m with Some g => g | None => [] end.

(** One attempt at the current position (a sticky match). *)
Definition match_at (r : regex) (bef aft : str) : option mstate :=
  rmatch r (MState bef aft []) Some.

Definition result_of (bef : str) (st : mstate) : mresult :=
  MResult (rev bef) (consumed_since (List.length bef) st) (caps st) (after st).

(** [RegExp.prototype.exec] without [g]: the leftmost start position at
    which the pattern matches. *)
Fixpoint search_from (r : regex) (bef aft : str) : option mresult :=
  match match_at r bef aft with
  | Some st => Some (result_of bef st)
  | None =>
      match aft with
      | [] => None
      | c :: aft' => search_from r (c :: bef) aft'
      end
  end.

Definition exec (r : regex) (s : str) : option mresult := search_from r [] s.

(** [r.test(s)]. *)
Definition test (r : regex) (s : str) : bool :=
  match exec r s with Some _ => true | None => false end.

(** The successive matches of a global pattern, as found by
    [String.prototype.replace] and [String.prototype.match] with [g]:
    each search resumes where the previous match ended, one code unit
    further after an empty match.  Each match comes with the unmatched text
    that precedes it; the text after the last match is returned too.
    [skip] counts the code units of the current match still to step over;
    [cur] is the reversed unmatched text since the previous match. *)
Fixpoint scan (r : regex) (skip : nat) (cur bef aft : str) {struct aft}
  : list (str * mresult) * str :=
  match aft with
  | [] =>
      match skip with
      | O =>
          match match_at r bef [] with
          | Some st => ([(rev cur, result_of bef st)], [])
          | None => ([], rev cur)
          end
      | S _ => ([], rev cur)
      end
  | c :: aft' =>
      match skip with
      | S n => scan r n cur (c :: bef) aft'
      | O =>
          match match_at r bef aft with
          | Some st =>
              let (ms, tl) :=
                match (List.length aft - List.length (after st))%nat with
                | O => scan r 0 [c] (c :: bef) aft'
                | S n => scan r n [] (c :: bef) aft'
                end in
              ((rev cur, result_of bef st) :: ms, tl)
          | None => scan r 0 (c :: cur) (c :: bef) aft'
          end
      end
  end.

Definition matches (r : regex) (s : str) : list (str * mresult) * str :=
  scan r 0 [] [] s.

(** [s.replace(r, f)] with the [g] flag. *)
Definition replace_all (r : regex) (f : mresult -> str) (s : str) : str :=
  let (ms, tl) := matches r s in
  flat_map (fun pm => fst pm ++ f (snd pm)) ms ++ tl.

(** [s.replace(r, f)] without the [g] flag: the first match only. *)
Definition replace_first (r : regex) (f : mresult -> str) (s : str) : str :=
  match exec r s with
  | Some m => m_pre m ++ f m ++ m_post m
  | None => s
  end.

(** [s.match(r)] with the [g] flag: the matched texts, [None] for [null]
    when there is no match. *)
Definition match_all (r : regex) (s : str) : option (list str) :=
  match fst (matches r s) with
  | [] => None
  | ms => Some (List.map (fun pm => m_text (snd pm)) ms)
  end.

(** [s.split(r)] for a pattern without capture groups: the cursor [q]
    advances over the input; a match at [q] that does not end at the
    start [p] of the current piece closes the piece and resumes after the
    match; an empty match at [p] itself only advances [q].  [cur] is the
    reversed text from [p] to [q], [skip] as in [scan]. *)
Fixpoint split_loop (r : regex) (skip : nat) (cur bef aft : str) {struct aft}
  : list str :=
  match aft with
  | [] => [rev cur]
  | c :: aft' =>
      match skip with
      | S n => split_loop r n cur (c :: bef) aft'
      | O =>
          match match_at r bef aft with
          | Some st =>
              match (List.length aft - List.length (after st))%nat with
              | O =>
                  if is_empty cur then split_loop r 0 [c] (c :: bef) aft'
                  else rev cur :: split_loop r 0 [c] (c :: bef) aft'
              | S n => rev cur :: split_loop r n [] (c :: bef) aft'
              end
          | None => split_loop r 0 (c :: cur) (c :: bef) aft'
          end
      end
  end.

Definition split (r : regex) (s : str) : list str :=
  match s with
  | [] => match match_at r [] [] with Some _ => [] | None => [[]] end
  | _ => split_loop r 0 [] [] s
  end.

End Js.

(* ================================================================== *)
(** ** MarkdownRenderer: convertMarkdownToHtml (popup.js) *)

Module Markdown.
Import Js.

Local Open Scope string_scope.
Local Open Scope list_scope.

Definition star : cu := 42.        (* '*' *)
Definition underscore : cu := 95.  (* '_' *)
Definition backtick : cu := 96.    (* '`' *)
Definition star_or_underscore (c : cu) : bool :=
  (c =? star)%N || (c =? underscore)%N.

(** "/\*\*(.*?)\*\*/g" *)
Definition re_bold : regex :=
  seqs [lits "**"; Group 1 (Star false (Cls is_dot)); lits "**"].

(** "/__(.*?)__/g" *)
Definition re_bold_underscore : regex :=
  seqs [lits "__"; Group 1 (Star false (Cls is_dot)); lits "__"].

(** "/(?<![\*_])\*([^\*]+)\*(?![\*_])/g" *)
Definition re_italic : regex :=
  seqs [NotBehind star_or_underscore; lits "*";
        Group 1 (plus (Cls (not_c star))); lits "*";
        Look false (Cls star_or_underscore)].

(** "/(?<![\*_])_([^_]+)_(?![\*_])/g" *)
Definition re_italic_underscore : regex :=
  seqs [NotBehind star_or_underscore; lits "_";
        Group 1 (plus (Cls (not_c underscore))); lits "_";
        Look false (Cls star_or_underscore)].

(** "/`([^`]+?)`/g" *)
Definition re_code : regex :=
  seqs [lits "`"; Group 1 (plus_lazy (Cls (not_c backtick))); lits "`"].

Definition wrap (tag : string) (m : mresult) : str :=
  lit "<" ++ lit tag ++ lit ">" ++ dollar 1 m ++ lit "</" ++ lit tag ++ lit ">".

(** The body of the [lines.map] callback. *)
Definition processLine (line : str) : str :=
  let processedLine := trim line in
  let processedLine :=
    if startsWith processedLine (lit "* ") || startsWith processedLine (lit "- ")
    then substring_from 2 processedLine
    else processedLine in
  let processedLine := replace_all re_bold (wrap "strong") processedLine in
  let processedLine := replace_all re_bold_underscore (wrap "strong") processedLine in
  let processedLine := replace_all re_italic (wrap "em") processedLine in
  let processedLine := replace_all re_italic_underscore (wrap "em") processedLine in
  replace_all re_code (wrap "code") processedLine.

Definition convertMarkdownToHtml (text : str) : str :=
  if is_empty text then []
  else
    let lines := split_lines text in
    let processedLines := List.map processLine lines in
    join (lit "<br>") (filter (fun line => negb (is_empty line)) processedLines).

(** *** The inverse direction: getPlainText

    [tempDiv.innerHTML = htmlString] hands the string to the HTML fragment
    parser of the browser.  [textContent] and the replacement of the [br]
    elements depend only on the text and the tags in document order, so
    the parsed content is kept as a token sequence.  The tokenizer below
    follows the states of the HTML tokenizer: data, tag open, end tag
    open, tag name, the attribute states (a quoted attribute value may
    hold a greater-than sign), comments, bogus comments and doctypes, and
    numeric character references.  Line breaks are normalised first (CR LF
    and CR become LF); a NUL in text is dropped by the tree builder.

    Two parts of the parser are modelled in part only.  Of the named
    character references, [amp], [lt], [gt], [quot], [apos] and [nbsp]
    are decoded when written with their semicolon; any other ampersand
    before a letter or a digit is kept as text with the name that follows
    it.  The content models of the tree builder are not modelled: the text
    of every element counts, in the order of the source.  So the model is
    exact for markup in which an ampersand stands before a letter or a
    digit only in one of the six references, and whose elements are
    ordinary ones, such as those the renderer writes ([br], [strong],
    [em], [code]); it is not for [script], [style], [textarea], [title],
    [template], tables and the like. *)
Inductive token : Type :=
| TText (data : str)
| TOpen (name : str)
| TClose (name : str).

Fixpoint normalize_newlines (s : str) : str :=
  match s with
  | [] => []
  | c :: s' =>
      if (c =? 13)%N then
        match s' with
        | c' :: _ => if (c' =? 10)%N then normalize_newlines s'
                     else 10%N :: normalize_newlines s'
        | [] => [10%N]
        end
      else c :: normalize_newlines s'
  end.

Definition is_letter (c : cu) : bool :=
  ((65 <=? c) && (c <=? 90))%N || ((97 <=? c) && (c <=? 122))%N.

Definition is_digit (c : cu) : bool := ((48 <=? c) && (c <=? 57))%N.

(** White space inside a tag: tab, line feed, form feed, space. *)
Definition is_tag_ws (c : cu) : bool :=
  (c =? 9)%N || (c =? 10)%N || (c =? 12)%N || (c =? 32)%N.

(** The states inside a tag, from the tag name on. *)
Inductive tag_state : Type :=
| TagName | BeforeAttrName | AttrName | AfterAttrName | BeforeAttrValue
| ValueDouble | ValueSingle | ValueUnquoted | AfterValue | SelfClosing.

(** One code unit inside a tag: the next state, [None] when the tag is
    emitted.  Where the tokenizer reconsumes a code unit in another state,
    the result of that state is given directly. *)
Definition tag_step (s : tag_state) (c : cu) : option tag_state :=
  match s with
  | TagName =>
      if is_tag_ws c then Some BeforeAttrName
      else if (c =? 47)%N then Some SelfClosing
      else if (c =? 62)%N then None
      else Some TagName
  | BeforeAttrName | SelfClosing =>
      if (c =? 62)%N then None
      else if is_tag_ws c then Some BeforeAttrName
      else if (c =? 47)%N then Some SelfClosing
      else Some AttrName
  | AttrName | AfterAttrName =>
      if is_tag_ws c then Some AfterAttrName
      else if (c =? 47)%N then Some SelfClosing
      else if (c =? 61)%N then Some BeforeAttrValue
      else if (c =? 62)%N then None
      else Some AttrName
  | BeforeAttrValue =>
      if is_tag_ws c then Some BeforeAttrValue
      else if (c =? 34)%N then Some ValueDouble
      else if (c =? 39)%N then Some ValueSingle
      else if (c =? 62)%N then None
      else Some ValueUnquoted
  | ValueDouble => if (c =? 34)%N then Some AfterValue else Some ValueDouble
  | ValueSingle => if (c =? 39)%N then Some AfterValue else Some ValueSingle
  | ValueUnquoted =>
      if is_tag_ws c then Some BeforeAttrName
      else if (c =? 62)%N then None
      else Some ValueUnquoted
  | AfterValue =>
      if is_tag_ws c then Some BeforeAttrName
      else if (c =? 47)%N then Some SelfClosing
      else if (c =? 62)%N then None
      else Some AttrName
  end.

(** The states inside a comment, after its opening "<!--". *)
Inductive comment_state : Type :=
| CommentStart | CommentStartDash | CommentBody
| CommentEndDash | CommentEnd | CommentEndBang.

(** One code unit inside a comment: the next state, [None] when the
    comment ends.  A comment ends with "-->" or "--!>", or at once with
    ">" or "->". *)
Definition comment_step (s : comment_state) (c : cu) : option comment_state :=
  match s with
  | CommentStart =>
      if (c =? 45)%N then Some CommentStartDash
      else if (c =? 62)%N then None
      else Some CommentBody
  | CommentStartDash =>
      if (c =? 45)%N then Some CommentEnd
      else if (c =? 62)%N then None
      else Some CommentBody
  | CommentBody =>
      if (c =? 45)%N then Some CommentEndDash else Some CommentBody
  | CommentEndDash =>
      if (c =? 45)%N then Some CommentEnd else Some CommentBody
  | CommentEnd =>
      if (c =? 62)%N then None
      else if (c =? 33)%N then Some CommentEndBang
      else if (c =? 45)%N then Some CommentEnd
      else Some CommentBody
  | CommentEndBang =>
      if (c =? 45)%N then Some CommentEndDash
      else if (c =? 62)%N then None
      else Some CommentBody
  end.

(** The value of a digit of a numeric character reference. *)
Definition digit_value (hex : bool) (c : cu) : option N :=
  if is_digit c then Some (c - 48)%N
  else if hex && (97 <=? c)%N && (c <=? 102)%N then Some (c - 87)%N
  else if hex && (65 <=? c)%N && (c <=? 70)%N then Some (c - 55)%N
  else None.

(** The replacements of the numbers 128 to 159. *)
Definition c1_replacement (v : N) : N :=
  match v with
  | 0x80 => 0x20AC | 0x82 => 0x201A | 0x83 => 0x0192 | 0x84 => 0x201E
  | 0x85 => 0x2026 | 0x86 => 0x2020 | 0x87 => 0x2021 | 0x88 => 0x02C6
  | 0x89 => 0x2030 | 0x8A => 0x0160 | 0x8B => 0x2039 | 0x8C => 0x0152
  | 0x8E => 0x017D | 0x91 => 0x2018 | 0x92 => 0x2019 | 0x93 => 0x201C
  | 0x94 => 0x201D | 0x95 => 0x2022 | 0x96 => 0x2013 | 0x97 => 0x2014
  | 0x98 => 0x02DC | 0x99 => 0x2122 | 0x9A => 0x0161 | 0x9B => 0x203A
  | 0x9C => 0x0153 | 0x9E => 0x017E | 0x9F => 0x0178
  | _ => v
  end%N.

(** The code units a numeric character reference of value [v] stands
    for: the replacement character for 0, for a surrogate and for a number
    above 0x10FFFF, a surrogate pair above 0xFFFF. *)
Definition reference_units (v : N) : str :=
  let p :=
    if (v =? 0)%N || (0x10FFFF <? v)%N
       || ((0xD800 <=? v)%N && (v <=? 0xDFFF)%N)
    then 0xFFFD%N else c1_replacement v in
  if (p <? 0x10000)%N then [p]
  else [(0xD800 + (p - 0x10000) / 0x400)%N;
        (0xDC00 + (p - 0x10000) mod 0x400)%N].

(** The named character references that are decoded, by name. *)
Definition named_reference (name : str) : option cu :=
  if str_eqb name (lit "amp") then Some 38%N
  else if str_eqb name (lit "lt") then Some 60%N
  else if str_eqb name (lit "gt") then Some 62%N
  else if str_eqb name (lit "quot") then Some 34%N
  else if str_eqb name (lit "apos") then Some 39%N
  else if str_eqb name (lit "nbsp") then Some 160%N
  else None.

(** The states of the tokenizer.  [cur] is the text read since the last
    token, reversed. *)
Inductive tmode : Type :=
| InData (cur : str)
| InLt (cur : str)                    (* after "<" *)
| InLtSlash (cur : str)               (* after "</" *)
| InBang (dash : bool)                (* after "<!" or "<!-" *)
| InBogus                             (* bogus comment or doctype *)
| InComment (s : comment_state)
| InTag (closing : bool) (name : str) (s : tag_state)
| InAmp (cur : str)                   (* after "&" *)
| InNamed (cur : str) (name : str)    (* after "&" and letters or digits *)
| InNumStart (cur : str)              (* after "&#" *)
| InHexStart (cur : str) (x : cu)     (* after "&#x" or "&#X" *)
| InNum (cur : str) (hex : bool) (value : N).

Definition flush (cur : str) : list token :=
  match cur with [] => [] | _ => [TText (rev cur)] end.

Definition tag_token (closing : bool) (name : str) : token :=
  if closing then TClose (toLowerCase (rev name))
  else TOpen (toLowerCase (rev name)).

(** One code unit in the data state. *)
Definition data_step (cur : str) (c : cu) : tmode :=
  if (c =? 60)%N then InLt cur
  else if (c =? 38)%N then InAmp cur
  else if (c =? 0)%N then InData cur
  else InData (c :: cur).

(** One code unit: the tokens emitted and the next state. *)
Definition step (m : tmode) (c : cu) : list token * tmode :=
  match m with
  | InData cur => ([], data_step cur c)
  | InLt cur =>
      if is_letter c then (flush cur, InTag false [c] TagName)
      else if (c =? 47)%N then ([], InLtSlash cur)
      else if (c =? 33)%N then (flush cur, InBang false)
      else if (c =? 63)%N then (flush cur, InBogus)
      else ([], data_step (60%N :: cur) c)
  | InLtSlash cur =>
      if is_letter c then (flush cur, InTag true [c] TagName)
      else if (c =? 62)%N then ([], InData cur)
      else (flush cur, InBogus)
  | InBang dash =>
      if (c =? 45)%N
      then ([], if dash then InComment CommentStart else InBang true)
      else if (c =? 62)%N then ([], InData [])
      else ([], InBogus)
  | InBogus => ([], if (c =? 62)%N then InData [] else InBogus)
  | InComment s =>
      match comment_step s c with
      | Some s' => ([], InComment s')
      | None => ([], InData [])
      end
  | InTag closing name s =>
      match tag_step s c with
      | None => ([tag_token closing name], InData [])
      | Some TagName => ([], InTag closing (c :: name) TagName)
      | Some s' => ([], InTag closing name s')
      end
  | InAmp cur =>
      if (c =? 35)%N then ([], InNumStart cur)
      else if is_letter c || is_digit c then ([], InNamed cur [c])
      else ([], data_step (38%N :: cur) c)
  | InNamed cur name =>
      if is_letter c || is_digit c then ([], InNamed cur (c :: name))
      else
        match (if (c =? 59)%N then named_reference (rev name) else None) with
        | Some u => ([], InData (u :: cur))
        | None => ([], data_step (name ++ 38%N :: cur) c)
        end
  | InNumStart cur =>
      if (c =? 120)%N || (c =? 88)%N then ([], InHexStart cur c)
      else
        match digit_value false c with
        | Some v => ([], InNum cur false v)
        | None => ([], data_step (35%N :: 38%N :: cur) c)
        end
  | InHexStart cur x =>
      match digit_value true c with
      | Some v => ([], InNum cur true v)
      | None => ([], data_step (x :: 35%N :: 38%N :: cur) c)
      end
  | InNum cur hex v =>
      match digit_value hex c with
      | Some d => ([], InNum cur hex ((if hex then 16 else 10) * v + d)%N)
      | None =>
          let cur' := rev (reference_units v) ++ cur in
          if (c =? 59)%N then ([], InData cur')
          else ([], data_step cur' c)
      end
  end.

(** The end of the input. *)
Definition eof (m : tmode) : list token :=
  match m with
  | InData cur => flush cur
  | InLt cur => flush (60%N :: cur)
  | InLtSlash cur => flush (47%N :: 60%N :: cur)
  | InAmp cur => flush (38%N :: cur)
  | InNamed cur name => flush (name ++ 38%N :: cur)
  | InNumStart cur => flush (35%N :: 38%N :: cur)
  | InHexStart cur x => flush (x :: 35%N :: 38%N :: cur)
  | InNum cur _ v => flush (rev (reference_units v) ++ cur)
  | InBang _ | InBogus | InComment _ | InTag _ _ _ => []
  end.

Fixpoint tokenize_from (m : tmode) (s : str) : list token :=
  match s with
  | [] => eof m
  | c :: s' => fst (step m c) ++ tokenize_from (snd (step m c)) s'
  end.

Definition tokenize (html : str) : list token :=
  tokenize_from (InData []) (normalize_newlines html).

(** [textContent] once every [br] element has been replaced by a line
    feed.  An end tag [</br>] makes a [br] element as well. *)
Definition textContent_br (ts : list token) : str :=
  flat_map (fun t =>
              match t with
              | TText d => d
              | TOpen name | TClose name =>
                  if str_eqb name (lit "br") then [10%N] else []
              end) ts.

(** "/\n{3,}/g" *)
Definition re_newlines3 : regex :=
  seqs [Cls (is_c 10); Cls (is_c 10); Cls (is_c 10); Star true (Cls (is_c 10))].

(** [getPlainText]; the DOM calls of the [try] block do not throw, so the
    tag-stripping fallback of the [catch] clause is not reached. *)
Definition getPlainText (htmlString : str) : str :=
  if is_empty htmlString then []
  else
    let text := textContent_br (tokenize htmlString) in
    trim (replace_all re_newlines3 (fun _ => [10%N; 10%N]) text).

End Markdown.

(* ================================================================== *)
(** ** ResponseParser: parseAIResponse (popup.js) *)

Module Parser.
Import Js Markdown.

Local Open Scope string_scope.
Local Open Scope list_scope.

Record Clause : Type := mkClause {
  title : str;
  text : str;
  severity : str;
  category : str
}.

Record AnalysisResult : Type := mkResult {
  summary : str;
  concerningClauses : list Clause
}.

(** Completion of a statement: normal, or abrupt with a TypeError (reading
    a property of [undefined]). *)
Inductive completion (A : Type) : Type :=
| Normal (a : A)
| Throw.
Arguments Normal {A} a.
Arguments Throw {A}.

Definition default_summary : str := lit "<p>Summary could not be parsed.</p>".

Definition is_bullet (c : cu) : bool := (c =? 42)%N || (c =? 45)%N. (* "[\*\-]" *)

(** "/\*\*1\. SUMMARY:\*\*([\s\S]*?)(?=\*\*2\. CONCERNING CLAUSES:|$)/i" *)
Definition re_summary : regex :=
  seqs [lits_i "**1. SUMMARY:**";
        Group 1 (Star false (Cls any_cu));
        Look true (Alt (lits_i "**2. CONCERNING CLAUSES:") (Eol false))].

(** "/^[\*\-]\s+(.* )/gm" *)
Definition re_bullet_line : regex :=
  seqs [Bol true; Cls is_bullet; plus (Cls is_ws);
        Group 1 (Star true (Cls is_dot))].

(** "/^[\*\-]\s+/" *)
Definition re_bullet_marker : regex :=
  seqs [Bol false; Cls is_bullet; plus (Cls is_ws)].

(** "/\*\*2\. CONCERNING CLAUSES:\*\*([\s\S]* )/i" *)
Definition re_clauses : regex :=
  seqs [lits_i "**2. CONCERNING CLAUSES:**";
        Group 1 (Star true (Cls any_cu))].

(** "/(?=^[\*\-]?\s*\*\*.*?\*\* )/m" *)
Definition re_block_start : regex :=
  Look true
    (seqs [Bol true; opt (Cls is_bullet); Star true (Cls is_ws);
           lits "**"; Star false (Cls is_dot); lits "**"]).

(** "/^[\*\-]?\s*\*\*(.*?)\*\*/" *)
Definition re_title : regex :=
  seqs [Bol false; opt (Cls is_bullet); Star true (Cls is_ws);
        lits "**"; Group 1 (Star false (Cls is_dot)); lits "**"].

(** "(High|Medium|Low)" and
    "(Privacy|Data\sUsage|Legal\sRights|Service\sChanges|User\sContent)"
    under the [i] flag. *)
Definition re_severity_word : regex :=
  Group 1 (alts [lits_i "High"; lits_i "Medium"; lits_i "Low"]).
Definition re_category_word : regex :=
  Group 1 (alts [lits_i "Privacy";
                 seqs [lits_i "Data"; Cls is_ws; lits_i "Usage"];
                 seqs [lits_i "Legal"; Cls is_ws; lits_i "Rights"];
                 seqs [lits_i "Service"; Cls is_ws; lits_i "Changes"];
                 seqs [lits_i "User"; Cls is_ws; lits_i "Content"]]).

(** "/Severity:\s*(High|Medium|Low)/i" *)
Definition re_severity : regex :=
  seqs [lits_i "Severity:"; Star true (Cls is_ws); re_severity_word].

(** "/Category:\s*(Privacy|...|User\sContent)/i" *)
Definition re_category : regex :=
  seqs [lits_i "Category:"; Star true (Cls is_ws); re_category_word].

(** "/^\s*Severity:\s*(High|Medium|Low)\s*$/gim" *)
Definition re_severity_line : regex :=
  seqs [Bol true; Star true (Cls is_ws); lits_i "Severity:";
        Star true (Cls is_ws); re_severity_word;
        Star true (Cls is_ws); Eol true].

(** "/^\s*Category:\s*(Privacy|...|User\sContent)\s*$/gim" *)
Definition re_category_line : regex :=
  seqs [Bol true; Star true (Cls is_ws); lits_i "Category:";
        Star true (Cls is_ws); re_category_word;
        Star true (Cls is_ws); Eol true].

(** "/\s+/g" *)
Definition re_spaces : regex := plus (Cls is_ws).

(** The summary section: the new value of [summary], or [None] when the
    variable keeps its default. *)
Definition parseSummary (aiResponse : str) : option str :=
  match exec re_summary aiResponse with
  | Some summaryMatch =>
      match group 1 summaryMatch with
      | Some g =>
          if is_empty g then None
          else
            let summaryText := trim g in
            let paragraph :=
              lit "<p>" ++ convertMarkdownToHtml summaryText ++ lit "</p>" in
            match match_all re_bullet_line summaryText with
            | Some bulletPoints =>
                let formattedBullets :=
                  List.map convertMarkdownToHtml
                    (filter (fun bullet => negb (is_empty bullet))
                       (List.map
                          (fun bullet =>
                             trim (replace_first re_bullet_marker
                                     (fun _ => []) bullet))
                          bulletPoints)) in
                if is_empty formattedBullets then Some paragraph
                else
                  Some (lit "<ul>"
                        ++ join []
                             (List.map
                                (fun bullet => lit "<li>" ++ bullet ++ lit "</li>")
                                formattedBullets)
                        ++ lit "</ul>")
            | None => Some paragraph
            end
      | None => None
      end
  | None => None
  end.

(** [const title = titleMatch ? titleMatch[1].trim() : null] *)
Definition titleOf (titleMatch : option mresult) : completion (option str) :=
  match titleMatch with
  | Some m =>
      match group 1 m with
      | Some g => Normal (Some (trim g))
      | None => Throw
      end
  | None => Normal None
  end.

(** [severityMatch ? severityMatch[1].toLowerCase() : 'medium'] *)
Definition severityOf (trimmedBlock : str) : completion str :=
  match exec re_severity trimmedBlock with
  | Some m =>
      match group 1 m with
      | Some g => Normal (toLowerCase g)
      | None => Throw
      end
  | None => Normal (lit "medium")
  end.

(** "categoryMatch ? categoryMatch[1].replace(/\s+/g, '-').toLowerCase()
     : 'general'" *)
Definition categoryOf (trimmedBlock : str) : completion str :=
  match exec re_category trimmedBlock with
  | Some m =>
      match group 1 m with
      | Some g =>
          Normal (toLowerCase (replace_all re_spaces (fun _ => lit "-") g))
      | None => Throw
      end
  | None => Normal (lit "general")
  end.

(** The explanation text of a block, converted to markup. *)
Definition textOf (trimmedBlock : str) (titleMatch : option mresult) : str :=
  let textContent :=
    match titleMatch with
    | Some m =>
        substring_from
          (indexOf trimmedBlock (m_text m) + len (m_text m))
          trimmedBlock
    | None => trimmedBlock
    end in
  let textContent := replace_all re_severity_line (fun _ => []) textContent in
  let textContent := replace_all re_category_line (fun _ => []) textContent in
  let cleanedTextContent := trim textContent in
  convertMarkdownToHtml cleanedTextContent.

(** One iteration of [for (const block of validBlocks)]: the clause
    pushed, if any. *)
Definition parseBlock (block : str) : completion (option Clause) :=
  let trimmedBlock := trim block in
  if is_empty trimmedBlock then Normal None
  else
    let titleMatch := exec re_title trimmedBlock in
    match titleOf titleMatch with
    | Throw => Throw
    | Normal title =>
        match severityOf trimmedBlock with
        | Throw => Throw
        | Normal severity =>
            match categoryOf trimmedBlock with
            | Throw => Throw
            | Normal category =>
                let text := textOf trimmedBlock titleMatch in
                match title with
                | Some title =>
                    if negb (is_empty title) && negb (is_empty text)
                    then Normal (Some (mkClause title text severity category))
                    else Normal None
                | None => Normal None
                end
            end
        end
    end.

(** The loop over the blocks, threading the array [concerningClauses];
    an abrupt completion leaves the clauses pushed so far in it. *)
Fixpoint parseBlocks (blocks : list str) (acc : list Clause)
  : list Clause * completion unit :=
  match blocks with
  | [] => (acc, Normal tt)
  | block :: rest =>
      match parseBlock block with
      | Throw => (acc, Throw)
      | Normal None => parseBlocks rest acc
      | Normal (Some c) => parseBlocks rest (acc ++ [c])
      end
  end.

Definition is_high (c : Clause) : bool := str_eqb (severity c) (lit "high").

(** The comparator passed to [sort]; [a.severity || 'medium'] maps an
    empty severity to ['medium']. *)
Definition compareSeverity (a b : Clause) : Z :=
  let severityA := if is_empty (severity a) then lit "medium" else severity a in
  let severityB := if is_empty (severity b) then lit "medium" else severity b in
  if str_eqb severityA (lit "high") && negb (str_eqb severityB (lit "high"))
  then (-1)%Z
  else if negb (str_eqb severityA (lit "high")) && str_eqb severityB (lit "high")
  then 1%Z
  else 0%Z.

(** [Array.prototype.sort] with a comparator: a stable sort (required of
    implementations since ECMAScript 2019), here by insertion.  For a
    consistent comparator the result of a stable sort is unique. *)
Fixpoint insert_sorted (A : Type) (cmp : A -> A -> Z) (x : A) (l : list A)
  : list A :=
  match l with
  | [] => [x]
  | y :: l' => if (0 <? cmp x y)%Z then y :: insert_sorted cmp x l'
               else x :: l
  end.
Definition sort (A : Type) (cmp : A -> A -> Z) (l : list A) : list A :=
  fold_right (insert_sorted cmp) [] l.

(** The blocks of the clauses section. *)
Definition validBlocks (clausesText : str) : list str :=
  filter (fun block => negb (is_empty (trim block)))
         (split re_block_start clausesText).

(** The clauses section: the final content of [concerningClauses]. *)
Definition parseClauses (aiResponse : str) : list Clause :=
  match exec re_clauses aiResponse with
  | Some clausesMatch =>
      match group 1 clausesMatch with
      | Some g =>
          if is_empty g then []
          else
            let clausesText := trim g in
            match parseBlocks (validBlocks clausesText) [] with
            | (acc, Normal _) =>
                if (1 <? len acc)%Z then sort compareSeverity acc
                else acc
            | (acc, Throw) => acc
            end
      | None => []
      end
  | None => []
  end.

(** [parseAIResponse]: the [try] block updates [summary] and
    [concerningClauses]; the [catch] clause only logs, so the function
    returns both variables whatever happened. *)
Definition parseAIResponse (aiResponse : str) : AnalysisResult :=
  let summary :=
    match parseSummary aiResponse with
    | Some s => s
    | None => default_summary
    end in
  mkResult summary (parseClauses aiResponse).

End Parser.


(* ================================================================== *)
(** ** TextExtractor: extractTermsAndConditions (content.js) *)

Module Extractor.
Import Js.

Local Open Scope string_scope.
Local Open Scope list_scope.

(** The document tree.  An element has its local name (lower case, as
    the HTML parser gives it to an HTML element), its id, its class list
    and its children; for an [iframe] element, [frame] is the text content
    of the body of the framed document when the frame loads and is
    readable within the timeout, [None] when the wait is rejected. *)
Inductive node : Type :=
| Text (data : str)
| Element (tag : str) (id : str) (classes : list str) (frame : option str)
          (children : list node).

(** A document: its title, its address, whether it is in quirks mode
    (a page without a doctype; [document.compatMode] is "BackCompat") and
    its root element. *)
Record document : Type := mkDocument {
  doc_title : str;
  doc_href : str;
  quirksMode : bool;
  documentElement : node
}.

Definition tag_of (n : node) : str :=
  match n with Element t _ _ _ _ => t | Text _ => [] end.
Definition is_element (n : node) : bool :=
  match n with Element _ _ _ _ _ => true | Text _ => false end.
Definition children_of (n : node) : list node :=
  match n with Element _ _ _ _ ks => ks | Text _ => [] end.
Definition frame_of (n : node) : option str :=
  match n with Element _ _ _ f _ => f | Text _ => None end.

(** [el.tagName] of an HTML element: the local name in upper case. *)
Definition tagName (n : node) : str := toUpperCase (tag_of n).

Fixpoint textContent (n : node) : str :=
  match n with
  | Text d => d
  | Element _ _ _ _ ks => flat_map textContent ks
  end.

Definition is_script_or_style (n : node) : bool :=
  is_element n
  && (str_eqb (tag_of n) (lit "script") || str_eqb (tag_of n) (lit "style")).

(** [clone.querySelectorAll('script, style').forEach(el => el.remove())]:
    every descendant that is a script or style element goes. *)
Fixpoint remove_scripts_styles (n : node) : node :=
  match n with
  | Text d => Text d
  | Element t i c f ks =>
      Element t i c f
        (flat_map (fun k => if is_script_or_style k then []
                            else [remove_scripts_styles k]) ks)
  end.

(** "/\s{2,}/g" *)
Definition re_spaces2 : regex :=
  seqs [Cls is_ws; Cls is_ws; Star true (Cls is_ws)].

Definition clean_whitespace (s : str) : str :=
  trim (replace_all re_spaces2 (fun _ => lit " ") s).

Definition getTextContentWithoutScriptsStyles (n : option node) : str :=
  match n with
  | None => []
  | Some n => clean_whitespace (textContent (remove_scripts_styles n))
  end.

(** The selector forms the extractor uses. *)
Inductive selector : Type :=
| ById (name : string)                  (* #name *)
| ByClass (name : string)               (* .name *)
| ByTagClass (tag : string) (name : string) (* tag.name *)
| ByTag (tag : string).                 (* tag *)

(** The comparison of an id or a class name with the name in a
    selector: exact, except in a quirks-mode document, where letters of
    ASCII are compared without regard to case. *)
Definition name_eqb (quirks : bool) (a b : str) : bool :=
  if quirks then str_eqb (toLowerCase a) (toLowerCase b) else str_eqb a b.

(** Whether an element matches a selector.  The type names of the
    selectors are in lower case, as are the local names of the
    elements. *)
Definition matches_selector (quirks : bool) (sel : selector) (n : node)
  : bool :=
  match n with
  | Text _ => false
  | Element t i cls _ _ =>
      match sel with
      | ById x => name_eqb quirks i (lit x)
      | ByClass x => existsb (name_eqb quirks (lit x)) cls
      | ByTagClass t' x =>
          str_eqb t (lit t') && existsb (name_eqb quirks (lit x)) cls
      | ByTag t' => str_eqb t (lit t')
      end
  end.

(** The elements of a subtree in tree order. *)
Fixpoint elements (n : node) : list node :=
  match n with
  | Text _ => []
  | Element _ _ _ _ ks => n :: flat_map elements ks
  end.

Definition querySelector (doc : document) (sel : selector) : option node :=
  find (matches_selector (quirksMode doc) sel)
       (elements (documentElement doc)).

(** [document.body]: the first child of the root element that is a
    [body] or a [frameset] element. *)
Definition body (doc : document) : option node :=
  find (fun k => is_element k
                 && (str_eqb (tag_of k) (lit "body")
                     || str_eqb (tag_of k) (lit "frameset")))
       (children_of (documentElement doc)).

Definition is_heading (n : node) : bool :=
  is_element n
  && existsb (fun h => str_eqb (tag_of n) (lit h))
             ["h1"; "h2"; "h3"; "h4"; "h5"; "h6"].

(** A heading with what the scan reads around it: [parentElement] and the
    chain of [nextElementSibling]. *)
Record heading_ctx : Type := mkHeading {
  h_node : node;
  h_parent : option node;
  h_next : list node
}.

Fixpoint headings_under (n : node) : list heading_ctx :=
  match n with
  | Text _ => []
  | Element _ _ _ _ ks =>
      (fix go (l : list node) : list heading_ctx :=
         match l with
         | [] => []
         | k :: rest =>
             (if is_heading k
              then [mkHeading k (Some n) (filter is_element rest)] else [])
             ++ headings_under k ++ go rest
         end) ks
  end.

(** [document.querySelectorAll('h1, h2, h3, h4, h5, h6')] *)
Definition headings (doc : document) : list heading_ctx :=
  let root := documentElement doc in
  (if is_heading root then [mkHeading root None []] else [])
  ++ headings_under root.

(** [document.querySelectorAll('iframe')] *)
Definition iframes (doc : document) : list node :=
  filter (fun e => str_eqb (tag_of e) (lit "iframe"))
         (elements (documentElement doc)).

Definition possibleSelectors : list selector :=
  [ById "terms"; ById "terms-and-conditions"; ById "termsAndConditions";
   ById "terms-of-service"; ById "termsOfService"; ById "tos";
   ById "legal-terms"; ById "legalTerms"; ById "legal";
   ById "privacy-policy"; ById "privacyPolicy"; ById "privacy";
   ById "user-agreement"; ById "userAgreement"; ById "eula";
   ById "license-agreement";
   ByClass "terms"; ByClass "terms-and-conditions";
   ByClass "termsAndConditions"; ByClass "terms-of-service";
   ByClass "termsOfService"; ByClass "tos"; ByClass "legal-terms";
   ByClass "legalTerms"; ByClass "legal";
   ByClass "privacy-policy"; ByClass "privacyPolicy"; ByClass "privacy";
   ByClass "user-agreement"; ByClass "userAgreement"; ByClass "eula";
   ByClass "license-agreement";
   ByTagClass "article" "terms"; ByTagClass "section" "terms";
   ByTagClass "div" "terms"; ByTagClass "div" "legal";
   ByTagClass "article" "policy"; ByTagClass "section" "policy";
   ByTagClass "div" "policy"].

Definition headingKeywords : list string :=
  ["terms"; "conditions"; "terms of service"; "terms of use";
   "tos"; "legal"; "agreement"; "privacy policy"; "policy";
   "user agreement"; "eula"; "license"].

Definition commonContainers : list selector :=
  [ByTag "main"; ByTag "article"; ById "content"; ByClass "content";
   ByClass "main-content"; ByClass "entry-content"].

(** "/terms|conditions|tos|legal|policy|agreement|privacy/i" *)
Definition re_legal : regex :=
  alts [lits_i "terms"; lits_i "conditions"; lits_i "tos"; lits_i "legal";
        lits_i "policy"; lits_i "agreement"; lits_i "privacy"].

Definition isLikelyTCPage (doc : document) : bool :=
  test re_legal (doc_title doc) || test re_legal (doc_href doc).

(** "/^H[1-6]$/" *)
Definition re_heading_tag : regex :=
  seqs [Bol false; Cls (is_c 72);
        Cls (fun c => (49 <=? c)%N && (c <=? 54)%N); Eol false].

(** The strategies in priority order, and the [return] statement a result
    comes from. *)
Inductive strategy : Type :=
| SelectorScan | HeadingScan | IframeScan | ContainerScan | BodyFallback.

Inductive origin : Type :=
| FromSelector | FromHeadingParent | FromSiblings
| FromIframe | FromContainer | FromBody.

(** The body of [for (const selector of possibleSelectors)]: the value
    returned from inside the loop, if any. *)
Definition trySelector (doc : document) (sel : selector) : option str :=
  match querySelector doc sel with
  | Some element =>
      let elementText := getTextContentWithoutScriptsStyles (Some element) in
      if (500 <? len elementText)%Z then Some elementText else None
  | None => None
  end.

(** [for (const selector of possibleSelectors)] *)
Fixpoint selectorScan (doc : document) (sels : list selector) : option str :=
  match sels with
  | [] => None
  | sel :: rest =>
      match trySelector doc sel with
      | Some elementText => Some elementText
      | None => selectorScan doc rest
      end
  end.

(** The [while] loop over the siblings that follow a heading. *)
Fixpoint collectSiblings (sibs : list node) (content : str)
  (collectedLength : Z) : str :=
  match sibs with
  | [] => content
  | currentElement :: rest =>
      if negb (test re_heading_tag (tagName currentElement))
         && (collectedLength <? 100000)%Z
      then
        if negb (str_eqb (tagName currentElement) (lit "SCRIPT"))
           && negb (str_eqb (tagName currentElement) (lit "STYLE"))
        then
          let siblingText :=
            getTextContentWithoutScriptsStyles (Some currentElement) in
          collectSiblings rest (content ++ siblingText ++ [10%N; 10%N])
            (collectedLength + len siblingText)%Z
        else collectSiblings rest content collectedLength
      else content
  end.

Definition headingParent (h : heading_ctx) : option str :=
  match h_parent h with
  | Some parentElement =>
      let parentContent :=
        getTextContentWithoutScriptsStyles (Some parentElement) in
      if (1000 <? len parentContent)%Z
         && (len parentContent <? 100000)%Z
         && includes parentContent (textContent (h_node h))
      then Some parentContent
      else None
  | None => None
  end.

(** [for (const heading of headings)] *)
Fixpoint headingScan (hs : list heading_ctx) : option (origin * str) :=
  match hs with
  | [] => None
  | heading :: rest =>
      let headingText := toLowerCase (textContent (h_node heading)) in
      if existsb (fun keyword => includes headingText (lit keyword))
                 headingKeywords
      then
        match headingParent heading with
        | Some parentContent => Some (FromHeadingParent, parentContent)
        | None =>
            let content := trim (collectSiblings (h_next heading) [] 0%Z) in
            if (500 <? len content)%Z
            then Some (FromSiblings, content)
            else headingScan rest
        end
      else headingScan rest
  end.

(** [for (const iframe of iframes)]; a rejected wait is caught and the
    loop continues. *)
Fixpoint iframeScan (likely : bool) (frames : list node) : option str :=
  match frames with
  | [] => None
  | iframe :: rest =>
      match frame_of iframe with
      | Some bodyText =>
          let frameContentRaw := trim bodyText in
          let frameContentClean := clean_whitespace frameContentRaw in
          if (1000 <? len frameContentClean)%Z && likely
          then Some frameContentClean
          else iframeScan likely rest
      | None => iframeScan likely rest
      end
  end.

(** The body of [for (const selector of commonContainers)]. *)
Definition tryContainer (doc : document) (sel : selector) : option str :=
  match querySelector doc sel with
  | Some container =>
      let containerText := getTextContentWithoutScriptsStyles (Some container) in
      if (1000 <? len containerText)%Z then Some containerText else None
  | None => None
  end.

(** [for (const selector of commonContainers)] *)
Fixpoint containerScan (doc : document) (sels : list selector) : option str :=
  match sels with
  | [] => None
  | sel :: rest =>
      match tryContainer doc sel with
      | Some containerText => Some containerText
      | None => containerScan doc rest
      end
  end.

(** One run of the extractor: the strategies it entered, in order, and
    the result with the [return] statement that produced it. *)
Definition extract (doc : document)
  : list strategy * option (origin * str) :=
  let likely := isLikelyTCPage doc in
  match selectorScan doc possibleSelectors with
  | Some t => ([SelectorScan], Some (FromSelector, t))
  | None =>
      match headingScan (headings doc) with
      | Some r => ([SelectorScan; HeadingScan], Some r)
      | None =>
          match iframeScan likely (iframes doc) with
          | Some t =>
              ([SelectorScan; HeadingScan; IframeScan], Some (FromIframe, t))
          | None =>
              if likely then
                match containerScan doc commonContainers with
                | Some t =>
                    ([SelectorScan; HeadingScan; IframeScan; ContainerScan],
                     Some (FromContainer, t))
                | None =>
                    let bodyText :=
                      getTextContentWithoutScriptsStyles (body doc) in
                    ([SelectorScan; HeadingScan; IframeScan; ContainerScan;
                      BodyFallback],
                     if (1500 <? len bodyText)%Z
                     then Some (FromBody, bodyText) else None)
                end
              else ([SelectorScan; HeadingScan; IframeScan], None)
          end
      end
  end.

(** The value the promise of [extractTermsAndConditions] resolves with:
    a string, or [None] for [null]. *)
Definition extractTermsAndConditions (doc : document) : option str :=
  option_map snd (snd (extract doc)).

End Extractor.

(* ================================================================== *)
(** ** The model reply: the end of processWithAI (popup.js) *)

Module Api.
Import Js Parser.

Local Open Scope string_scope.
Local Open Scope list_scope.

(** The value [response.json()] resolves with.  A number is the rational
    its double denotes; an object is the list of its properties, each key
    once. *)
Inductive json : Type :=
| JNull
| JBool (b : bool)
| JNum (q : Q)
| JStr (s : str)
| JArr (items : list json)
| JObj (fields : list (str * json)).

Fixpoint field (key : str) (l : list (str * json)) : option json :=
  match l with
  | [] => None
  | (k, v) :: l' => if str_eqb k key then Some v else field key l'
  end.

(** [v?.key] for a key that no prototype defines; [None] is
    [undefined]. *)
Definition prop (key : string) (v : option json) : option json :=
  match v with
  | Some (JObj l) => field (lit key) l
  | _ => None
  end.

(** [v?.[0]]: the first item of an array, the first code unit of a
    string, the field ["0"] of an object. *)
Definition index0 (v : option json) : option json :=
  match v with
  | Some (JArr (x :: _)) => Some x
  | Some (JStr (c :: _)) => Some (JStr [c])
  | Some (JObj l) => field (lit "0") l
  | _ => None
  end.

(** ToBoolean. *)
Definition truthy (v : option json) : bool :=
  match v with
  | None => false
  | Some JNull => false
  | Some (JBool b) => b
  | Some (JNum q) => negb (Qnum q =? 0)%Z
  | Some (JStr s) => negb (is_empty s)
  | Some (JArr _) => true
  | Some (JObj _) => true
  end.

Inductive error : Type :=
| UnexpectedFormat   (* "Received an unexpected response format from the AI service." *)
| NotAFunction.      (* TypeError: aiResponse.substring is not a function *)

Inductive outcome : Type :=
| Resolved (r : AnalysisResult)
| Rejected (e : error).

(** [data?.candidates?.[0]?.content?.parts?.[0]?.text] *)
Definition replyText (data : json) : option json :=
  prop "text" (index0 (prop "parts" (prop "content"
    (index0 (prop "candidates" (Some data)))))).

(** [processWithAI] from [const data = await response.json()] on; the
    [catch] clause logs and throws the error again. *)
Definition processReply (data : json) : outcome :=
  if negb (truthy (replyText data)) then Rejected UnexpectedFormat
  else
    match replyText data with
    | Some (JStr aiResponse) => Resolved (parseAIResponse aiResponse)
    | _ => Rejected NotAFunction
    end.

End Api.

(* ================================================================== *)
(** ** Views used by the statements *)

Module MatcherViews.
Import Js.

(** Reading a fixed-length pattern, one class per code unit, off the
    start of a string: the text read and what follows it. *)
Fixpoint take_preds (ps : list (cu -> bool)) (s : str) : option (str * str) :=
  match ps with
  | [] => Some ([], s)
  | p :: ps' =>
      match s with
      | c :: s' =>
          if p c then
            match take_preds ps' s' with
            | Some (m, rest) => Some (c :: m, rest)
            | None => None
            end
          else None
      | [] => None
      end
  end.

(** The classes of a pattern made of single code units only. *)
Fixpoint linear (r : regex) : option (list (cu -> bool)) :=
  match r with
  | Eps => Some []
  | Cls p => Some [p]
  | Seq r1 r2 =>
      match linear r1, linear r2 with
      | Some ps1, Some ps2 => Some (ps1 ++ ps2)
      | _, _ => None
      end
  | _ => None
  end.

(** [w] occurs in [s], letters compared without case. *)
Definition prefix_ci (w s : str) : bool :=
  match take_preds (List.map is_ci w) s with Some _ => true | None => false end.

Fixpoint includes_ci (s w : str) : bool :=
  prefix_ci w s
  || match s with
     | [] => false
     | _ :: s' => includes_ci s' w
     end.

(** The class the first code unit of a match must belong to, for a
    pattern that starts by consuming one. *)
Fixpoint first_class (r : regex) : option (cu -> bool) :=
  match r with
  | Cls p => Some p
  | Seq r1 r2 =>
      match first_class r1 with
      | Some p => Some p
      | None =>
          match r1 with
          | NotBehind _ | Bol _ | Eol _ | Eps => first_class r2
          | _ => None
          end
      end
  | Group _ r1 => first_class r1
  | _ => None
  end.

(** The loop of the star, by name: [rmatch (Star g r) st k] is
    [star_loop g r k (length (after st)) st]. *)
Definition star_loop (greedy : bool) (r1 : regex)
  (k : mstate -> option mstate) : nat -> mstate -> option mstate :=
  fix loop (fuel : nat) (st : mstate) {struct fuel} : option mstate :=
    match fuel with
    | O => k st
    | S fuel' =>
        if greedy then
          match rmatch r1 st (fun st' =>
                  if (List.length (after st') <? List.length (after st))%nat
                  then loop fuel' st' else None) with
          | Some res => Some res
          | None => k st
          end
        else
          match k st with
          | Some res => Some res
          | None =>
              rmatch r1 st (fun st' =>
                if (List.length (after st') <? List.length (after st))%nat
                then loop fuel' st' else None)
          end
    end.

(** What [replace] makes of the matches of a scan when every match is
    replaced by [d]. *)
Definition render (d : str) (r : list (str * mresult) * str) : str :=
  flat_map (fun pm => fst pm ++ d) (fst r) ++ snd r.

(** An ASCII letter. *)
Definition is_ascii_letter (c : cu) : bool :=
  ((65 <=? c) && (c <=? 90)) || ((97 <=? c) && (c <=? 122)).

(** The white space a text begins with. *)
Fixpoint lead_ws (s : str) : str :=
  match s with
  | c :: s' => if is_ws c then c :: lead_ws s' else []
  | [] => []
  end.

(** Every run of white space replaced by [d]; [in_run] tells that the
    run has begun before the text. *)
Fixpoint collapse (d : str) (in_run : bool) (s : str) : str :=
  match s with
  | [] => []
  | c :: s' =>
      if is_ws c then (if in_run then [] else d) ++ collapse d true s'
      else c :: collapse d false s'
  end.

(** The first of the patterns that can be read off the start of a
    string: the text read and what follows it. *)
Fixpoint first_word (words : list (list (cu -> bool))) (s : str)
  : option (str * str) :=
  match words with
  | [] => None
  | w :: words' =>
      match take_preds w s with
      | Some r => Some r
      | None => first_word words' s
      end
  end.

(** A label at the start of a string: the label without regard to case,
    any white space, then one of the words; the text of the word. *)
Definition label_here (label : str) (words : list (list (cu -> bool)))
  (s : str) : option str :=
  match take_preds (List.map is_ci label) s with
  | Some (_, rest) =>
      match first_word words (drop_ws rest) with
      | Some (w, _) => Some w
      | None => None
      end
  | None => None
  end.

(** The leftmost label anywhere in a string. *)
Fixpoint find_label (label : str) (words : list (list (cu -> bool)))
  (s : str) : option str :=
  match label_here label words s with
  | Some w => Some w
  | None =>
      match s with
      | [] => None
      | _ :: s' => find_label label words s'
      end
  end.

(** A matcher state, and a match, all of whose code units are in the
    class [p]. *)
Definition state_within (p : cu -> bool) (st : mstate) : Prop :=
  forallb p (before st) = true /\ forallb p (after st) = true
  /\ forallb (fun kv => forallb p (snd kv)) (caps st) = true.

Definition match_within (p : cu -> bool) (m : mresult) : Prop :=
  forallb p (m_text m) = true
  /\ forallb (fun kv => forallb p (snd kv)) (m_caps m) = true.

(** The code units of a class a text begins with, and the rest. *)
Fixpoint span_take (p : cu -> bool) (s : str) : str :=
  match s with
  | c :: s' => if p c then c :: span_take p s' else []
  | [] => []
  end.

Fixpoint span_drop (p : cu -> bool) (s : str) : str :=
  match s with
  | c :: s' => if p c then span_drop p s' else s
  | [] => []
  end.

(** Two patterns of the same shape whose classes agree on the code units
    of the class [p]. *)
Fixpoint similar (p : cu -> bool) (r1 r2 : regex) : Prop :=
  match r1, r2 with
  | Eps, Eps => True
  | Cls q1, Cls q2 => forall c, p c = true -> q1 c = q2 c
  | Seq a1 b1, Seq a2 b2 => similar p a1 a2 /\ similar p b1 b2
  | Alt a1 b1, Alt a2 b2 => similar p a1 a2 /\ similar p b1 b2
  | Star g1 a1, Star g2 a2 => g1 = g2 /\ similar p a1 a2
  | Group i1 a1, Group i2 a2 => i1 = i2 /\ similar p a1 a2
  | Look s1 a1, Look s2 a2 => s1 = s2 /\ similar p a1 a2
  | NotBehind q1, NotBehind q2 => forall c, p c = true -> q1 c = q2 c
  | Bol m1, Bol m2 => m1 = m2
  | Eol m1, Eol m2 => m1 = m2
  | _, _ => False
  end.

End MatcherViews.

Module MarkdownViews.
Import Js Markdown MatcherViews.

Local Open Scope string_scope.
Local Open Scope list_scope.

(** The code units that markdown syntax is made of: star, underscore,
    backtick. *)
Definition is_markdown_cu (c : cu) : bool :=
  (c =? star)%N || (c =? underscore)%N || (c =? backtick)%N.

(** A text without markdown syntax: none of the three code units, and no
    line that begins with the list marker "- ". *)
Definition no_markdown (s : str) : bool :=
  forallb (fun c => negb (is_markdown_cu c)) s
  && forallb (fun l => negb (startsWith (trim l) (lit "- "))) (split_lines s).

(** A line without markdown syntax: once trimmed it does not begin with
    a list marker, and none of the five patterns of the renderer (bold
    with stars or with underscores, italic with a star or with an
    underscore, code) matches anywhere in it. *)
Definition no_pattern_line (line : str) : bool :=
  let t := trim line in
  negb (startsWith t (lit "* ")) && negb (startsWith t (lit "- "))
  && negb (test re_bold t) && negb (test re_bold_underscore t)
  && negb (test re_italic t) && negb (test re_italic_underscore t)
  && negb (test re_code t).

(** A text none of whose lines has markdown syntax. *)
Definition no_patterns (s : str) : bool :=
  forallb no_pattern_line (split_lines s).

(** A text without code units that mean something to the HTML parser:
    less-than, ampersand, carriage return, NUL. *)
Definition no_markup (s : str) : bool :=
  forallb (fun c => negb ((c =? 60)%N || (c =? 38)%N || (c =? 13)%N
                          || (c =? 0)%N)) s.

(** Line-break substitution: every line feed becomes the marker. *)
Definition br_substitute (s : str) : str :=
  flat_map (fun c => if (c =? 10)%N then lit "<br>" else [c]) s.

(** The lines of a text, trimmed, without the empty ones. *)
Definition trimmed_lines (s : str) : list str :=
  filter (fun l => negb (is_empty l)) (List.map trim (split_lines s)).

(** A code unit after which a less-than sign opens markup: a letter (a
    tag), "/" (an end tag), "!" or "?" (a comment or a declaration). *)
Definition opens_markup (c : cu) : bool :=
  is_letter c || (c =? 47)%N || (c =? 33)%N || (c =? 63)%N.

(** A code unit after which an ampersand may begin a character
    reference: a letter or a digit (a named reference), "#" (a numeric
    one). *)
Definition opens_reference (c : cu) : bool :=
  is_letter c || is_digit c || (c =? 35)%N.

(** [c] may follow [prev] in text that the HTML parser reads as it
    stands. *)
Definition follows_ok (prev c : cu) : bool :=
  negb (((prev =? 60)%N && opens_markup c)
        || ((prev =? 38)%N && opens_reference c)).

(** A line that the HTML parser reads as text, code unit by code unit: no
    carriage return and no NUL, no less-than sign before a code unit that
    opens markup, no ampersand before a code unit that may begin a
    character reference. *)
Fixpoint literal_line (l : str) : bool :=
  match l with
  | [] => true
  | c :: l' =>
      negb ((c =? 13)%N || (c =? 0)%N)
      && match l' with
         | c1 :: _ => follows_ok c c1
         | [] => true
         end
      && literal_line l'
  end.

(** The state of the tokenizer after text whose code units, reversed,
    are [cur]. *)
Definition after_text (cur : str) : tmode :=
  match cur with
  | c :: cur' =>
      if (c =? 60)%N then InLt cur'
      else if (c =? 38)%N then InAmp cur'
      else InData cur
  | [] => InData []
  end.


Definition starts_nonws (s : str) : bool :=
  match s with c :: _ => negb (is_ws c) | [] => true end.

(** A text without white space at its start and at its end. *)
Definition trimmed (t : str) : Prop :=
  starts_nonws t = true /\ starts_nonws (rev t) = true.



(** Three line feeds in a row. *)
Fixpoint has_lf3 (s : str) : bool :=
  match s with
  | [] => false
  | a :: t =>
      match t with
      | b :: c :: _ => (a =? 10)%N && (b =? 10)%N && (c =? 10)%N
      | _ => false
      end
      || has_lf3 t
  end.

(** The line feeds a text begins with. *)
Definition lead_lf (s : str) : str := span_take (is_c 10) s.

(** Every run of three or more line feeds replaced by two; [in_run]
    tells that such a run has begun before the text. *)
Fixpoint squeeze (in_run : bool) (s : str) : str :=
  match s with
  | [] => []
  | c :: s' =>
      if (c =? 10)%N then
        if in_run then squeeze true s'
        else if (2 <=? List.length (lead_lf s'))%nat
             then [10%N; 10%N] ++ squeeze true s'
             else c :: squeeze false s'
      else c :: squeeze false s'
  end.

(** The code units of the tags the renderer writes. *)
Definition tag_cus : str := lit "<>/brstongemcd".

(** The normalisation the inverse direction applies: three or more line
    feeds become two, and the ends are trimmed. *)
Definition normalize_blank_lines (s : str) : str :=
  trim (replace_all re_newlines3 (fun _ => [10%N; 10%N]) s).

End MarkdownViews.

Module ParserViews.
Import Js Markdown Parser MatcherViews.

Local Open Scope string_scope.
Local Open Scope list_scope.

(** The section markers of the response template. *)
Definition summary_marker : str := lit "**1. SUMMARY:**".
Definition clauses_marker : str := lit "**2. CONCERNING CLAUSES:**".

(** What the loop reads off one block. *)
Definition blockTitle (block : str) : option str :=
  match exec re_title (trim block) with
  | Some m => Some (trim (dollar 1 m))
  | None => None
  end.

Definition blockSeverity (block : str) : str :=
  match exec re_severity (trim block) with
  | Some m => toLowerCase (dollar 1 m)
  | None => lit "medium"
  end.

Definition blockCategory (block : str) : str :=
  match exec re_category (trim block) with
  | Some m => toLowerCase (replace_all re_spaces (fun _ => lit "-") (dollar 1 m))
  | None => lit "general"
  end.

Definition blockText (block : str) : str :=
  textOf (trim block) (exec re_title (trim block)).

(** The clauses a block pushes: at most one. *)
Definition admitted (block : str) : list Clause :=
  match parseBlock block with
  | Normal (Some c) => [c]
  | _ => []
  end.

(** The blocks the loop runs over, and the array at the end of the loop,
    in parse order. *)
Definition responseBlocks (aiResponse : str) : list str :=
  match exec re_clauses aiResponse with
  | Some clausesMatch =>
      match group 1 clausesMatch with
      | Some g => if is_empty g then [] else validBlocks (trim g)
      | None => []
      end
  | None => []
  end.

Definition pushedClauses (aiResponse : str) : list Clause :=
  flat_map admitted (responseBlocks aiResponse).

Definition not_high (c : Clause) : bool := negb (is_high c).

(** *** Severity and category as the specification words them *)

Definition one_word (a : string) : list (cu -> bool) :=
  List.map is_ci (lit a).

(** Two words with one white-space code unit of any kind between them. *)
Definition two_words (a b : string) : list (cu -> bool) :=
  List.map is_ci (lit a) ++ [is_ws] ++ List.map is_ci (lit b).

Definition severity_words : list (list (cu -> bool)) :=
  [one_word "High"; one_word "Medium"; one_word "Low"].

Definition category_words : list (list (cu -> bool)) :=
  [one_word "Privacy"; two_words "Data" "Usage"; two_words "Legal" "Rights";
   two_words "Service" "Changes"; two_words "User" "Content"].

(** White space turned into hyphens. *)
Definition hyphenate (w : str) : str :=
  List.map (fun c => if is_ws c then 45%N else c) w.

(** The severity of a block: the word of the leftmost "Severity:" label
    in lower case, [medium] without a label. *)
Definition spec_severity (block : str) : str :=
  match find_label (lit "Severity:") severity_words (trim block) with
  | Some w => toLowerCase w
  | None => lit "medium"
  end.

(** The category of a block: the words of the leftmost "Category:" label,
    hyphenated, in lower case; [general] without a label. *)
Definition spec_category (block : str) : str :=
  match find_label (lit "Category:") category_words (trim block) with
  | Some w => toLowerCase (hyphenate w)
  | None => lit "general"
  end.

(** Any code unit but the star. *)
Definition no_star (c : cu) : bool := negb (c =? 42)%N.

(** The text of the clauses section: what follows the marker. *)
Definition clausesSection (aiResponse : str) : option str :=
  match exec re_clauses aiResponse with
  | Some clausesMatch => group 1 clausesMatch
  | None => None
  end.

Definition severities : list str := [lit "high"; lit "medium"; lit "low"].

Definition categories : list str :=
  [lit "privacy"; lit "data-usage"; lit "legal-rights";
   lit "service-changes"; lit "user-content"; lit "general"].

End ParserViews.

Module ExtractorViews.
Import Js Extractor.

Local Open Scope Z_scope.

(** The elements below a node: what [querySelectorAll] on the node
    ranges over. *)
Definition descendants (n : node) : list node :=
  flat_map elements (children_of n).

(** The length every [return] statement has checked. *)
Definition threshold (o : origin) : Z :=
  match o with
  | FromSelector => 500
  | FromHeadingParent => 1000
  | FromSiblings => 500
  | FromIframe => 1000
  | FromContainer => 1000
  | FromBody => 1500
  end.



End ExtractorViews.

Module ApiViews.
Import Js Api.

Local Open Scope string_scope.
Local Open Scope list_scope.

(** The position of the specification, "the text field nested inside the
    candidate/content wrapper", read as a path of the reply: a member of
    an object, and the first item of an array (or the member "0" of an
    object, which [v[0]] reads as well). *)
Inductive member (key : string) : json -> json -> Prop :=
| member_of_object fields v :
    field (lit key) fields = Some v -> member key (JObj fields) v.

Inductive first_item : json -> json -> Prop :=
| first_of_array x rest : first_item (JArr (x :: rest)) x
| first_of_object fields v :
    field (lit "0") fields = Some v -> first_item (JObj fields) v.

(** [t] is the value at "candidates[0].content.parts[0].text". *)
Definition text_at (data t : json) : Prop :=
  exists candidates candidate content parts part,
    member "candidates" data candidates
    /\ first_item candidates candidate
    /\ member "content" candidate content
    /\ member "parts" content parts
    /\ first_item parts part
    /\ member "text" part t.

End ApiViews.

(* ================================================================== *)
(** ** Concrete inputs *)

Module Samples.
Import Js Markdown Parser Extractor Api.

Local Open Scope string_scope.
Local Open Scope list_scope.

(** The lines of a text, joined by line feeds. *)
Definition unlines (l : list string) : str := join [10%N] (List.map lit l).

(** The model response of the specification's example. *)
Definition sample_response : str :=
  unlines ["**1. SUMMARY:**";
           "* Point one";
           "* Point two";
           "**2. CONCERNING CLAUSES:**";
           "**Broad Discretion**";
           "This clause is vague.";
           "Severity: High";
           "Category: Legal Rights"].

(** A response with a summary section and no clauses section. *)
Definition summary_only_response : str :=
  unlines ["**1. SUMMARY:**"; "Hello"].

(** A response without any section marker. *)
Definition unmarked_response : str := lit "No concerning clauses found.".

(** Two lines with a blank line between them. *)
Definition blank_line_text : str := unlines ["a"; ""; "b"].

(** Two lines. *)
Definition two_line_text : str := unlines ["a"; "b"].

(** A response whose clauses section states that there is nothing. *)
Definition no_clauses_response : str :=
  unlines ["**2. CONCERNING CLAUSES:**"; "No concerning clauses found."].

(** 600 letters. *)
Definition text600 : str := repeat 97%N 600.

Definition long_terms : node :=
  Element (lit "div") [] [lit "terms"] None [Text text600].

Definition page_in (quirks : bool) (kids : list node) : document :=
  mkDocument (lit "Home") (lit "https://example.com/") quirks
    (Element (lit "html") [] [] None
       [Element (lit "body") [] [] None kids]).

(** A page with a doctype. *)
Definition page (kids : list node) : document := page_in false kids.


(** A page with one [.terms] element of 600 characters. *)
Definition one_terms_page : document := page [long_terms].

(** A page without a doctype whose first element of class [TERMS], in
    upper case, is short and whose element of class [terms] holds 600
    characters. *)
Definition upper_terms : node :=
  Element (lit "div") [] [lit "TERMS"] None [Text (lit "short")].
Definition quirks_terms_page : document :=
  page_in true [upper_terms; long_terms].

(** A page judged likely to hold terms, with 1600 letters in its body
    and nothing the earlier strategies look for. *)
Definition policy_page : document :=
  mkDocument (lit "Privacy Policy") (lit "https://example.com/privacy")
    false
    (Element (lit "html") [] [] None
       [Element (lit "body") [] [] None [Text (repeat 97%N 1600)]]).

(** A text on which the two renderers differ. *)
Definition underscore_star_text : str := lit "x_*a* b".


(** A text with a star, an underscore, an ampersand and less-than signs
    that are no markdown and no markup. *)
Definition symbols_text : str :=
  unlines ["snake_case"; "5 * 3 = 15"; "Terms & Conditions"; "a < b <3"].

(** A text with both kinds of emphasis. *)
Definition emphasis_text : str := lit "**a** and *b*".

(** A key of twelve code units. *)
Definition long_key : str := lit "AIzaSyABCDEF".

(** A four-letter key. *)
Definition short_key : str := lit "abcd".

(** A second-level heading. *)
Definition some_heading : node :=
  Element (lit "h2") [] [] None [Text (lit "Next")].

(** A reply of the expected shape. *)
Definition reply_of (t : json) : json :=
  JObj [(lit "candidates",
         JArr [JObj [(lit "content",
                      JObj [(lit "parts", JArr [JObj [(lit "text", t)]])])]])].

End Samples.

(* ================================================================== *)
(** ** The caller: the check of the summarize handler (popup.js) *)

Module Presenter.
Import Js Parser.

Local Open Scope string_scope.
Local Open Scope list_scope.


End Presenter.

(* ================================================================== *)
(** ** The options page: the masked API key (options.js) *)

Module Options.
Import Js.

Local Open Scope string_scope.
Local Open Scope list_scope.

(** [s.substring(n)]; a negative start counts as 0. *)
Definition substring_to_end (n : Z) (s : str) : str := substring_from n s.

(** [s.substring(0, n)] for a literal [n]. *)
Definition substring_prefix (n : nat) (s : str) : str := firstn n s.

(** "apiKey.substring(0, 3) + '...' + apiKey.substring(apiKey.length - 4)" *)
Definition maskedKey (apiKey : str) : str :=
  substring_prefix 3 apiKey ++ lit "..."
  ++ substring_to_end (len apiKey - 4) apiKey.

(** The state the handlers of the options page share: the key in
    [browser.storage.local] ([None] when there is none), the value of the
    input field, the [maskedKey] constant of the load callback ([None]
    when the callback did not define it) and the last status shown, as
    message and type. *)
Record page : Type := mkPage {
  storedKey : option str;
  inputValue : str;
  shownMask : option str;
  status : option (str * str)
}.

(** The page when it opens, before the load callback runs. *)
Definition initialPage (stored : option str) : page :=
  mkPage stored [] None None.

(** An assignment to [apiKeyInput.value]: a single-line input drops the
    line feeds and carriage returns of the value it is given. *)
Definition assignValue (v : str) : str :=
  filter (fun c => negb ((c =? 10)%N || (c =? 13)%N)) v.

(** The callback of [browser.storage.local.get] when the page loads. *)
Definition onLoad (p : page) : page :=
  match storedKey p with
  | Some apiKey =>
      if is_empty apiKey then p
      else mkPage (storedKey p) (assignValue (maskedKey apiKey))
                  (Some (maskedKey apiKey)) (status p)
  | None => p
  end.

(** The focus listener the load callback adds to the input. *)
Definition onFocus (p : page) : page :=
  match shownMask p with
  | Some m =>
      if str_eqb (inputValue p) m
      then mkPage (storedKey p) (assignValue []) (shownMask p) (status p)
      else p
  | None => p
  end.

(** The click listener of the save button. *)
Definition onSave (p : page) : page :=
  let apiKey := trim (inputValue p) in
  if is_empty apiKey
  then mkPage (storedKey p) (inputValue p) (shownMask p)
              (Some (lit "Please enter a valid API key", lit "error"))
  else mkPage (Some apiKey) (inputValue p) (shownMask p)
              (Some (lit "API key saved successfully!", lit "success")).

End Options.

(* ================================================================== *)
(** ** The renderer of the pop-out window (popout.js) *)

Module Popout.
Import Js Markdown.

Local Open Scope string_scope.
Local Open Scope list_scope.

(** "/(?<!\* )\*([^\*]+)\*(?!\* )/g" *)
Definition re_italic : regex :=
  seqs [NotBehind (is_c star); lits "*";
        Group 1 (plus (Cls (not_c star))); lits "*";
        Look false (Cls (is_c star))].

(** "/(?<!_)_([^_]+)_(?!_)/g" *)
Definition re_italic_underscore : regex :=
  seqs [NotBehind (is_c underscore); lits "_";
        Group 1 (plus (Cls (not_c underscore))); lits "_";
        Look false (Cls (is_c underscore))].

(** The body of the [lines.map] callback of popout.js; the patterns for
    bold and code are those of popup.js. *)
Definition processLine (line : str) : str :=
  let processedLine := trim line in
  let processedLine :=
    if startsWith processedLine (lit "* ") || startsWith processedLine (lit "- ")
    then substring_from 2 processedLine
    else processedLine in
  let processedLine := replace_all re_bold (wrap "strong") processedLine in
  let processedLine := replace_all re_bold_underscore (wrap "strong") processedLine in
  let processedLine := replace_all re_italic (wrap "em") processedLine in
  let processedLine := replace_all re_italic_underscore (wrap "em") processedLine in
  replace_all re_code (wrap "code") processedLine.

Definition convertMarkdownToHtml (text : str) : str :=
  if is_empty text then []
  else
    let lines := split_lines text in
    let processedLines := List.map processLine lines in
    join (lit "<br>") (filter (fun line => negb (is_empty line)) processedLines).

End Popout.

(* ================================================================== *)
(** ** Facts about the matcher *)

Module JsFacts.
Import Js MatcherViews.

(** [st'] is reached from [st] by moving the cursor forward; captures
    are only added or overwritten. *)
Definition extends (st st' : mstate) : Prop :=
  (exists m, before st' = rev m ++ before st /\ after st = m ++ after st')
  /\ (forall i, lookup_cap i (caps st) <> None ->
                lookup_cap i (caps st') <> None).

Lemma extends_refl st : extends st st.
Proof.
  split; [exists []; split; reflexivity | auto].
Qed.

Lemma extends_trans st1 st2 st3 :
  extends st1 st2 -> extends st2 st3 -> extends st1 st3.
Proof.
  intros [[m1 [B1 A1]] C1] [[m2 [B2 A2]] C2]. split.
  - exists (m1 ++ m2). split.
    + rewrite B2, B1, rev_app_distr, app_assoc. reflexivity.
    + rewrite A1, A2, app_assoc. reflexivity.
  - auto.
Qed.

Lemma extends_length st st' :
  extends st st' -> (List.length (after st') <= List.length (after st))%nat.
Proof.
  intros [[m [_ A]] _]. rewrite A, length_app. lia.
Qed.

(** Whenever the matcher succeeds, its continuation succeeded on a state
    further along the same input. *)
Lemma rmatch_sound r :
  forall st k res,
    rmatch r st k = Some res ->
    exists st', extends st st' /\ k st' = Some res.
Proof.
  induction r as [ | p | r1 IH1 r2 IH2 | r1 IH1 r2 IH2 | g r1 IH1
                 | i r1 IH1 | pos r1 IH1 | p | m | m ];
    intros st k res H; simpl in H.
  - exists st. split; [apply extends_refl | exact H].
  - destruct st as [bef aft cs]; simpl in *.
    destruct aft as [ | c rest]; [discriminate | ].
    destruct (p c); [ | discriminate].
    eexists. split; [ | exact H].
    split; simpl; [exists [c]; split; reflexivity | auto].
  - apply IH1 in H. destruct H as [st1 [E1 H]].
    apply IH2 in H. destruct H as [st2 [E2 H]].
    exists st2. split; [eapply extends_trans; eauto | exact H].
  - destruct (rmatch r1 st k) eqn:H1.
    + injection H as <-. apply IH1 in H1. exact H1.
    + apply IH2 in H. exact H.
  - revert H. generalize (List.length (after st)) as fuel.
    intro fuel. revert st. induction fuel as [ | fuel IHf]; intros st H.
    + exists st. split; [apply extends_refl | exact H].
    + destruct g.
      * match type of H with
        | match ?X with _ => _ end = _ => destruct X eqn:H1
        end.
        -- injection H as <-. apply IH1 in H1.
           destruct H1 as [st1 [E1 H1]].
           destruct (List.length (after st1) <? List.length (after st))%nat;
             [ | discriminate].
           apply IHf in H1. destruct H1 as [st2 [E2 H2]].
           exists st2. split; [eapply extends_trans; eauto | exact H2].
        -- exists st. split; [apply extends_refl | exact H].
      * destruct (k st) eqn:Hk.
        -- injection H as <-. exists st. split; [apply extends_refl | exact Hk].
        -- apply IH1 in H. destruct H as [st1 [E1 H1]].
           destruct (List.length (after st1) <? List.length (after st))%nat;
             [ | discriminate].
           apply IHf in H1. destruct H1 as [st2 [E2 H2]].
           exists st2. split; [eapply extends_trans; eauto | exact H2].
  - apply IH1 in H. destruct H as [st1 [E1 H]].
    eexists. split; [ | exact H].
    destruct E1 as [M C]. split; simpl; [exact M | ].
    intros j Hj. simpl. destruct (Nat.eqb j i); [discriminate | auto].
  - destruct (rmatch r1 st Some) as [st1 | ] eqn:H1.
    + destruct pos; [ | discriminate].
      eexists. split; [ | exact H].
      apply IH1 in H1. destruct H1 as [st2 [[_ C] E]]. injection E as ->.
      split; simpl; [exists []; split; reflexivity | exact C].
    + destruct pos; [discriminate | ].
      exists st. split; [apply extends_refl | exact H].
  - exists st. split; [apply extends_refl | ].
    destruct (before st) as [ | c ?]; [exact H | ].
    destruct (p c); [discriminate | exact H].
  - exists st. split; [apply extends_refl | ].
    destruct (before st) as [ | c ?]; [exact H | ].
    destruct (m && is_lt c); [exact H | discriminate].
  - exists st. split; [apply extends_refl | ].
    destruct (after st) as [ | c ?]; [exact H | ].
    destruct (m && is_lt c); [exact H | discriminate].
Qed.

(** A pattern that sets group [i] on every path to success. *)
Fixpoint sets_group (i : nat) (r : regex) : bool :=
  match r with
  | Group j r1 => Nat.eqb i j || sets_group i r1
  | Seq r1 r2 => sets_group i r1 || sets_group i r2
  | Alt r1 r2 => sets_group i r1 && sets_group i r2
  | Look true r1 => sets_group i r1
  | _ => false
  end.

Lemma rmatch_sets_group i r :
  sets_group i r = true ->
  forall st k res,
    rmatch r st k = Some res ->
    exists st', extends st st' /\ k st' = Some res
                /\ lookup_cap i (caps st') <> None.
Proof.
  induction r as [ | p | r1 IH1 r2 IH2 | r1 IH1 r2 IH2 | g r1 IH1
                 | j r1 IH1 | pos r1 IH1 | p | m | m ];
    simpl; intros S st k res H; try discriminate.
  - apply orb_true_iff in S. destruct S as [S | S].
    + apply (IH1 S) in H. destruct H as [st1 [E1 [H C1]]].
      apply rmatch_sound in H. destruct H as [st2 [E2 H]].
      exists st2. split; [eapply extends_trans; eauto | ].
      split; [exact H | apply E2, C1].
    + apply rmatch_sound in H. destruct H as [st1 [E1 H]].
      apply (IH2 S) in H. destruct H as [st2 [E2 [H C2]]].
      exists st2. split; [eapply extends_trans; eauto | auto].
  - apply andb_true_iff in S. destruct S as [S1 S2].
    destruct (rmatch r1 st k) eqn:H1.
    + injection H as <-. apply (IH1 S1) in H1. exact H1.
    + apply (IH2 S2) in H. exact H.
  - apply orb_true_iff in S. destruct S as [S | S].
    + apply rmatch_sound in H. destruct H as [st1 [[M C] H]].
      eexists. split; [ | split; [exact H | ]].
      * split; simpl; [exact M | ].
        intros j' Hj. simpl. destruct (Nat.eqb j' j); [discriminate | auto].
      * simpl. rewrite S. discriminate.
    + apply (IH1 S) in H. destruct H as [st1 [[M C] [H C1]]].
      eexists. split; [ | split; [exact H | ]].
      * split; simpl; [exact M | ].
        intros j' Hj. simpl. destruct (Nat.eqb j' j); [discriminate | auto].
      * simpl. destruct (Nat.eqb i j); [discriminate | exact C1].
  - destruct pos; [ | discriminate].
    destruct (rmatch r1 st Some) as [st1 | ] eqn:H1; [ | discriminate].
    apply (IH1 S) in H1. destruct H1 as [st2 [[_ C] [E C2]]].
    injection E as ->.
    eexists. split; [ | split; [exact H | exact C2]].
    split; simpl; [exists []; split; reflexivity | exact C].
Qed.

(** [exec] returns the result of a sticky match at some position. *)
Lemma search_from_some r :
  forall aft bef m,
    search_from r bef aft = Some m ->
    exists pre aft' st,
      aft = pre ++ aft'
      /\ match_at r (rev pre ++ bef) aft' = Some st
      /\ m = result_of (rev pre ++ bef) st.
Proof.
  induction aft as [ | c aft IH]; intros bef m H; simpl in H.
  - destruct (match_at r bef []) as [st | ] eqn:E; [ | discriminate].
    injection H as <-. exists [], [], st. auto.
  - destruct (match_at r bef (c :: aft)) as [st | ] eqn:E.
    + injection H as <-. exists [], (c :: aft), st. auto.
    + apply IH in H. destruct H as [pre [aft' [st [-> [M ->]]]]].
      exists (c :: pre), aft', st. simpl. rewrite <- app_assoc. simpl. auto.
Qed.

Lemma search_from_none r :
  forall aft bef,
    (forall pre aft', aft = pre ++ aft' ->
                      match_at r (rev pre ++ bef) aft' = None) ->
    search_from r bef aft = None.
Proof.
  induction aft as [ | c aft IH]; intros bef H; simpl.
  - pose proof (H [] [] eq_refl) as H0. simpl in H0. rewrite H0. reflexivity.
  - pose proof (H [] (c :: aft) eq_refl) as H0. simpl in H0. rewrite H0.
    apply IH.
    intros pre aft' ->. specialize (H (c :: pre) aft' eq_refl).
    simpl in H. rewrite <- app_assoc in H. exact H.
Qed.

Lemma exec_sets_group i r s m :
  sets_group i r = true -> exec r s = Some m -> group i m <> None.
Proof.
  intros S H. apply search_from_some in H.
  destruct H as [pre [aft' [st [_ [M ->]]]]].
  apply (rmatch_sets_group _ _ S) in M.
  destruct M as [st' [_ [E C]]]. injection E as ->. exact C.
Qed.

(** A pattern of single code units reads its classes off the input and
    hands over to the continuation. *)
Lemma take_preds_app ps1 :
  forall ps2 s,
    take_preds (ps1 ++ ps2) s
    = match take_preds ps1 s with
      | Some (m1, rest1) =>
          match take_preds ps2 rest1 with
          | Some (m2, rest2) => Some (m1 ++ m2, rest2)
          | None => None
          end
      | None => None
      end.
Proof.
  induction ps1 as [ | p ps1 IH]; intros ps2 s; simpl.
  - destruct (take_preds ps2 s) as [[m2 rest2] | ]; reflexivity.
  - destruct s as [ | c s]; [reflexivity | ].
    destruct (p c); [ | reflexivity].
    rewrite IH. destruct (take_preds ps1 s) as [[m1 rest1] | ]; [ | reflexivity].
    destruct (take_preds ps2 rest1) as [[m2 rest2] | ]; reflexivity.
Qed.

Lemma take_preds_split ps :
  forall s m rest,
    take_preds ps s = Some (m, rest) ->
    s = m ++ rest /\ Forall2 (fun p c => p c = true) ps m.
Proof.
  induction ps as [ | p ps IH]; intros s m rest H; simpl in H.
  - injection H as <- <-. split; [reflexivity | constructor].
  - destruct s as [ | c s]; [discriminate | ].
    destruct (p c) eqn:P; [ | discriminate].
    destruct (take_preds ps s) as [[m' rest'] | ] eqn:T; [ | discriminate].
    injection H as <- <-. destruct (IH _ _ _ T) as [-> F].
    split; [reflexivity | constructor; assumption].
Qed.

Lemma rmatch_linear r :
  forall ps bef aft cs k,
    linear r = Some ps ->
    rmatch r (MState bef aft cs) k
    = match take_preds ps aft with
      | Some (m, rest) => k (MState (rev m ++ bef) rest cs)
      | None => None
      end.
Proof.
  induction r as [ | p | r1 IH1 r2 IH2 | r1 IH1 r2 IH2 | g r1 IH1
                 | i r1 IH1 | pos r1 IH1 | p | m | m ];
    intros ps bef aft cs k L; simpl in L; try discriminate.
  - injection L as <-. reflexivity.
  - injection L as <-. simpl. destruct aft as [ | c rest]; [reflexivity | ].
    destruct (p c); reflexivity.
  - destruct (linear r1) as [ps1 | ]; [ | discriminate].
    destruct (linear r2) as [ps2 | ]; [ | discriminate].
    injection L as <-. simpl. rewrite (IH1 ps1 _ _ _ _ eq_refl).
    rewrite take_preds_app.
    destruct (take_preds ps1 aft) as [[m1 rest1] | ]; [ | reflexivity].
    rewrite (IH2 ps2 _ _ _ _ eq_refl).
    destruct (take_preds ps2 rest1) as [[m2 rest2] | ]; [ | reflexivity].
    rewrite rev_app_distr, <- app_assoc. reflexivity.
Qed.

Lemma linear_chars eqc w : linear (chars eqc w) = Some (List.map eqc w).
Proof.
  induction w as [ | x w IH]; simpl; [reflexivity | ].
  rewrite IH. reflexivity.
Qed.

(** A pattern that begins with a literal matches only where the literal
    stands. *)
Lemma match_at_literal_prefix w r bef aft :
  prefix_ci w aft = false ->
  match_at (Seq (chars is_ci w) r) bef aft = None.
Proof.
  unfold prefix_ci, match_at. intro H. cbn [rmatch].
  rewrite (@rmatch_linear _ (List.map is_ci w)) by apply linear_chars.
  destruct (take_preds (List.map is_ci w) aft) as [[m rest] | ];
    [discriminate | reflexivity].
Qed.

Lemma includes_ci_false_suffix w :
  forall s pre aft,
    includes_ci s w = false -> s = pre ++ aft -> prefix_ci w aft = false.
Proof.
  intros s pre. revert s.
  induction pre as [ | c pre IH]; intros s aft H ->.
  - destruct aft; simpl in H; apply orb_false_iff in H; tauto.
  - simpl in H. apply orb_false_iff in H. destruct H as [_ H].
    eapply IH; eauto.
Qed.

Lemma exec_literal_absent w r s :
  includes_ci s w = false -> exec (Seq (chars is_ci w) r) s = None.
Proof.
  intro H. apply search_from_none. intros pre aft' E.
  apply match_at_literal_prefix. eapply includes_ci_false_suffix; eauto.
Qed.

(** A pattern that must start on a code unit of class [p] fails where
    the input has none. *)
Lemma rmatch_first_class r :
  forall p bef aft cs k,
    first_class r = Some p ->
    match aft with [] => True | c :: _ => p c = false end ->
    rmatch r (MState bef aft cs) k = None.
Proof.
  induction r as [ | q | r1 IH1 r2 IH2 | r1 IH1 r2 IH2 | g r1 IH1
                 | i r1 IH1 | pos r1 IH1 | q | m | m ];
    intros p bef aft cs k F H; simpl in F; try discriminate.
  - injection F as <-. simpl. destruct aft as [ | c rest]; [reflexivity | ].
    rewrite H. reflexivity.
  - simpl. destruct (first_class r1) as [p1 | ] eqn:F1.
    + injection F as <-. eapply IH1; eauto.
    + destruct r1; try discriminate; simpl.
      * eapply IH2; eauto.
      * destruct bef as [ | b ?]; [eapply IH2; eauto | ].
        destruct (p0 b); [reflexivity | eapply IH2; eauto].
      * destruct bef as [ | b ?]; [eapply IH2; eauto | ].
        destruct (multiline && is_lt b); [eapply IH2; eauto | reflexivity].
      * destruct aft as [ | c ?]; [eapply IH2; eauto | ].
        destruct (multiline && is_lt c); [eapply IH2; eauto | reflexivity].
  - simpl. eapply IH1; eauto.
Qed.

(** Without a match anywhere, the scan returns the text untouched. *)
Lemma scan_no_match r :
  forall aft cur bef,
    (forall pre aft', aft = pre ++ aft' ->
                      match_at r (rev pre ++ bef) aft' = None) ->
    scan r 0 cur bef aft = ([], rev cur ++ aft).
Proof.
  induction aft as [ | c aft IH]; intros cur bef H.
  - pose proof (H [] [] eq_refl) as H0. simpl in H0. simpl. rewrite H0.
    rewrite app_nil_r. reflexivity.
  - pose proof (H [] (c :: aft) eq_refl) as H0. simpl in H0.
    simpl. rewrite H0. rewrite IH.
    + simpl. rewrite <- app_assoc. reflexivity.
    + intros pre aft' ->. specialize (H (c :: pre) aft' eq_refl).
      simpl in H. rewrite <- app_assoc in H. exact H.
Qed.

Lemma replace_all_no_match r f s :
  (forall pre aft', s = pre ++ aft' -> match_at r (rev pre) aft' = None) ->
  replace_all r f s = s.
Proof.
  intro H. unfold replace_all, matches. rewrite scan_no_match.
  - reflexivity.
  - intros pre aft' E. rewrite app_nil_r. apply H, E.
Qed.

Lemma forallb_suffix (p : cu -> bool) :
  forall pre aft, forallb p (pre ++ aft) = true -> forallb p aft = true.
Proof.
  intros pre aft H. rewrite forallb_app in H.
  apply andb_true_iff in H. tauto.
Qed.

Lemma replace_all_first_class r p f s :
  first_class r = Some p ->
  forallb (fun c => negb (p c)) s = true ->
  replace_all r f s = s.
Proof.
  intros F H. apply replace_all_no_match. intros pre aft' ->.
  apply forallb_suffix in H. unfold match_at.
  eapply rmatch_first_class; eauto.
  destruct aft' as [ | c ?]; [exact I | ].
  simpl in H. apply andb_true_iff in H. destruct H as [H _].
  apply negb_true_iff, H.
Qed.

(** *** Trimming and splitting *)

Lemma forallb_rev (p : cu -> bool) s : forallb p (rev s) = forallb p s.
Proof.
  induction s as [ | c s IH]; simpl; [reflexivity | ].
  rewrite forallb_app, IH. simpl. rewrite andb_true_r, andb_comm. reflexivity.
Qed.

Lemma drop_ws_forallb (p : cu -> bool) s :
  forallb p s = true -> forallb p (drop_ws s) = true.
Proof.
  induction s as [ | c s IH]; simpl; [auto | ].
  intro H. apply andb_true_iff in H. destruct H as [Hc Hs].
  destruct (is_ws c); [auto | ]. simpl. rewrite Hc, Hs. reflexivity.
Qed.

Lemma trim_forallb (p : cu -> bool) s :
  forallb p s = true -> forallb p (trim s) = true.
Proof.
  intro H. unfold trim. rewrite forallb_rev. apply drop_ws_forallb.
  rewrite forallb_rev. apply drop_ws_forallb, H.
Qed.

Lemma split_on_forallb (p : cu -> bool) x :
  forall s cur,
    forallb p cur = true -> forallb p s = true ->
    forallb (forallb p) (split_on x cur s) = true.
Proof.
  induction s as [ | c s IH]; intros cur Hc Hs; simpl.
  - rewrite forallb_rev, Hc. reflexivity.
  - simpl in Hs. apply andb_true_iff in Hs. destruct Hs as [Hp Hs].
    destruct (c =? x).
    + simpl. rewrite forallb_rev, Hc. simpl. apply IH; auto.
    + apply IH; [simpl; rewrite Hp, Hc; reflexivity | exact Hs].
Qed.

(** No piece of [split_on x] holds the separator. *)
Lemma split_on_no_sep x :
  forall s cur,
    forallb (fun c => negb (c =? x)) cur = true ->
    forallb (forallb (fun c => negb (c =? x))) (split_on x cur s) = true.
Proof.
  induction s as [ | c s IH]; intros cur Hc; cbn [split_on forallb].
  - rewrite forallb_rev, Hc. reflexivity.
  - destruct (c =? x) eqn:E.
    + cbn [forallb]. rewrite forallb_rev, Hc. apply IH. reflexivity.
    + apply IH. cbn [forallb]. rewrite E, Hc. reflexivity.
Qed.

Lemma split_on_nonempty x s cur : split_on x cur s <> [].
Proof.
  revert cur. induction s as [ | c s IH]; intro cur; simpl; [discriminate | ].
  destruct (c =? x); [discriminate | apply IH].
Qed.

Lemma join_cons sep a l :
  l <> [] -> join sep (a :: l) = a ++ sep ++ join sep l.
Proof. destruct l; [congruence | reflexivity]. Qed.

(** Joining the pieces with [sep] puts [sep] where the separator stood. *)
Lemma join_split_on x sep :
  forall s cur,
    join sep (split_on x cur s)
    = rev cur ++ flat_map (fun c => if c =? x then sep else [c]) s.
Proof.
  induction s as [ | c s IH]; intro cur; cbn [split_on flat_map join].
  - rewrite app_nil_r. reflexivity.
  - destruct (c =? x).
    + rewrite join_cons by apply split_on_nonempty.
      rewrite IH. reflexivity.
    + rewrite IH. cbn [rev]. rewrite <- app_assoc. reflexivity.
Qed.

(** *** Stars, alternatives and labels *)

Lemma rmatch_seq r1 r2 st k :
  rmatch (Seq r1 r2) st k = rmatch r1 st (fun st' => rmatch r2 st' k).
Proof. reflexivity. Qed.

Lemma rmatch_star g r1 st k :
  rmatch (Star g r1) st k = star_loop g r1 k (List.length (after st)) st.
Proof. reflexivity. Qed.

Lemma drop_ws_length s : (List.length (drop_ws s) <= List.length s)%nat.
Proof.
  induction s as [ | c s IH]; cbn [drop_ws]; [lia | ].
  destruct (is_ws c); cbn [List.length]; lia.
Qed.

(** A greedy star over white space, followed by something that cannot
    start on white space, takes all the white space there is. *)
Lemma star_ws_commit k :
  (forall bef c aft cs, is_ws c = true -> k (MState bef (c :: aft) cs) = None) ->
  forall aft fuel bef cs,
    (List.length aft <= fuel)%nat ->
    star_loop true (Cls is_ws) k fuel (MState bef aft cs)
    = k (MState (rev (lead_ws aft) ++ bef) (drop_ws aft) cs).
Proof.
  intros Hk. induction aft as [ | c aft IH]; intros fuel bef cs Hf.
  - destruct fuel; reflexivity.
  - destruct fuel as [ | fuel]; [cbn [List.length] in Hf; lia | ].
    cbn [star_loop rmatch after before caps lead_ws drop_ws].
    destruct (is_ws c) eqn:W.
    + assert ((List.length aft <? List.length (c :: aft))%nat = true) as L
        by (apply Nat.ltb_lt; cbn [List.length]; lia).
      rewrite L, IH by (cbn [List.length] in Hf; lia).
      cbn [rev]. rewrite <- app_assoc. cbn [app].
      destruct (k (MState (rev (lead_ws aft) ++ c :: bef) (drop_ws aft) cs))
        eqn:E; [reflexivity | ].
      apply Hk, W.
    + reflexivity.
Qed.

(** With nothing after it, the greedy star over white space stops after
    the white space. *)
Lemma star_ws_all :
  forall aft fuel bef cs,
    (List.length aft <= fuel)%nat ->
    star_loop true (Cls is_ws) Some fuel (MState bef aft cs)
    = Some (MState (rev (lead_ws aft) ++ bef) (drop_ws aft) cs).
Proof.
  induction aft as [ | c aft IH]; intros fuel bef cs Hf.
  - destruct fuel; reflexivity.
  - destruct fuel as [ | fuel]; [cbn [List.length] in Hf; lia | ].
    cbn [star_loop rmatch after before caps lead_ws drop_ws].
    destruct (is_ws c) eqn:W; [ | reflexivity].
    assert ((List.length aft <? List.length (c :: aft))%nat = true) as L
      by (apply Nat.ltb_lt; cbn [List.length]; lia).
    rewrite L, IH by (cbn [List.length] in Hf; lia).
    cbn [rev]. rewrite <- app_assoc. reflexivity.
Qed.

Lemma consumed_since_app m bef rest cs :
  consumed_since (List.length bef) (MState (rev m ++ bef) rest cs) = m.
Proof.
  unfold consumed_since. cbn [before].
  rewrite length_app, Nat.add_sub.
  rewrite firstn_app, Nat.sub_diag, firstn_all. cbn [firstn].
  rewrite app_nil_r. apply rev_involutive.
Qed.

(** A group around alternatives made of single code units records the
    first alternative that can be read. *)
Lemma rmatch_group_alts i :
  forall rs pss bef aft cs,
    Forall2 (fun r ps => linear r = Some ps) rs pss ->
    rs <> [] ->
    rmatch (Group i (alts rs)) (MState bef aft cs) Some
    = match first_word pss aft with
      | Some (m, rest) => Some (MState (rev m ++ bef) rest ((i, m) :: cs))
      | None => None
      end.
Proof.
  intros rs pss bef aft cs F. cbn [rmatch before].
  set (k := fun st' : mstate =>
              Some (MState (before st') (after st')
                      ((i, consumed_since (List.length bef) st') :: caps st'))).
  induction F as [ | r ps rs pss L F IH]; intro N; [congruence | ].
  assert (rmatch r (MState bef aft cs) k
          = match take_preds ps aft with
            | Some (m, rest) => Some (MState (rev m ++ bef) rest ((i, m) :: cs))
            | None => None
            end) as E.
  { rewrite (@rmatch_linear r ps) by exact L.
    destruct (take_preds ps aft) as [[m rest] | ]; [ | reflexivity].
    unfold k. cbn [before after caps]. rewrite consumed_since_app.
    reflexivity. }
  destruct rs as [ | r2 rs].
  - inversion F; subst. cbn [alts first_word]. rewrite E.
    destruct (take_preds ps aft) as [[m rest] | ]; reflexivity.
  - cbn [alts rmatch first_word]. rewrite E.
    destruct (take_preds ps aft) as [[m rest] | ]; [reflexivity | ].
    apply IH. discriminate.
Qed.

Lemma first_word_head pss c aft :
  Forall (fun ps => match ps with
                    | p :: _ => p c = false
                    | [] => False
                    end) pss ->
  first_word pss (c :: aft) = None.
Proof.
  induction 1 as [ | ps pss H F IH]; [reflexivity | ].
  cbn [first_word]. destruct ps as [ | p ps]; [contradiction | ].
  cbn [take_preds]. rewrite H. exact IH.
Qed.

(** A label pattern: the label, white space, a group around the words. *)
Lemma match_at_label label i rs pss bef aft :
  Forall2 (fun r ps => linear r = Some ps) rs pss ->
  rs <> [] ->
  (forall c, is_ws c = true ->
             Forall (fun ps => match ps with
                               | p :: _ => p c = false
                               | [] => False
                               end) pss) ->
  match_at (Seq (chars is_ci label)
              (Seq (Star true (Cls is_ws)) (Group i (alts rs)))) bef aft
  = match take_preds (List.map is_ci label) aft with
    | Some (m0, rest) =>
        match first_word pss (drop_ws rest) with
        | Some (m, rest') =>
            Some (MState (rev m ++ rev (lead_ws rest) ++ rev m0 ++ bef)
                         rest' [(i, m)])
        | None => None
        end
    | None => None
    end.
Proof.
  intros F N W. unfold match_at. rewrite rmatch_seq.
  rewrite (@rmatch_linear _ (List.map is_ci label)) by apply linear_chars.
  destruct (take_preds (List.map is_ci label) aft) as [[m0 rest] | ];
    [ | reflexivity].
  rewrite rmatch_seq, rmatch_star. cbn [after].
  rewrite star_ws_commit.
  - rewrite (rmatch_group_alts i _ _ _ F N). reflexivity.
  - intros bef' c aft' cs Hc.
    rewrite (rmatch_group_alts i _ _ _ F N).
    rewrite (@first_word_head _ _ aft' (W c Hc)). reflexivity.
  - lia.
Qed.

Lemma exec_label label i rs pss :
  Forall2 (fun r ps => linear r = Some ps) rs pss ->
  rs <> [] ->
  (forall c, is_ws c = true ->
             Forall (fun ps => match ps with
                               | p :: _ => p c = false
                               | [] => False
                               end) pss) ->
  forall s,
    option_map (dollar i)
      (exec (Seq (chars is_ci label)
               (Seq (Star true (Cls is_ws)) (Group i (alts rs)))) s)
    = find_label label pss s.
Proof.
  intros F Hn W s. unfold exec. generalize (@nil BinNums.N) as bef.
  induction s as [ | c s IH]; intro bef.
  - cbn [search_from find_label]. rewrite (@match_at_label label i rs pss _ _ F Hn W).
    unfold label_here.
    destruct (take_preds (List.map is_ci label) []) as [[m0 rest] | ];
      [ | reflexivity].
    destruct (first_word pss (drop_ws rest)) as [[m rest'] | ];
      [ | reflexivity].
    cbn [option_map]. unfold dollar, group, result_of. cbn [m_caps caps lookup_cap].
    rewrite Nat.eqb_refl. reflexivity.
  - cbn [search_from find_label]. rewrite (@match_at_label label i rs pss _ _ F Hn W).
    unfold label_here.
    destruct (take_preds (List.map is_ci label) (c :: s)) as [[m0 rest] | ].
    + destruct (first_word pss (drop_ws rest)) as [[m rest'] | ].
      * cbn [option_map]. unfold dollar, group, result_of.
        cbn [m_caps caps lookup_cap]. rewrite Nat.eqb_refl. reflexivity.
      * apply IH.
    + apply IH.
Qed.

(** *** Replacing runs of white space *)

Lemma rmatch_cls p bef c rest cs k :
  rmatch (Cls p) (MState bef (c :: rest) cs) k
  = if p c then k (MState (c :: bef) rest cs) else None.
Proof. reflexivity. Qed.

Lemma lead_drop_length s :
  (List.length (lead_ws s) + List.length (drop_ws s) = List.length s)%nat.
Proof.
  induction s as [ | c s IH]; cbn [lead_ws drop_ws]; [reflexivity | ].
  destruct (is_ws c); cbn [List.length]; lia.
Qed.

Lemma match_at_plus_ws bef aft :
  match_at (plus (Cls is_ws)) bef aft
  = match aft with
    | c :: aft' =>
        if is_ws c
        then Some (MState (rev (lead_ws aft') ++ c :: bef) (drop_ws aft') [])
        else None
    | [] => None
    end.
Proof.
  unfold match_at, plus. rewrite rmatch_seq.
  destruct aft as [ | c aft']; [reflexivity | ].
  rewrite rmatch_cls. destruct (is_ws c); [ | reflexivity].
  rewrite rmatch_star. cbn [after]. apply star_ws_all. lia.
Qed.

Lemma replace_all_render r d s :
  replace_all r (fun _ => d) s = render d (matches r s).
Proof.
  unfold replace_all, render. destruct (matches r s) as [ms tl]. reflexivity.
Qed.

Lemma scan_plus_ws d :
  forall aft,
    (forall cur bef,
        render d (scan (plus (Cls is_ws)) 0 cur bef aft)
        = rev cur ++ collapse d false aft)
    /\ (forall cur bef,
           render d (scan (plus (Cls is_ws)) (List.length (lead_ws aft))
                       cur bef aft)
           = rev cur ++ collapse d true aft).
Proof.
  induction aft as [ | c aft [IH0 IH1]].
  - assert (forall cur bef,
               render d (scan (plus (Cls is_ws)) 0 cur bef [])
               = rev cur ++ collapse d false []) as E.
    { intros cur bef. cbn [scan]. rewrite match_at_plus_ws.
      unfold render. cbn [fst snd flat_map app collapse].
      rewrite app_nil_r. reflexivity. }
    split; [exact E | exact E].
  - assert (forall cur bef,
               render d (scan (plus (Cls is_ws)) 0 cur bef (c :: aft))
               = rev cur ++ collapse d false (c :: aft)) as E.
    { intros cur bef. cbn [scan collapse]. rewrite match_at_plus_ws.
      destruct (is_ws c) eqn:W.
      - cbn [after].
        assert ((List.length (c :: aft) - List.length (drop_ws aft))%nat
                = S (List.length (lead_ws aft))) as L.
        { pose proof (lead_drop_length aft). cbn [List.length]. lia. }
        rewrite L.
        specialize (IH1 [] (c :: bef)).
        destruct (scan (plus (Cls is_ws)) (List.length (lead_ws aft)) []
                    (c :: bef) aft) as [ms tl].
        unfold render in *. cbn [fst snd flat_map rev app] in *.
        rewrite <- !app_assoc. rewrite IH1. reflexivity.
      - rewrite IH0. cbn [rev]. rewrite <- app_assoc. reflexivity. }
    split; [exact E | ].
    intros cur bef. cbn [lead_ws collapse]. destruct (is_ws c) eqn:W.
    + cbn [List.length scan]. rewrite IH1. reflexivity.
    + cbn [List.length]. rewrite E. cbn [collapse]. rewrite W. reflexivity.
Qed.

Lemma replace_spaces d s :
  replace_all (plus (Cls is_ws)) (fun _ => d) s = collapse d false s.
Proof.
  rewrite replace_all_render. unfold matches.
  rewrite (proj1 (scan_plus_ws d s)). reflexivity.
Qed.

Lemma collapse_no_ws d b s :
  forallb (fun c => negb (is_ws c)) s = true -> collapse d b s = s.
Proof.
  revert b. induction s as [ | c s IH]; intros b H; [reflexivity | ].
  cbn [forallb] in H. apply andb_true_iff in H. destruct H as [Hc Hs].
  apply negb_true_iff in Hc. cbn [collapse]. rewrite Hc, (IH false Hs).
  reflexivity.
Qed.

Lemma collapse_app_no_ws d s :
  forall b z,
    s <> [] ->
    forallb (fun c => negb (is_ws c)) s = true ->
    collapse d b (s ++ z) = s ++ collapse d false z.
Proof.
  induction s as [ | c s IH]; intros b z N H; [congruence | ].
  cbn [forallb] in H. apply andb_true_iff in H. destruct H as [Hc Hs].
  apply negb_true_iff in Hc. cbn [app collapse]. rewrite Hc.
  destruct s as [ | c2 s]; [reflexivity | ].
  rewrite (IH false z) by (discriminate || exact Hs). reflexivity.
Qed.

(** *** Letters and white space *)

Lemma lower_upper c : lower_cu (upper_cu c) = lower_cu c.
Proof.
  unfold lower_cu, upper_cu.
  destruct (N.leb_spec 97 c); destruct (N.leb_spec c 122); cbn [andb];
    repeat match goal with
           | |- context [N.leb ?a ?b] => destruct (N.leb_spec a b)
           end; cbn [andb]; lia.
Qed.

Lemma ci_lower x c : is_ci x c = true -> lower_cu c = lower_cu x.
Proof.
  unfold is_ci. intro H. apply N.eqb_eq in H.
  rewrite <- (lower_upper c), H. apply lower_upper.
Qed.

Lemma ws_bounds c : is_ws c = true -> c <= 32 \/ 160 <= c.
Proof.
  unfold is_ws. intro H.
  repeat (apply orb_true_iff in H; destruct H as [H | H]);
    try (apply N.eqb_eq in H; subst; lia).
  apply andb_true_iff in H. destruct H as [H _].
  apply N.leb_le in H. lia.
Qed.

Lemma ws_not_ci x c :
  is_ascii_letter x = true -> is_ws c = true -> is_ci x c = false.
Proof.
  intros L W. apply ws_bounds in W. unfold is_ci. apply N.eqb_neq.
  unfold is_ascii_letter in L. unfold upper_cu.
  repeat match goal with
         | |- context [N.leb ?a ?b] => destruct (N.leb_spec a b)
         | H : context [N.leb ?a ?b] |- _ => destruct (N.leb_spec a b)
         end; cbn [andb orb] in *; try discriminate; lia.
Qed.

Lemma ci_not_ws x c :
  is_ascii_letter x = true -> is_ci x c = true -> is_ws c = false.
Proof.
  intros L C. destruct (is_ws c) eqn:W; [ | reflexivity].
  rewrite (ws_not_ci _ _ L W) in C. discriminate.
Qed.

(** Text read by a word pattern: its letters are those of the word up
    to case. *)
Lemma word_lower w :
  forall m,
    Forall2 (fun p c => p c = true) (List.map is_ci w) m ->
    toLowerCase m = toLowerCase w.
Proof.
  induction w as [ | x w IH]; intros m F; inversion F; subst;
    [reflexivity | ].
  cbn [toLowerCase List.map]. f_equal; [apply ci_lower; assumption | ].
  apply IH. assumption.
Qed.

Lemma word_no_ws w :
  forallb is_ascii_letter w = true ->
  forall m,
    Forall2 (fun p c => p c = true) (List.map is_ci w) m ->
    forallb (fun c => negb (is_ws c)) m = true.
Proof.
  induction w as [ | x w IH]; intros L m F; inversion F; subst;
    [reflexivity | ].
  cbn [forallb] in *. apply andb_true_iff in L. destruct L as [Lx Lw].
  rewrite (ci_not_ws _ _ Lx) by assumption. cbn [negb andb].
  apply IH; assumption.
Qed.

End JsFacts.

(* ================================================================== *)
(** ** Facts about the markdown renderer *)

Module MarkdownFacts.
Import Js Markdown MatcherViews MarkdownViews JsFacts.

Local Open Scope string_scope.
Local Open Scope list_scope.

Definition plain_cu (c : cu) : bool := negb (is_markdown_cu c).

Lemma plain_not_class (x : cu) s :
  is_markdown_cu x = true ->
  forallb plain_cu s = true ->
  forallb (fun c => negb (is_c x c)) s = true.
Proof.
  intros Hx H. rewrite forallb_forall in *. intros c Hc.
  specialize (H c Hc). unfold plain_cu, is_c in *.
  destruct (N.eqb_spec c x) as [-> | ]; [ | reflexivity].
  rewrite Hx in H. discriminate.
Qed.

(** The five replacements leave a line without markdown code units
    alone. *)
Lemma replacements_plain s :
  forallb plain_cu s = true ->
  replace_all re_code (wrap "code")
    (replace_all re_italic_underscore (wrap "em")
       (replace_all re_italic (wrap "em")
          (replace_all re_bold_underscore (wrap "strong")
             (replace_all re_bold (wrap "strong") s)))) = s.
Proof.
  intro H.
  rewrite (@replace_all_first_class re_bold (is_c star))
    by (first [reflexivity | apply plain_not_class; [reflexivity | exact H]]).
  rewrite (@replace_all_first_class re_bold_underscore (is_c underscore))
    by (first [reflexivity | apply plain_not_class; [reflexivity | exact H]]).
  rewrite (@replace_all_first_class re_italic (is_c star))
    by (first [reflexivity | apply plain_not_class; [reflexivity | exact H]]).
  rewrite (@replace_all_first_class re_italic_underscore (is_c underscore))
    by (first [reflexivity | apply plain_not_class; [reflexivity | exact H]]).
  rewrite (@replace_all_first_class re_code (is_c backtick))
    by (first [reflexivity | apply plain_not_class; [reflexivity | exact H]]).
  reflexivity.
Qed.

Lemma processLine_plain line :
  forallb plain_cu line = true ->
  startsWith (trim line) (lit "- ") = false ->
  processLine line = trim line.
Proof.
  intros H D. unfold processLine.
  pose proof (trim_forallb plain_cu line H) as T.
  assert (startsWith (trim line) (lit "* ") = false) as S.
  { destruct (trim line) as [ | c t]; [reflexivity | ].
    simpl in T. apply andb_true_iff in T. destruct T as [T _].
    unfold plain_cu, is_markdown_cu, star in T.
    cbn [startsWith lit List.map list_ascii_of_string].
    change (N_of_ascii "*") with 42%N.
    destruct (c =? 42)%N; [discriminate | reflexivity]. }
  rewrite S, D. cbn [orb]. apply replacements_plain, T.
Qed.

Lemma convert_plain s :
  no_markdown s = true ->
  convertMarkdownToHtml s = join (lit "<br>") (trimmed_lines s).
Proof.
  unfold no_markdown. intro H. apply andb_true_iff in H.
  destruct H as [P D].
  unfold convertMarkdownToHtml, trimmed_lines.
  destruct s as [ | c s]; [reflexivity | ].
  cbn [is_empty]. f_equal. f_equal.
  apply map_ext_in. intros line Hl.
  apply processLine_plain.
  - pose proof (@split_on_forallb plain_cu 10%N (c :: s) [] eq_refl P) as F.
    rewrite forallb_forall in F. apply F, Hl.
  - rewrite forallb_forall in D. apply negb_true_iff, D, Hl.
Qed.

(** *** The inverse direction on the renderer's output *)

Lemma forallb_join (p : cu -> bool) sep :
  forall l,
    forallb p sep = true -> forallb (forallb p) l = true ->
    forallb p (join sep l) = true.
Proof.
  induction l as [ | a l IH]; intros Hs H; [reflexivity | ].
  cbn [forallb] in H. apply andb_true_iff in H. destruct H as [Ha Hl].
  destruct l as [ | b l]; [exact Ha | ].
  rewrite join_cons by discriminate.
  rewrite !forallb_app, Ha, Hs, (IH Hs Hl). reflexivity.
Qed.

Lemma normalize_newlines_id s :
  forallb (fun c => negb (c =? 13)%N) s = true -> normalize_newlines s = s.
Proof.
  induction s as [ | c s IH]; cbn [forallb normalize_newlines];
    [reflexivity | ].
  intro H. apply andb_true_iff in H. destruct H as [Hc Hs].
  apply negb_true_iff in Hc. rewrite Hc, (IH Hs). reflexivity.
Qed.

Lemma follows_ok_markup c :
  follows_ok 60 c = true -> opens_markup c = false.
Proof.
  unfold follows_ok. cbn [N.eqb Pos.eqb andb orb].
  intro H. apply negb_true_iff, orb_false_iff in H. apply H.
Qed.

Lemma follows_ok_reference c :
  follows_ok 38 c = true -> opens_reference c = false.
Proof.
  unfold follows_ok. cbn [N.eqb Pos.eqb andb orb].
  intro H. apply negb_true_iff in H. exact H.
Qed.

Lemma data_step_after_text cur c :
  (c =? 0)%N = false -> data_step cur c = after_text (c :: cur).
Proof.
  intro H0. unfold data_step, after_text. rewrite H0.
  destruct (c =? 60)%N; [reflexivity | ].
  destruct (c =? 38)%N; reflexivity.
Qed.

(** One code unit of text: nothing is emitted and the text grows. *)
Lemma step_after_text cur c :
  (c =? 0)%N = false ->
  match cur with p :: _ => follows_ok p c = true | [] => True end ->
  step (after_text cur) c = ([], after_text (c :: cur)).
Proof.
  intros H0 F. destruct cur as [ | p cur].
  - cbn [after_text step]. rewrite data_step_after_text by exact H0.
    reflexivity.
  - unfold after_text at 1.
    destruct (p =? 60)%N eqn:P60.
    + apply N.eqb_eq in P60. subst p.
      apply follows_ok_markup in F. unfold opens_markup in F.
      apply orb_false_iff in F. destruct F as [F H63].
      apply orb_false_iff in F. destruct F as [F H33].
      apply orb_false_iff in F. destruct F as [F H47].
      cbn [step]. rewrite F, H47, H33, H63.
      rewrite data_step_after_text by exact H0. reflexivity.
    + destruct (p =? 38)%N eqn:P38.
      * apply N.eqb_eq in P38. subst p.
        apply follows_ok_reference in F. unfold opens_reference in F.
        apply orb_false_iff in F. destruct F as [F H35].
        cbn [step]. rewrite H35, F.
        rewrite data_step_after_text by exact H0. reflexivity.
      * cbn [step]. rewrite data_step_after_text by exact H0. reflexivity.
Qed.

(** A line the parser reads as text is read without any token. *)
Lemma tokenize_literal l :
  forall cur rest,
    literal_line l = true ->
    match cur, l with
    | p :: _, c :: _ => follows_ok p c = true
    | _, _ => True
    end ->
    tokenize_from (after_text cur) (l ++ rest)
    = tokenize_from (after_text (rev l ++ cur)) rest.
Proof.
  induction l as [ | c l IH]; intros cur rest H F; [reflexivity | ].
  cbn [literal_line] in H.
  apply andb_true_iff in H. destruct H as [H Hl].
  apply andb_true_iff in H. destruct H as [Hc Hn].
  apply negb_true_iff, orb_false_iff in Hc. destruct Hc as [_ H0].
  cbn [app tokenize_from].
  rewrite step_after_text; [ | exact H0 | destruct cur; [exact I | exact F]].
  cbn [fst snd app]. rewrite (IH (c :: cur) rest Hl).
  - cbn [rev]. rewrite <- app_assoc. reflexivity.
  - destruct l; [exact I | exact Hn].
Qed.



Lemma eof_after_text cur : eof (after_text cur) = flush cur.
Proof.
  destruct cur as [ | p cur]; [reflexivity | ].
  unfold after_text.
  destruct (p =? 60)%N eqn:P60;
    [apply N.eqb_eq in P60; subst p; reflexivity | ].
  destruct (p =? 38)%N eqn:P38;
    [apply N.eqb_eq in P38; subst p; reflexivity | reflexivity].
Qed.

Lemma textContent_br_flush cur : textContent_br (flush cur) = rev cur.
Proof.
  destruct cur as [ | c cur]; [reflexivity | ].
  unfold flush, textContent_br. cbn [flat_map]. apply app_nil_r.
Qed.


Lemma literal_no_cr l :
  literal_line l = true -> forallb (fun c => negb (c =? 13)%N) l = true.
Proof.
  induction l as [ | c l IH]; [reflexivity | ].
  cbn [literal_line forallb]. intro H.
  apply andb_true_iff in H. destruct H as [H Hl].
  apply andb_true_iff in H. destruct H as [Hc _].
  apply negb_true_iff, orb_false_iff in Hc. destruct Hc as [H13 _].
  rewrite H13, (IH Hl). reflexivity.
Qed.

Lemma match_at_newlines3 bef aft :
  match aft with
  | a :: b :: _ => (a =? 10)%N && (b =? 10)%N = false
  | _ => True
  end ->
  match_at re_newlines3 bef aft = None.
Proof.
  unfold match_at, re_newlines3. cbn [seqs rmatch after before caps].
  destruct aft as [ | a [ | b rest]]; intro H.
  - reflexivity.
  - unfold is_c. destruct (a =? 10)%N; reflexivity.
  - unfold is_c. destruct (a =? 10)%N; [ | reflexivity].
    cbn [andb] in H. rewrite H. reflexivity.
Qed.












Lemma drop_ws_starts s : starts_nonws (drop_ws s) = true.
Proof.
  induction s as [ | c s IH]; [reflexivity | ].
  cbn [drop_ws]. destruct (is_ws c) eqn:E; [exact IH | ].
  cbn [starts_nonws]. rewrite E. reflexivity.
Qed.

Lemma drop_ws_split s : exists p, s = p ++ drop_ws s.
Proof.
  induction s as [ | c s [p IH]]; [exists []; reflexivity | ].
  cbn [drop_ws]. destruct (is_ws c).
  - exists (c :: p). cbn [app]. rewrite <- IH. reflexivity.
  - exists []. reflexivity.
Qed.

Lemma trim_starts s : starts_nonws (trim s) = true.
Proof.
  unfold trim.
  destruct (drop_ws_split (rev (drop_ws s))) as [p E].
  pose proof (drop_ws_starts s) as S.
  apply (f_equal (@rev N)) in E. rewrite rev_involutive, rev_app_distr in E.
  destruct (rev (drop_ws (rev (drop_ws s)))) as [ | c t]; [reflexivity | ].
  rewrite E in S. exact S.
Qed.

Lemma trim_ends s : starts_nonws (rev (trim s)) = true.
Proof. unfold trim. rewrite rev_involutive. apply drop_ws_starts. Qed.


(** A line without less-than sign, ampersand, carriage return and NUL
    is read as text. *)
Lemma plain_literal l :
  forallb (fun c => negb ((c =? 60)%N || (c =? 38)%N || (c =? 13)%N
                          || (c =? 0)%N)) l = true ->
  literal_line l = true.
Proof.
  induction l as [ | c l IH]; [reflexivity | ].
  cbn [forallb literal_line]. intro H.
  apply andb_true_iff in H. destruct H as [Hc Hl].
  rewrite (IH Hl), andb_true_r.
  apply negb_true_iff in Hc.
  repeat (apply orb_false_iff in Hc; destruct Hc as [Hc ?]).
  match goal with H : (c =? 13)%N = false |- _ => rewrite H end.
  match goal with H : (c =? 0)%N = false |- _ => rewrite H end.
  cbn [orb negb andb]. destruct l as [ | c1 l]; [reflexivity | ].
  unfold follows_ok. rewrite Hc.
  match goal with H : (c =? 38)%N = false |- _ => rewrite H end.
  reflexivity.
Qed.

Lemma no_markup_literal s :
  no_markup s = true -> forallb literal_line (trimmed_lines s) = true.
Proof.
  intro H. rewrite forallb_forall. intros l Hl.
  unfold trimmed_lines in Hl.
  apply filter_In in Hl. destruct Hl as [Hl _].
  apply in_map_iff in Hl. destruct Hl as [l0 [<- Hl0]].
  apply plain_literal, trim_forallb.
  pose proof (@split_on_forallb _ 10%N s [] eq_refl H) as B.
  rewrite forallb_forall in B. apply (B l0 Hl0).
Qed.

(** *** Lines without patterns *)

Lemma search_from_none_inv r :
  forall aft bef,
    search_from r bef aft = None ->
    forall pre aft', aft = pre ++ aft' ->
                     match_at r (rev pre ++ bef) aft' = None.
Proof.
  induction aft as [ | c aft IH]; intros bef H pre aft' E;
    cbn [search_from] in H.
  - destruct pre; [ | discriminate]. cbn [app] in E. subst aft'.
    cbn [rev app].
    destruct (match_at r bef []); [discriminate | reflexivity].
  - destruct (match_at r bef (c :: aft)) eqn:M; [discriminate | ].
    destruct pre as [ | x pre].
    + cbn [app] in E. subst aft'. exact M.
    + cbn [app] in E. injection E as -> ->.
      cbn [rev]. rewrite <- app_assoc. apply (IH _ H). reflexivity.
Qed.

(** A pattern that does not match anywhere replaces nothing. *)
Lemma replace_all_no_test r f s :
  test r s = false -> replace_all r f s = s.
Proof.
  intro H. apply replace_all_no_match. intros pre aft' E.
  unfold test, exec in H.
  destruct (search_from r [] s) eqn:S; [discriminate | ].
  pose proof (@search_from_none_inv r s [] S pre aft' E) as M.
  rewrite app_nil_r in M. exact M.
Qed.

Lemma test_first_class r p s :
  first_class r = Some p ->
  forallb (fun c => negb (p c)) s = true ->
  test r s = false.
Proof.
  intros F H. unfold test, exec. rewrite search_from_none; [reflexivity | ].
  intros pre aft' ->. apply forallb_suffix in H. unfold match_at.
  eapply rmatch_first_class; eauto.
  destruct aft' as [ | c ?]; [exact I | ].
  simpl in H. apply andb_true_iff in H. destruct H as [H _].
  apply negb_true_iff, H.
Qed.

(** A text without star, underscore and backtick, and without a line
    that begins with "- ", has no line with a pattern. *)
Lemma no_markdown_no_patterns s :
  no_markdown s = true -> no_patterns s = true.
Proof.
  unfold no_markdown, no_patterns. intro H.
  apply andb_true_iff in H. destruct H as [P D].
  rewrite forallb_forall in *. intros line Hl.
  pose proof (@split_on_forallb plain_cu 10%N s [] eq_refl) as F.
  assert (forallb plain_cu s = true) as Ps
    by (apply forallb_forall; exact P).
  specialize (F Ps). rewrite forallb_forall in F.
  pose proof (trim_forallb plain_cu line (F line Hl)) as T.
  unfold no_pattern_line. cbv zeta.
  rewrite (D line Hl).
  rewrite (@test_first_class re_bold (is_c star))
    by (first [reflexivity | apply plain_not_class; [reflexivity | exact T]]).
  rewrite (@test_first_class re_bold_underscore (is_c underscore))
    by (first [reflexivity | apply plain_not_class; [reflexivity | exact T]]).
  rewrite (@test_first_class re_italic (is_c star))
    by (first [reflexivity | apply plain_not_class; [reflexivity | exact T]]).
  rewrite (@test_first_class re_italic_underscore (is_c underscore))
    by (first [reflexivity | apply plain_not_class; [reflexivity | exact T]]).
  rewrite (@test_first_class re_code (is_c backtick))
    by (first [reflexivity | apply plain_not_class; [reflexivity | exact T]]).
  cbn [negb andb]. rewrite andb_true_r.
  destruct (trim line) as [ | c t]; [reflexivity | ].
  cbn [forallb] in T. apply andb_true_iff in T. destruct T as [T _].
  unfold plain_cu, is_markdown_cu, star in T.
  cbn [startsWith lit List.map list_ascii_of_string].
  change (N_of_ascii "*") with 42%N.
  destruct (c =? 42)%N; [discriminate | reflexivity].
Qed.

Lemma processLine_no_pattern line :
  no_pattern_line line = true -> processLine line = trim line.
Proof.
  unfold no_pattern_line, processLine. intro H.
  repeat (apply andb_true_iff in H; destruct H as [H ?]).
  repeat match goal with
         | X : negb _ = true |- _ => apply negb_true_iff in X
         end.
  rewrite H. 
  match goal with
  | X : startsWith (trim line) (lit "- ") = false |- _ => rewrite X
  end.
  cbn [orb].
  repeat match goal with
         | X : test ?r (trim line) = false
           |- context [replace_all ?r ?f (trim line)] =>
             rewrite (@replace_all_no_test r f (trim line) X)
         end.
  reflexivity.
Qed.

Lemma convert_no_patterns s :
  no_patterns s = true ->
  convertMarkdownToHtml s = join (lit "<br>") (trimmed_lines s).
Proof.
  unfold no_patterns. intro H.
  unfold convertMarkdownToHtml, trimmed_lines.
  destruct s as [ | c s]; [reflexivity | ].
  cbn [is_empty]. f_equal. f_equal.
  apply map_ext_in. intros line Hl.
  apply processLine_no_pattern.
  rewrite forallb_forall in H. apply H, Hl.
Qed.

End MarkdownFacts.

(* ================================================================== *)
(** ** Facts about the response parser *)

Module ParserFacts.
Import Js Markdown Parser MatcherViews ParserViews JsFacts.

Local Open Scope string_scope.
Local Open Scope list_scope.

Lemma dollar_group i m g : group i m = Some g -> dollar i m = g.
Proof. unfold dollar. intros ->. reflexivity. Qed.

Lemma titleOf_normal s :
  titleOf (exec re_title s)
  = Normal (match exec re_title s with
            | Some m => Some (trim (dollar 1 m))
            | None => None
            end).
Proof.
  destruct (exec re_title s) as [m | ] eqn:E; [ | reflexivity].
  simpl. pose proof (@exec_sets_group 1 re_title s m eq_refl E) as G.
  unfold dollar. destruct (group 1 m); [reflexivity | contradiction].
Qed.

Lemma severityOf_normal s :
  severityOf s
  = Normal (match exec re_severity s with
            | Some m => toLowerCase (dollar 1 m)
            | None => lit "medium"
            end).
Proof.
  unfold severityOf.
  destruct (exec re_severity s) as [m | ] eqn:E; [ | reflexivity].
  pose proof (@exec_sets_group 1 re_severity s m eq_refl E) as G.
  unfold dollar. destruct (group 1 m); [reflexivity | contradiction].
Qed.

Lemma categoryOf_normal s :
  categoryOf s
  = Normal (match exec re_category s with
            | Some m =>
                toLowerCase (replace_all re_spaces (fun _ => lit "-") (dollar 1 m))
            | None => lit "general"
            end).
Proof.
  unfold categoryOf.
  destruct (exec re_category s) as [m | ] eqn:E; [ | reflexivity].
  pose proof (@exec_sets_group 1 re_category s m eq_refl E) as G.
  unfold dollar. destruct (group 1 m); [reflexivity | contradiction].
Qed.

(** No iteration of the loop completes abruptly: the block either pushes
    the clause read off it or nothing. *)
Lemma parseBlock_eq block :
  parseBlock block
  = Normal
      (if is_empty (trim block) then None
       else match blockTitle block with
            | Some t =>
                if negb (is_empty t) && negb (is_empty (blockText block))
                then Some (mkClause t (blockText block)
                             (blockSeverity block) (blockCategory block))
                else None
            | None => None
            end).
Proof.
  unfold parseBlock, blockTitle, blockText, blockSeverity, blockCategory.
  destruct (is_empty (trim block)); [reflexivity | ].
  rewrite titleOf_normal, severityOf_normal, categoryOf_normal.
  destruct (exec re_title (trim block)) as [m | ]; [ | reflexivity].
  destruct (negb (is_empty (trim (dollar 1 m))) && _); reflexivity.
Qed.

Lemma parseBlocks_eq blocks :
  forall acc,
    parseBlocks blocks acc = (acc ++ flat_map admitted blocks, Normal tt).
Proof.
  induction blocks as [ | b bs IH]; intro acc; simpl.
  - rewrite app_nil_r. reflexivity.
  - assert (exists o, parseBlock b = Normal o) as [o Ho]
      by (rewrite parseBlock_eq; eexists; reflexivity).
    unfold admitted at 1. rewrite Ho. destruct o as [c | ].
    + rewrite IH, <- app_assoc. reflexivity.
    + rewrite IH. reflexivity.
Qed.

Lemma parseClauses_eq aiResponse :
  parseClauses aiResponse
  = if (1 <? len (pushedClauses aiResponse))%Z
    then sort compareSeverity (pushedClauses aiResponse)
    else pushedClauses aiResponse.
Proof.
  unfold parseClauses, pushedClauses, responseBlocks.
  destruct (exec re_clauses aiResponse) as [m | ]; [ | reflexivity].
  destruct (group 1 m) as [g | ]; [ | reflexivity].
  destruct (is_empty g); [reflexivity | ].
  rewrite parseBlocks_eq. reflexivity.
Qed.

(** The comparator only looks at whether a clause is [high]. *)
Lemma compareSeverity_eq a b :
  compareSeverity a b
  = if is_high a && not_high b then (-1)%Z
    else if not_high a && is_high b then 1%Z else 0%Z.
Proof.
  unfold compareSeverity, not_high, is_high.
  destruct (severity a) as [ | ca sa]; destruct (severity b) as [ | cb sb];
    reflexivity.
Qed.

Lemma insert_sorted_partition x :
  forall hs ns,
    forallb is_high hs = true ->
    forallb not_high ns = true ->
    insert_sorted compareSeverity x (hs ++ ns)
    = if is_high x then x :: hs ++ ns else hs ++ x :: ns.
Proof.
  induction hs as [ | h hs IH]; intros ns Hh Hn.
  - simpl. destruct ns as [ | n ns]; simpl.
    + destruct (is_high x); reflexivity.
    + simpl in Hn. apply andb_true_iff in Hn. destruct Hn as [Hn _].
      rewrite compareSeverity_eq. unfold not_high in *.
      apply negb_true_iff in Hn. rewrite Hn.
      destruct (is_high x); reflexivity.
  - simpl in Hh. apply andb_true_iff in Hh. destruct Hh as [Hh1 Hh2].
    simpl. rewrite compareSeverity_eq. unfold not_high at 1 2.
    rewrite Hh1.
    destruct (is_high x) eqn:Hx; simpl; [reflexivity | ].
    rewrite (IH ns Hh2 Hn). reflexivity.
Qed.

Lemma forallb_filter_self (A : Type) (p : A -> bool) l :
  forallb p (filter p l) = true.
Proof.
  induction l as [ | a l IH]; simpl; [reflexivity | ].
  destruct (p a) eqn:E; simpl; [rewrite E |]; exact IH.
Qed.

(** The sort moves the [high] clauses to the front and keeps the order
    inside either group. *)
Lemma sort_partition l :
  sort compareSeverity l = filter is_high l ++ filter not_high l.
Proof.
  induction l as [ | x l IH]; [reflexivity | ].
  unfold sort in *. simpl. rewrite IH.
  rewrite insert_sorted_partition by apply forallb_filter_self.
  unfold not_high at 3. destruct (is_high x); reflexivity.
Qed.

Lemma partition_short (l : list Clause) :
  (1 <? len l)%Z = false -> l = filter is_high l ++ filter not_high l.
Proof.
  unfold len. intro H. apply Z.ltb_ge in H.
  destruct l as [ | a [ | b l]]; simpl in *; try lia.
  - reflexivity.
  - unfold not_high. destruct (is_high a); reflexivity.
Qed.

Lemma parseClauses_partition aiResponse :
  parseClauses aiResponse
  = filter is_high (pushedClauses aiResponse)
    ++ filter not_high (pushedClauses aiResponse).
Proof.
  rewrite parseClauses_eq.
  destruct (1 <? len (pushedClauses aiResponse))%Z eqn:E.
  - apply sort_partition.
  - apply partition_short, E.
Qed.

Lemma parseClauses_no_marker aiResponse :
  includes_ci aiResponse clauses_marker = false ->
  parseClauses aiResponse = [].
Proof.
  intro H. unfold parseClauses.
  change re_clauses
    with (Seq (chars is_ci clauses_marker) (Group 1 (Star true (Cls any_cu)))).
  rewrite (@exec_literal_absent _ _ _ H). reflexivity.
Qed.

Lemma parseSummary_no_marker aiResponse :
  includes_ci aiResponse summary_marker = false ->
  parseSummary aiResponse = None.
Proof.
  intro H. unfold parseSummary.
  change re_summary
    with (Seq (chars is_ci summary_marker)
            (Seq (Group 1 (Star false (Cls any_cu)))
               (Look true (Alt (lits_i "**2. CONCERNING CLAUSES:")
                               (Eol false))))).
  rewrite (@exec_literal_absent _ _ _ H). reflexivity.
Qed.

(** *** Severity and category *)

Lemma find_label_read label words :
  forall s w,
    find_label label words s = Some w ->
    exists ps s' rest, In ps words /\ take_preds ps s' = Some (w, rest).
Proof.
  assert (forall s' w rest, first_word words s' = Some (w, rest) ->
            exists ps, In ps words /\ take_preds ps s' = Some (w, rest)) as FW.
  { induction words as [ | ps words IH]; intros s' w rest H;
      cbn [first_word] in H; [discriminate | ].
    destruct (take_preds ps s') as [r | ] eqn:T.
    - injection H as ->. exists ps. split; [left; reflexivity | exact T].
    - destruct (IH _ _ _ H) as [ps' [I T']]. exists ps'.
      split; [right; exact I | exact T']. }
  assert (forall s w, label_here label words s = Some w ->
            exists ps s' rest, In ps words /\ take_preds ps s' = Some (w, rest))
    as LH.
  { intros s w H. unfold label_here in H.
    destruct (take_preds (List.map is_ci label) s) as [[m0 rest0] | ];
      [ | discriminate].
    destruct (first_word words (drop_ws rest0)) as [[w' rest] | ] eqn:F;
      [ | discriminate].
    injection H as ->. destruct (FW _ _ _ F) as [ps [I T]].
    exists ps, (drop_ws rest0), rest. auto. }
  induction s as [ | c s IH]; intros w H; cbn [find_label] in H.
  - destruct (label_here label words []) eqn:E; [ | discriminate].
    injection H as ->. eapply LH; eauto.
  - destruct (label_here label words (c :: s)) eqn:E.
    + injection H as ->. eapply LH; eauto.
    + apply IH, H.
Qed.

Lemma ws_head_one (a : string) (c : N) x w :
  lit a = x :: w ->
  is_ascii_letter x = true ->
  is_ws c = true ->
  match one_word a with
  | p :: _ => p c = false
  | [] => False
  end.
Proof.
  intros E L W. unfold one_word. rewrite E. cbn [List.map].
  apply ws_not_ci; assumption.
Qed.

Lemma ws_head_two (a b : string) (c : N) x w :
  lit a = x :: w ->
  is_ascii_letter x = true ->
  is_ws c = true ->
  match two_words a b with
  | p :: _ => p c = false
  | [] => False
  end.
Proof.
  intros E L W. unfold two_words. rewrite E. cbn [List.map app].
  apply ws_not_ci; assumption.
Qed.

Lemma blockSeverity_spec block : blockSeverity block = spec_severity block.
Proof.
  unfold blockSeverity, spec_severity.
  change re_severity
    with (Seq (chars is_ci (lit "Severity:"))
            (Seq (Star true (Cls is_ws))
               (Group 1 (alts [lits_i "High"; lits_i "Medium"; lits_i "Low"])))).
  rewrite <- (@exec_label (lit "Severity:") 1
                [lits_i "High"; lits_i "Medium"; lits_i "Low"] severity_words).
  - destruct (exec _ (trim block)); reflexivity.
  - repeat constructor; apply linear_chars.
  - discriminate.
  - intros c Hc. unfold severity_words.
    repeat (constructor;
            [eapply ws_head_one; [reflexivity | reflexivity | exact Hc] | ]).
    constructor.
Qed.

Lemma linear_two_words a b :
  linear (seqs [lits_i a; Cls is_ws; lits_i b]) = Some (two_words a b).
Proof.
  cbn [seqs linear]. unfold lits_i, two_words. rewrite !linear_chars.
  reflexivity.
Qed.

Lemma category_exec s :
  option_map (dollar 1) (exec re_category s)
  = find_label (lit "Category:") category_words s.
Proof.
  change re_category
    with (Seq (chars is_ci (lit "Category:"))
            (Seq (Star true (Cls is_ws))
               (Group 1
                  (alts [lits_i "Privacy";
                         seqs [lits_i "Data"; Cls is_ws; lits_i "Usage"];
                         seqs [lits_i "Legal"; Cls is_ws; lits_i "Rights"];
                         seqs [lits_i "Service"; Cls is_ws; lits_i "Changes"];
                         seqs [lits_i "User"; Cls is_ws; lits_i "Content"]])))).
  apply exec_label.
  - repeat constructor; first [apply linear_chars | apply linear_two_words].
  - discriminate.
  - intros c Hc. unfold category_words.
    repeat (constructor;
            [first [eapply ws_head_one | eapply ws_head_two];
             [reflexivity | reflexivity | exact Hc] | ]).
    constructor.
Qed.

Lemma two_words_read a b s w rest :
  take_preds (two_words a b) s = Some (w, rest) ->
  exists m1 c m2,
    w = m1 ++ c :: m2
    /\ Forall2 (fun p x => p x = true) (List.map is_ci (lit a)) m1
    /\ is_ws c = true
    /\ Forall2 (fun p x => p x = true) (List.map is_ci (lit b)) m2.
Proof.
  intro H. apply take_preds_split in H. destruct H as [_ F].
  unfold two_words in F.
  apply Forall2_app_inv_l in F. destruct F as [m1 [m23 [F1 [F23 ->]]]].
  apply Forall2_app_inv_l in F23. destruct F23 as [mc [m2 [Fc [F2 ->]]]].
  inversion Fc as [ | p c ps l Hc Fn]; subst. inversion Fn; subst.
  exists m1, c, m2. cbn [app]. auto.
Qed.

Lemma hyphenate_no_ws m :
  forallb (fun c => negb (is_ws c)) m = true -> hyphenate m = m.
Proof.
  induction m as [ | c m IH]; [reflexivity | ].
  cbn [forallb]. intro H. apply andb_true_iff in H. destruct H as [Hc Hm].
  apply negb_true_iff in Hc. unfold hyphenate in *. cbn [List.map].
  rewrite Hc, (IH Hm). reflexivity.
Qed.

(** A two-word category as read: one hyphen for its white space, lower
    case for its letters. *)
Lemma two_words_normal a b s w rest :
  lit a <> [] ->
  forallb is_ascii_letter (lit a) = true ->
  forallb is_ascii_letter (lit b) = true ->
  take_preds (two_words a b) s = Some (w, rest) ->
  replace_all re_spaces (fun _ => lit "-") w = hyphenate w
  /\ toLowerCase (hyphenate w)
     = toLowerCase (lit a) ++ lit "-" ++ toLowerCase (lit b).
Proof.
  intros Na La Lb H. apply two_words_read in H.
  destruct H as [m1 [c [m2 [-> [F1 [Wc F2]]]]]].
  pose proof (@word_no_ws _ La _ F1) as W1.
  pose proof (@word_no_ws _ Lb _ F2) as W2.
  assert (m1 <> []) as N1.
  { intro E. subst. inversion F1 as [E0 | ]. destruct (lit a); simpl in *;
      [congruence | discriminate]. }
  assert (hyphenate (m1 ++ c :: m2) = m1 ++ lit "-" ++ m2) as Hy.
  { unfold hyphenate. rewrite map_app. cbn [List.map]. rewrite Wc.
    fold (hyphenate m1). fold (hyphenate m2).
    rewrite (@hyphenate_no_ws _ W1), (@hyphenate_no_ws _ W2). reflexivity. }
  split.
  - unfold re_spaces. rewrite replace_spaces, Hy.
    rewrite (@collapse_app_no_ws (lit "-") m1 false (c :: m2) N1 W1).
    cbn [collapse].
    rewrite Wc, (@collapse_no_ws (lit "-") true m2 W2). reflexivity.
  - rewrite Hy. unfold toLowerCase. rewrite !map_app.
    fold (toLowerCase m1). fold (toLowerCase m2).
    rewrite (@word_lower _ _ F1), (@word_lower _ _ F2). reflexivity.
Qed.

Lemma one_word_normal a s w rest :
  forallb is_ascii_letter (lit a) = true ->
  take_preds (one_word a) s = Some (w, rest) ->
  replace_all re_spaces (fun _ => lit "-") w = hyphenate w
  /\ toLowerCase (hyphenate w) = toLowerCase (lit a).
Proof.
  intros La H. apply take_preds_split in H. destruct H as [_ F].
  pose proof (@word_no_ws _ La _ F) as W.
  rewrite (@hyphenate_no_ws _ W). split.
  - unfold re_spaces. rewrite replace_spaces. apply collapse_no_ws, W.
  - apply word_lower, F.
Qed.

Lemma category_word_normal ps s w rest :
  In ps category_words ->
  take_preds ps s = Some (w, rest) ->
  replace_all re_spaces (fun _ => lit "-") w = hyphenate w
  /\ In (toLowerCase (hyphenate w)) categories.
Proof.
  intros I T. unfold category_words in I. cbn [In] in I.
  destruct I as [<- | [<- | [<- | [<- | [<- | []]]]]].
  - destruct (@one_word_normal "Privacy" _ _ _ eq_refl T) as [R L].
    split; [exact R | ]. rewrite L. cbn. tauto.
  - destruct (@two_words_normal "Data" "Usage" _ _ _ ltac:(discriminate)
                eq_refl eq_refl T) as [R L].
    split; [exact R | ]. rewrite L. cbn. tauto.
  - destruct (@two_words_normal "Legal" "Rights" _ _ _ ltac:(discriminate)
                eq_refl eq_refl T) as [R L].
    split; [exact R | ]. rewrite L. cbn. tauto.
  - destruct (@two_words_normal "Service" "Changes" _ _ _ ltac:(discriminate)
                eq_refl eq_refl T) as [R L].
    split; [exact R | ]. rewrite L. cbn. tauto.
  - destruct (@two_words_normal "User" "Content" _ _ _ ltac:(discriminate)
                eq_refl eq_refl T) as [R L].
    split; [exact R | ]. rewrite L. cbn. tauto.
Qed.

Lemma blockCategory_spec block : blockCategory block = spec_category block.
Proof.
  unfold blockCategory, spec_category.
  rewrite <- category_exec.
  destruct (exec re_category (trim block)) as [m | ] eqn:E; [ | reflexivity].
  cbn [option_map].
  assert (find_label (lit "Category:") category_words (trim block)
          = Some (dollar 1 m)) as F.
  { rewrite <- category_exec, E. reflexivity. }
  apply find_label_read in F. destruct F as [ps [s' [rest [I T]]]].
  destruct (@category_word_normal _ _ _ _ I T) as [R _]. rewrite R. reflexivity.
Qed.

Lemma spec_severity_valid block : In (spec_severity block) severities.
Proof.
  unfold spec_severity.
  destruct (find_label (lit "Severity:") severity_words (trim block))
    as [w | ] eqn:F; [ | cbn; tauto].
  apply find_label_read in F. destruct F as [ps [s' [rest [I T]]]].
  apply take_preds_split in T. destruct T as [_ T].
  unfold severity_words in I. cbn [In] in I.
  destruct I as [<- | [<- | [<- | []]]];
    rewrite (@word_lower _ _ T); cbn; tauto.
Qed.

Lemma spec_category_valid block : In (spec_category block) categories.
Proof.
  unfold spec_category.
  destruct (find_label (lit "Category:") category_words (trim block))
    as [w | ] eqn:F; [ | cbn; tauto].
  apply find_label_read in F. destruct F as [ps [s' [rest [I T]]]].
  apply (@category_word_normal _ _ _ _ I T).
Qed.

End ParserFacts.

(* ================================================================== *)
(** ** Facts about the extractor *)

Module ExtractorFacts.
Import Js Extractor ExtractorViews.

Local Open Scope Z_scope.

Lemma selectorScan_some doc sels t :
  selectorScan doc sels = Some t -> 500 < len t.
Proof.
  induction sels as [ | sel rest IH]; cbn [selectorScan]; [discriminate | ].
  unfold trySelector.
  destruct (querySelector doc sel) as [e | ]; [ | exact IH].
  destruct (500 <? len _) eqn:E; [ | exact IH].
  intro H. injection H as <-. apply Z.ltb_lt, E.
Qed.

Lemma containerScan_some doc sels t :
  containerScan doc sels = Some t -> 1000 < len t.
Proof.
  induction sels as [ | sel rest IH]; cbn [containerScan]; [discriminate | ].
  unfold tryContainer.
  destruct (querySelector doc sel) as [e | ]; [ | exact IH].
  destruct (1000 <? len _) eqn:E; [ | exact IH].
  intro H. injection H as <-. apply Z.ltb_lt, E.
Qed.

Lemma iframeScan_some likely frames t :
  iframeScan likely frames = Some t -> 1000 < len t.
Proof.
  induction frames as [ | f rest IH]; cbn [iframeScan]; [discriminate | ].
  destruct (frame_of f) as [b | ]; [ | exact IH].
  destruct (1000 <? len _) eqn:E; simpl; [ | exact IH].
  destruct likely; [ | exact IH].
  intro H. injection H as <-. apply Z.ltb_lt, E.
Qed.

Lemma headingParent_some h t :
  headingParent h = Some t -> 1000 < len t.
Proof.
  unfold headingParent. destruct (h_parent h) as [p | ]; [ | discriminate].
  destruct (1000 <? len _) eqn:E; simpl; [ | discriminate].
  destruct (_ && _); [ | discriminate].
  intro H. injection H as <-. apply Z.ltb_lt, E.
Qed.

Lemma headingScan_some hs o t :
  headingScan hs = Some (o, t) -> threshold o < len t.
Proof.
  induction hs as [ | h rest IH]; cbn [headingScan]; [discriminate | ].
  match goal with
  | |- context [existsb ?f headingKeywords] =>
      destruct (existsb f headingKeywords); [ | exact IH]
  end.
  destruct (headingParent h) as [p | ] eqn:P.
  - intro H. injection H as <- <-. apply headingParent_some in P. exact P.
  - destruct (500 <? len _) eqn:E; [ | exact IH].
    intro H. injection H as <- <-. apply Z.ltb_lt, E.
Qed.

Lemma extract_threshold doc o t :
  snd (extract doc) = Some (o, t) -> threshold o < len t.
Proof.
  unfold extract.
  destruct (selectorScan doc possibleSelectors) as [t1 | ] eqn:S1.
  { simpl. intro H. injection H as <- <-. apply selectorScan_some in S1. exact S1. }
  destruct (headingScan (headings doc)) as [[o2 t2] | ] eqn:S2.
  { simpl. intro H. injection H as <- <-. apply headingScan_some in S2. exact S2. }
  destruct (iframeScan (isLikelyTCPage doc) (iframes doc)) as [t3 | ] eqn:S3.
  { simpl. intro H. injection H as <- <-. apply iframeScan_some in S3. exact S3. }
  destruct (isLikelyTCPage doc); [ | discriminate].
  destruct (containerScan doc commonContainers) as [t4 | ] eqn:S4.
  { simpl. intro H. injection H as <- <-. apply containerScan_some in S4. exact S4. }
  simpl. destruct (1500 <? len _) eqn:E; [ | discriminate].
  intro H. injection H as <- <-. apply Z.ltb_lt, E.
Qed.

Lemma threshold_ge_500 o : 500 <= threshold o.
Proof. destruct o; simpl; lia. Qed.



End ExtractorFacts.

(* ================================================================== *)
(** ** The properties of the specification *)

Import Js Markdown Parser Extractor Api.
Import MatcherViews MarkdownViews ParserViews ExtractorViews ApiViews Samples.
Import JsFacts MarkdownFacts ParserFacts ExtractorFacts.

Local Open Scope string_scope.
Local Open Scope list_scope.

Lemma partition_permutation (A : Type) (p : A -> bool) (l : list A) :
  Permutation (filter p l ++ filter (fun x => negb (p x)) l) l.
Proof.
  induction l as [ | a l IH]; simpl; [constructor | ].
  destruct (p a); simpl.
  - constructor. exact IH.
  - symmetry. apply Permutation_cons_app. symmetry. exact IH.
Qed.

Lemma partition_split (A : Type) (p : A -> bool) (l : list A) :
  let r := filter p l ++ filter (fun x => negb (p x)) l in
  let n := List.length (filter p l) in
  forallb p (firstn n r) = true
  /\ forallb (fun x => negb (p x)) (skipn n r) = true.
Proof.
  simpl. rewrite firstn_app, skipn_app, Nat.sub_diag, firstn_all, skipn_all.
  simpl. rewrite app_nil_r. split; apply forallb_filter_self.
Qed.

(** C1, as stated, fails: a response with a summary section and no
    clauses section marker gets an empty clause list, but its summary is
    the parsed section, not the placeholder. *)
Lemma summary_parsed_without_clauses_marker :
  includes_ci summary_only_response clauses_marker = false
  /\ concerningClauses (parseAIResponse summary_only_response) = []
  /\ summary (parseAIResponse summary_only_response) = lit "<p>Hello</p>"
  /\ summary (parseAIResponse summary_only_response) <> default_summary.
Proof.
  repeat split; try (vm_compute; reflexivity).
  vm_compute. discriminate.
Qed.

(** C1, amended.  For every response that does not contain the clauses
    section marker (letters compared without case, as the parser does),
    the returned clause list is empty; the summary is the placeholder when
    the summary section marker is absent too.  The parser is total and
    its loop never completes abruptly, so no exception reaches the
    caller. *)
Theorem no_clauses_marker_gives_empty_clause_list :
  forall aiResponse,
    includes_ci aiResponse clauses_marker = false ->
    concerningClauses (parseAIResponse aiResponse) = []
    /\ (includes_ci aiResponse summary_marker = false ->
        summary (parseAIResponse aiResponse) = default_summary)
    /\ (forall blocks acc, snd (parseBlocks blocks acc) = Normal tt).
Proof.
  intros aiResponse H. unfold parseAIResponse. cbn [concerningClauses summary].
  split; [apply parseClauses_no_marker, H | ]. split.
  - intro Hs. rewrite (parseSummary_no_marker _ Hs). reflexivity.
  - intros blocks acc. rewrite parseBlocks_eq. reflexivity.
Qed.

Lemma no_clauses_marker_gives_empty_clause_list_witness :
  concerningClauses (parseAIResponse unmarked_response) = []
  /\ (includes_ci unmarked_response summary_marker = false ->
      summary (parseAIResponse unmarked_response) = default_summary)
  /\ (forall blocks acc, snd (parseBlocks blocks acc) = Normal tt).
Proof.
  apply (no_clauses_marker_gives_empty_clause_list unmarked_response).
  vm_compute. reflexivity.
Defined.

(** C2. The presentation sort puts the [high] clauses first and keeps
    the parse order inside the [high] clauses and inside the others: the
    clause list the parser returns is the [high] clauses of the list in
    parse order followed by its other clauses, each group in parse order;
    so some prefix of the result holds only [high] clauses and the rest
    holds none. *)
Theorem sort_puts_high_first_and_is_stable :
  forall aiResponse,
    let parsed := pushedClauses aiResponse in
    let result := concerningClauses (parseAIResponse aiResponse) in
    result = filter is_high parsed ++ filter not_high parsed
    /\ result = (if (1 <? len parsed)%Z then sort compareSeverity parsed
                 else parsed)
    /\ exists n,
         forallb is_high (firstn n result) = true
         /\ forallb not_high (skipn n result) = true.
Proof.
  intro aiResponse. cbv zeta. unfold parseAIResponse.
  cbn [concerningClauses].
  split; [apply parseClauses_partition | ].
  split; [apply parseClauses_eq | ].
  rewrite parseClauses_partition.
  exists (List.length (filter is_high (pushedClauses aiResponse))).
  apply (partition_split is_high).
Qed.

(** C3. On the example response of the specification the parser returns
    a two-item unordered list with "Point one" and "Point two" as summary
    and exactly one clause: title "Broad Discretion", severity [high],
    category [legal-rights], text "This clause is vague." without the
    Severity and Category lines. *)
Theorem parse_sample_response :
  parseAIResponse sample_response
  = mkResult
      (lit "<ul><li>Point one</li><li>Point two</li></ul>")
      [mkClause (lit "Broad Discretion") (lit "This clause is vague.")
                (lit "high") (lit "legal-rights")].
Proof. vm_compute. reflexivity. Qed.

Lemma admitted_eq block :
  admitted block
  = match blockTitle block with
    | Some t =>
        if negb (is_empty t) && negb (is_empty (blockText block))
        then [mkClause t (blockText block)
                (blockSeverity block) (blockCategory block)]
        else []
    | None => []
    end.
Proof.
  unfold admitted. rewrite parseBlock_eq.
  destruct (is_empty (trim block)) eqn:E.
  - unfold blockTitle. destruct (trim block); [ | discriminate].
    vm_compute. reflexivity.
  - destruct (blockTitle block) as [t | ]; [ | reflexivity].
    destruct (negb (is_empty t) && _); reflexivity.
Qed.

(** C4. A block of the clauses section contributes an entry exactly when
    its title and its converted explanation text are both non-empty: the
    returned clause list is, up to the order the sort gives it, the
    concatenation over the blocks of what each block contributes, and a
    block contributes the clause made of its title, text, severity and
    category when title and text are non-empty and nothing otherwise; a
    block without a bold title contributes nothing. *)
Theorem block_admitted_iff_title_and_text :
  forall aiResponse,
    Permutation (concerningClauses (parseAIResponse aiResponse))
                (flat_map admitted (responseBlocks aiResponse))
    /\ forall block,
         admitted block
         = match blockTitle block with
           | Some t =>
               if negb (is_empty t) && negb (is_empty (blockText block))
               then [mkClause t (blockText block)
                       (blockSeverity block) (blockCategory block)]
               else []
           | None => []
           end
         /\ (admitted block <> []
             <-> exists t, blockTitle block = Some t
                           /\ t <> [] /\ blockText block <> [])
         /\ (exec re_title (trim block) = None -> admitted block = []).
Proof.
  intro aiResponse. split.
  - unfold parseAIResponse. cbn [concerningClauses].
    rewrite parseClauses_partition. apply partition_permutation.
  - intro block. split; [apply admitted_eq | ]. split.
    + rewrite admitted_eq. split.
      * destruct (blockTitle block) as [t | ]; [ | congruence].
        destruct t as [ | c t]; [simpl; congruence | ].
        destruct (blockText block) as [ | d u]; [simpl; congruence | ].
        intros _. exists (c :: t). repeat split; discriminate.
      * intros [t [-> [Ht Hx]]].
        destruct t as [ | c t]; [congruence | ].
        destruct (blockText block); [congruence | ].
        simpl. discriminate.
    + intro H. rewrite admitted_eq. unfold blockTitle. rewrite H.
      reflexivity.
Qed.

(** C5. The severity of a block is the word of the leftmost
    "Severity:" label (label and word without regard to case, any white
    space between them), in lower case, and [medium] when the block has
    no such label; its category is the word or the two words of the
    leftmost "Category:" label, where one white-space code unit of any
    kind separates two words, hyphenated and in lower case, and [general]
    when the block has no such label.  Both are always one of the listed
    values, so every clause of the result carries a valid severity and a
    valid category. *)
Theorem severity_and_category_always_valid :
  forall aiResponse,
    (forall block,
        blockSeverity block = spec_severity block
        /\ blockCategory block = spec_category block
        /\ In (spec_severity block) severities
        /\ In (spec_category block) categories)
    /\ (forall c,
           In c (concerningClauses (parseAIResponse aiResponse)) ->
           (exists block,
               In block (responseBlocks aiResponse)
               /\ severity c = spec_severity block
               /\ category c = spec_category block)
           /\ In (severity c) severities
           /\ In (category c) categories).
Proof.
  intro aiResponse. split.
  - intro block. split; [apply blockSeverity_spec | ].
    split; [apply blockCategory_spec | ].
    split; [apply spec_severity_valid | apply spec_category_valid].
  - intros c H. unfold parseAIResponse in H. cbn [concerningClauses] in H.
    rewrite parseClauses_partition in H.
    assert (In c (pushedClauses aiResponse)) as P.
    { apply in_app_or in H. destruct H as [H | H];
        apply filter_In in H; apply H. }
    unfold pushedClauses in P. apply in_flat_map in P.
    destruct P as [block [Hb Hc]]. rewrite admitted_eq in Hc.
    destruct (blockTitle block) as [t | ]; [ | contradiction].
    destruct (negb (is_empty t) && negb (is_empty (blockText block)));
      [ | contradiction].
    destruct Hc as [<- | []]. cbn [severity category].
    rewrite blockSeverity_spec, blockCategory_spec.
    split; [exists block; auto | ].
    split; [apply spec_severity_valid | apply spec_category_valid].
Qed.

Lemma severity_and_category_always_valid_witness :
  In (lit "high") severities /\ In (lit "legal-rights") categories.
Proof.
  pose (c := mkClause (lit "Broad Discretion") (lit "This clause is vague.")
               (lit "high") (lit "legal-rights")).
  assert (In c (concerningClauses (parseAIResponse sample_response))) as H
    by (vm_compute; left; reflexivity).
  exact (proj2 (proj2 (severity_and_category_always_valid sample_response)
                  c H)).
Defined.

Lemma prop_member key v w :
  prop key (Some v) = Some w <-> member key v w.
Proof.
  split.
  - destruct v; cbn [prop]; try discriminate. intro H. constructor. exact H.
  - intros [fields x H]. exact H.
Qed.

Lemma index0_first_item v w :
  (exists key u, member key w u) ->
  index0 (Some v) = Some w <-> first_item v w.
Proof.
  intros [key [u M]]. split.
  - destruct v as [ | b | q | s | l | l]; cbn [index0]; try discriminate.
    + destruct s; [discriminate | ]. intro H. injection H as <-.
      inversion M.
    + destruct l; [discriminate | ]. intro H. injection H as <-. constructor.
    + intro H. constructor. exact H.
  - intros [x rest | fields x H]; [reflexivity | exact H].
Qed.

(** The optional chain of the source reads the value at the position of
    the specification. *)
Lemma replyText_text_at data t :
  replyText data = Some t <-> text_at data t.
Proof.
  unfold replyText, text_at. split.
  - intro H.
    destruct (index0 (prop "parts" (prop "content"
                (index0 (prop "candidates" (Some data))))))
      as [part | ] eqn:E5; [ | discriminate].
    destruct (prop "parts" (prop "content"
                (index0 (prop "candidates" (Some data)))))
      as [parts | ] eqn:E4; [ | discriminate].
    destruct (prop "content" (index0 (prop "candidates" (Some data))))
      as [content | ] eqn:E3; [ | discriminate].
    destruct (index0 (prop "candidates" (Some data)))
      as [candidate | ] eqn:E2; [ | discriminate].
    destruct (prop "candidates" (Some data))
      as [candidates | ] eqn:E1; [ | discriminate].
    apply prop_member in H, E4, E3, E1.
    apply index0_first_item in E5; [ | eauto].
    apply index0_first_item in E2; [ | eauto].
    exists candidates, candidate, content, parts, part. tauto.
  - intros [candidates [candidate [content [parts [part
             [M1 [F2 [M3 [M4 [F5 M6]]]]]]]]]].
    apply index0_first_item in F5; [ | eauto].
    apply index0_first_item in F2; [ | eauto].
    apply prop_member in M1, M3, M4, M6.
    rewrite M1, F2, M3, M4, F5. exact M6.
Qed.

(** C9. The reply is a success exactly when a non-empty string sits at
    [candidates[0].content.parts[0].text], and the result is then the
    parse of that string; when the field is absent or empty the call
    fails with the unexpected-format error, and in every other case it
    fails as well.  A reply of the conventional shape holds its text at
    that position: it succeeds when the text is not empty and fails with
    the unexpected-format error when it is. *)
Theorem reply_succeeds_iff_text_present :
  (forall data r,
      processReply data = Resolved r
      <-> exists t, text_at data (JStr t) /\ t <> []
                    /\ r = parseAIResponse t)
  /\ (forall data,
         ((forall v, ~ text_at data v) \/ text_at data (JStr [])
          \/ text_at data JNull)
         -> processReply data = Rejected UnexpectedFormat)
  /\ (forall data,
         (forall t, text_at data (JStr t) -> t = [])
         -> exists e, processReply data = Rejected e)
  /\ (forall t, text_at (reply_of t) t)
  /\ (forall t,
         processReply (reply_of (JStr t))
         = if is_empty t then Rejected UnexpectedFormat
           else Resolved (parseAIResponse t))
  /\ processReply (JObj []) = Rejected UnexpectedFormat.
Proof.
  assert (forall data,
             (forall r,
                 processReply data = Resolved r
                 <-> exists t, replyText data = Some (JStr t) /\ t <> []
                               /\ r = parseAIResponse t)
             /\ ((replyText data = None \/ replyText data = Some (JStr [])
                  \/ replyText data = Some JNull)
                 -> processReply data = Rejected UnexpectedFormat)
             /\ ((forall t, replyText data = Some (JStr t) -> t = [])
                 -> exists e, processReply data = Rejected e)) as G.
  { intro data. unfold processReply.
    destruct (replyText data) as [v | ]; cbn [truthy negb].
    2:{ split; [ | split].
        - intro r. split; [discriminate | intros [t [E _]]; discriminate].
        - reflexivity.
        - intros _. eexists. reflexivity. }
    destruct v as [ | b | q | s | l | l]; cbn [truthy].
    - split; [ | split].
      + intro r. split; [discriminate | intros [t [E _]]; discriminate].
      + reflexivity.
      + intros _. eexists. reflexivity.
    - split; [ | split].
      + intro r.
        split; [destruct b; discriminate | intros [t [E _]]; discriminate].
      + intros [E | [E | E]]; discriminate.
      + intros _. destruct b; eexists; reflexivity.
    - split; [ | split].
      + intro r. split; [ | intros [t [E _]]; discriminate].
        destruct (negb (negb (Qnum q =? 0)%Z)); discriminate.
      + intros [E | [E | E]]; discriminate.
      + intros _.
        destruct (negb (negb (Qnum q =? 0)%Z)); eexists; reflexivity.
    - destruct s as [ | c s]; simpl; (split; [ | split]).
      + intro r. split; [discriminate | ].
        intros [t [E [N _]]]. injection E as <-. congruence.
      + reflexivity.
      + intros _. eexists. reflexivity.
      + intro r. split.
        * intro H. injection H as <-. exists (c :: s).
          repeat split. discriminate.
        * intros [t [E [_ ->]]]. injection E as <-. reflexivity.
      + intros [E | [E | E]]; discriminate.
      + intro H. specialize (H (c :: s) eq_refl). discriminate.
    - split; [ | split].
      + intro r. split; [discriminate | intros [t [E _]]; discriminate].
      + intros [E | [E | E]]; discriminate.
      + intros _. eexists. reflexivity.
    - split; [ | split].
      + intro r. split; [discriminate | intros [t [E _]]; discriminate].
      + intros [E | [E | E]]; discriminate.
      + intros _. eexists. reflexivity. }
  split; [ | split; [ | split; [ | split; [ | split]]]].
  - intros data r. rewrite (proj1 (G data) r).
    split; intros [t [E R]]; exists t; (split; [ | exact R]);
      apply replyText_text_at, E.
  - intros data H. apply (proj1 (proj2 (G data))).
    destruct H as [H | [H | H]].
    + left. destruct (replyText data) as [v | ] eqn:E; [ | reflexivity].
      exfalso. apply (H v), replyText_text_at, E.
    + right. left. apply replyText_text_at, H.
    + right. right. apply replyText_text_at, H.
  - intros data H. apply (proj2 (proj2 (G data))).
    intros t E. apply H, replyText_text_at, E.
  - intro t. apply replyText_text_at. reflexivity.
  - intro t. unfold processReply.
    change (replyText (reply_of (JStr t))) with (Some (JStr t)).
    cbn [truthy]. destruct t; reflexivity.
  - reflexivity.
Qed.

(** C10. Whenever the extractor returns a string, the string is longer
    than 500 code units: it is longer than the length its [return]
    statement checked, which is 500 for a selector or a sibling walk,
    1000 for a heading parent, a frame or a container and 1500 for the
    body. *)
Theorem extracted_text_longer_than_500 :
  forall doc t,
    extractTermsAndConditions doc = Some t ->
    (500 < len t)%Z
    /\ exists o, snd (extract doc) = Some (o, t) /\ (threshold o < len t)%Z.
Proof.
  intros doc t H. unfold extractTermsAndConditions in H.
  destruct (snd (extract doc)) as [[o t'] | ] eqn:E; [ | discriminate].
  simpl in H. injection H as ->.
  pose proof (extract_threshold doc E) as T.
  pose proof (threshold_ge_500 o).
  split; [lia | ]. exists o. split; [reflexivity | exact T].
Qed.

Lemma extracted_text_longer_than_500_witness :
  extractTermsAndConditions one_terms_page = Some text600
  /\ (500 < len text600)%Z.
Proof.
  assert (extractTermsAndConditions one_terms_page = Some text600) as E
    by (vm_compute; reflexivity).
  split; [exact E | ].
  exact (proj1 (extracted_text_longer_than_500 one_terms_page E)).
Defined.




(** In a page without a doctype class names are compared without regard
    to case: the short element of class [TERMS] is the first match of
    [.terms] and nothing is returned, while the same page with a doctype
    returns the 600 characters. *)
Example quirks_page_reads_upper_case_class :
  querySelector quirks_terms_page (ByClass "terms") = Some upper_terms
  /\ extractTermsAndConditions quirks_terms_page = None
  /\ querySelector (page [upper_terms; long_terms]) (ByClass "terms")
     = Some long_terms
  /\ extractTermsAndConditions (page [upper_terms; long_terms])
     = Some text600.
Proof. repeat split; vm_compute; reflexivity. Qed.

Lemma str_eqb_eq (a b : str) : str_eqb a b = true -> a = b.
Proof.
  unfold str_eqb. destruct (list_eq_dec N.eq_dec a b); [auto | discriminate].
Qed.

Lemma trimmed_lines_id (lines : list str) :
  forallb (fun l => negb (is_empty l) && str_eqb (trim l) l) lines = true ->
  filter (fun l => negb (is_empty l)) (List.map trim lines) = lines.
Proof.
  induction lines as [ | l lines IH]; cbn [forallb List.map filter];
    [reflexivity | ].
  intro H. apply andb_true_iff in H. destruct H as [Hl H].
  apply andb_true_iff in Hl. destruct Hl as [Hn Ht].
  apply str_eqb_eq in Ht. rewrite Ht, Hn, (IH H). reflexivity.
Qed.

(** C7, as stated, fails: a text of two lines with a blank line between
    them has no markdown syntax, yet the blank line is dropped instead of
    becoming a second line-break marker. *)
Lemma blank_line_not_substituted :
  no_markdown blank_line_text = true
  /\ no_patterns blank_line_text = true
  /\ convertMarkdownToHtml blank_line_text = lit "a<br>b"
  /\ br_substitute blank_line_text = lit "a<br><br>b"
  /\ convertMarkdownToHtml blank_line_text <> br_substitute blank_line_text.
Proof.
  repeat split; try (vm_compute; reflexivity).
  vm_compute. discriminate.
Qed.

(** C7, amended.  For every text without markdown syntax (no line that,
    once trimmed, begins with a list marker or holds a match of the bold,
    italic or code patterns; a star, an underscore or a backtick that
    forms no pattern is allowed) the renderer returns the lines of the
    text, each trimmed, without the lines that are then empty, joined by
    the line-break marker; when no line is empty or has white space at
    either end, this is the text with every line feed replaced by the
    marker and no other change. *)
Theorem plain_text_lines_trimmed_and_joined :
  forall text,
    no_patterns text = true ->
    convertMarkdownToHtml text = join (lit "<br>") (trimmed_lines text)
    /\ (forallb (fun l => negb (is_empty l) && str_eqb (trim l) l)
                (split_lines text) = true ->
        convertMarkdownToHtml text = br_substitute text).
Proof.
  intros text H. split; [apply convert_no_patterns, H | ].
  intro T. rewrite (convert_no_patterns _ H). unfold trimmed_lines.
  rewrite (trimmed_lines_id _ T). unfold split_lines.
  rewrite join_split_on. reflexivity.
Qed.

Lemma plain_text_lines_trimmed_and_joined_witness :
  convertMarkdownToHtml symbols_text
  = join (lit "<br>") (trimmed_lines symbols_text)
  /\ convertMarkdownToHtml symbols_text = br_substitute symbols_text.
Proof.
  assert (no_patterns symbols_text = true) as H by (vm_compute; reflexivity).
  destruct (plain_text_lines_trimmed_and_joined symbols_text H) as [A B].
  split; [exact A | ]. apply B. vm_compute. reflexivity.
Defined.




(* ================================================================== *)
(** ** Further properties of the code *)

Import Presenter Options.

Lemma result_clause_from_block aiResponse c :
  In c (concerningClauses (parseAIResponse aiResponse)) ->
  exists block,
    In block (responseBlocks aiResponse) /\ admitted block = [c].
Proof.
  intro H. unfold parseAIResponse in H. cbn [concerningClauses] in H.
  rewrite parseClauses_partition in H.
  assert (In c (pushedClauses aiResponse)) as P.
  { apply in_app_or in H. destruct H as [H | H];
      apply filter_In in H; apply H. }
  unfold pushedClauses in P. apply in_flat_map in P.
  destruct P as [block [Hb Hc]]. exists block. split; [exact Hb | ].
  rewrite admitted_eq in *.
  destruct (blockTitle block) as [t | ]; [ | contradiction].
  destruct (negb (is_empty t) && negb (is_empty (blockText block)));
    [ | contradiction].
  destruct Hc as [<- | []]. reflexivity.
Qed.

(** X1. Every clause the parser returns has a title and a text that are
    not empty, and its title has no white space at either end. *)
Theorem returned_clauses_have_title_and_text :
  forall aiResponse c,
    In c (concerningClauses (parseAIResponse aiResponse)) ->
    title c <> [] /\ text c <> []
    /\ starts_nonws (title c) = true
    /\ starts_nonws (rev (title c)) = true.
Proof.
  intros aiResponse c H.
  destruct (result_clause_from_block _ _ H) as [block [_ A]].
  rewrite admitted_eq in A. unfold blockTitle in A.
  destruct (exec re_title (trim block)) as [m | ]; [ | discriminate].
  destruct (trim (dollar 1 m)) as [ | x t] eqn:T; [discriminate | ].
  destruct (blockText block) as [ | y u] eqn:B; [discriminate | ].
  cbn [is_empty negb andb] in A. injection A as <-. cbn [title text].
  rewrite <- T. repeat split; try discriminate.
  - rewrite T. discriminate.
  - apply trim_starts.
  - apply trim_ends.
Qed.

Lemma returned_clauses_have_title_and_text_witness :
  lit "Broad Discretion" <> [] /\ lit "This clause is vague." <> []
  /\ starts_nonws (lit "Broad Discretion") = true
  /\ starts_nonws (rev (lit "Broad Discretion")) = true.
Proof.
  pose (c := mkClause (lit "Broad Discretion") (lit "This clause is vague.")
               (lit "high") (lit "legal-rights")).
  assert (In c (concerningClauses (parseAIResponse sample_response))) as H
    by (vm_compute; left; reflexivity).
  exact (returned_clauses_have_title_and_text sample_response c H).
Defined.

(** *** A clauses section without bold text *)

Lemma split_loop_forallb (p : N -> bool) r :
  forall aft skip cur bef,
    forallb p cur = true -> forallb p aft = true ->
    forallb (forallb p) (split_loop r skip cur bef aft) = true.
Proof.
  induction aft as [ | c aft IH]; intros skip cur bef Hc Ha;
    cbn [split_loop].
  - cbn [forallb]. rewrite forallb_rev, Hc. reflexivity.
  - cbn [forallb] in Ha. apply andb_true_iff in Ha. destruct Ha as [Hp Ha].
    assert (forallb p (c :: cur) = true) as Hcc
      by (cbn [forallb]; rewrite Hp, Hc; reflexivity).
    assert (forallb p [c] = true) as H1
      by (cbn [forallb]; rewrite Hp; reflexivity).
    destruct skip as [ | n]; [ | apply IH; assumption].
    destruct (match_at r bef (c :: aft)) as [st | ]; [ | apply IH; assumption].
    destruct (List.length (c :: aft) - List.length (after st))%nat.
    + destruct (is_empty cur); [apply IH; assumption | ].
      cbn [forallb]. rewrite forallb_rev, Hc. apply IH; assumption.
    + cbn [forallb]. rewrite forallb_rev, Hc. apply IH; [reflexivity | assumption].
Qed.

Lemma split_forallb (p : N -> bool) r s :
  forallb p s = true -> forallb (forallb p) (split r s) = true.
Proof.
  intro H. unfold split. destruct s as [ | c s].
  - destruct (match_at r [] []); reflexivity.
  - apply split_loop_forallb; [reflexivity | exact H].
Qed.

Lemma extends_suffix st st' :
  extends st st' -> exists m, after st = m ++ after st'.
Proof. intros [[m [_ A]] _]. exists m. exact A. Qed.

(** The title pattern needs two stars. *)
Lemma exec_title_no_star s :
  forallb no_star s = true -> exec re_title s = None.
Proof.
  intro H. apply search_from_none. intros pre aft' ->.
  apply forallb_suffix in H.
  destruct (match_at re_title (rev pre ++ []) aft') as [res | ] eqn:M;
    [ | reflexivity].
  exfalso. unfold match_at in M.
  change re_title
    with (Seq (Bol false)
            (Seq (opt (Cls is_bullet))
               (Seq (Star true (Cls is_ws))
                  (Seq (lits "**")
                     (Seq (Group 1 (Star false (Cls is_dot))) (lits "**"))))))
    in M.
  rewrite rmatch_seq in M. apply rmatch_sound in M.
  destruct M as [st1 [E1 M]].
  rewrite rmatch_seq in M. apply rmatch_sound in M.
  destruct M as [st2 [E2 M]].
  rewrite rmatch_seq in M. apply rmatch_sound in M.
  destruct M as [st3 [E3 M]].
  pose proof (extends_trans E1 (extends_trans E2 E3)) as E.
  apply extends_suffix in E. destruct E as [m E]. cbn [after] in E.
  rewrite rmatch_seq in M. destruct st3 as [b3 a3 c3].
  rewrite (@rmatch_linear _ (List.map is_c (lit "**"))) in M
    by apply linear_chars.
  cbn [after] in E. subst aft'. apply forallb_suffix in H.
  destruct a3 as [ | x a3]; [discriminate | ].
  cbn [forallb] in H. apply andb_true_iff in H. destruct H as [Hx _].
  unfold no_star in Hx. apply negb_true_iff in Hx.
  cbn [lit List.map list_ascii_of_string take_preds] in M.
  unfold is_c at 1 in M. change (N_of_ascii "*") with 42%N in M.
  rewrite Hx in M. discriminate.
Qed.

Lemma admitted_no_star block :
  forallb no_star block = true -> admitted block = [].
Proof.
  intro H. rewrite admitted_eq. unfold blockTitle.
  rewrite exec_title_no_star; [reflexivity | ].
  apply trim_forallb, H.
Qed.

(** X2. When the text after the clauses section marker holds no star (so
    no bold title), the clause list is empty: a section that only says
    that there are no concerning clauses gives no clause. *)
Theorem section_without_bold_gives_no_clause :
  forall aiResponse g,
    clausesSection aiResponse = Some g ->
    forallb no_star g = true ->
    concerningClauses (parseAIResponse aiResponse) = [].
Proof.
  intros aiResponse g S H. unfold parseAIResponse. cbn [concerningClauses].
  rewrite parseClauses_partition.
  assert (pushedClauses aiResponse = []) as P.
  { unfold pushedClauses, responseBlocks. unfold clausesSection in S.
    destruct (exec re_clauses aiResponse) as [m | ]; [ | discriminate].
    rewrite S. destruct (is_empty g); [reflexivity | ].
    unfold validBlocks.
    pose proof (split_forallb no_star re_block_start _
                  (trim_forallb no_star _ H)) as F.
    induction (split re_block_start (trim g)) as [ | b bs IH];
      [reflexivity | ].
    cbn [forallb] in F. apply andb_true_iff in F. destruct F as [Fb Fbs].
    cbn [filter]. destruct (negb (is_empty (trim b))); [ | exact (IH Fbs)].
    cbn [flat_map]. rewrite (admitted_no_star _ Fb). exact (IH Fbs). }
  rewrite P. reflexivity.
Qed.

Lemma section_without_bold_gives_no_clause_witness :
  concerningClauses (parseAIResponse no_clauses_response) = [].
Proof.
  apply (@section_without_bold_gives_no_clause no_clauses_response
           ([10%N] ++ lit "No concerning clauses found."));
    vm_compute; reflexivity.
Defined.



Lemma filter_all (A : Type) (p : A -> bool) l :
  forallb p l = true -> filter p l = l.
Proof.
  induction l as [ | a l IH]; cbn [forallb filter]; [reflexivity | ].
  intro H. apply andb_true_iff in H. destruct H as [Ha Hl].
  rewrite Ha, (IH Hl). reflexivity.
Qed.

Lemma filter_none (A : Type) (p : A -> bool) l :
  forallb (fun x => negb (p x)) l = true -> filter p l = [].
Proof.
  induction l as [ | a l IH]; cbn [forallb filter]; [reflexivity | ].
  intro H. apply andb_true_iff in H. destruct H as [Ha Hl].
  apply negb_true_iff in Ha. rewrite Ha. exact (IH Hl).
Qed.

(** X4. The presentation sort only reorders: its result holds every
    clause of its argument exactly as often, and sorting a sorted list
    again changes nothing. *)
Theorem sort_reorders_and_is_idempotent :
  forall l : list Clause,
    Permutation (sort compareSeverity l) l
    /\ List.length (sort compareSeverity l) = List.length l
    /\ sort compareSeverity (sort compareSeverity l) = sort compareSeverity l.
Proof.
  intro l.
  assert (Permutation (sort compareSeverity l) l) as P.
  { rewrite sort_partition. apply (partition_permutation is_high). }
  split; [exact P | ]. split; [apply Permutation_length, P | ].
  rewrite !sort_partition. rewrite !filter_app.
  rewrite (filter_all is_high (filter is_high l))
    by apply forallb_filter_self.
  rewrite (filter_none is_high (filter not_high l))
    by apply (forallb_filter_self not_high).
  rewrite (filter_all not_high (filter not_high l))
    by apply forallb_filter_self.
  assert (filter not_high (filter is_high l) = []) as E.
  { apply (filter_none not_high). unfold not_high.
    rewrite forallb_forall. intros x Hx. apply filter_In in Hx.
    destruct Hx as [_ Hx]. rewrite Hx. reflexivity. }
  rewrite E, app_nil_r. reflexivity.
Qed.

(** *** The extractor *)

Lemma headingScan_origin hs o t :
  headingScan hs = Some (o, t) -> o = FromHeadingParent \/ o = FromSiblings.
Proof.
  induction hs as [ | h rest IH]; cbn [headingScan]; [discriminate | ].
  match goal with
  | |- context [existsb ?f headingKeywords] =>
      destruct (existsb f headingKeywords); [ | exact IH]
  end.
  destruct (headingParent h) as [p | ].
  - intro H. injection H as <- _. left. reflexivity.
  - destruct (500 <? len _)%Z; [ | exact IH].
    intro H. injection H as <- _. right. reflexivity.
Qed.

Lemma iframeScan_unlikely frames : iframeScan false frames = None.
Proof.
  induction frames as [ | f rest IH]; cbn [iframeScan]; [reflexivity | ].
  destruct (frame_of f) as [b | ]; [ | exact IH].
  rewrite andb_false_r. exact IH.
Qed.

(** X5. On a page whose title and address hold none of the legal
    keywords, a result can only come from a known selector or from a
    heading: frames are never accepted and the container and body
    fallbacks are not entered. *)
Theorem unlikely_page_uses_selectors_and_headings_only :
  forall doc,
    isLikelyTCPage doc = false ->
    match snd (extract doc) with
    | Some (o, _) =>
        o = FromSelector \/ o = FromHeadingParent \/ o = FromSiblings
    | None => True
    end
    /\ ~ In ContainerScan (fst (extract doc))
    /\ ~ In BodyFallback (fst (extract doc)).
Proof.
  intros doc L. unfold extract. rewrite L, iframeScan_unlikely.
  destruct (selectorScan doc possibleSelectors) as [t1 | ].
  { cbn. intuition discriminate. }
  destruct (headingScan (headings doc)) as [[o2 t2] | ] eqn:S2.
  { cbn. apply headingScan_origin in S2. intuition discriminate. }
  cbn. intuition discriminate.
Qed.

Lemma unlikely_page_uses_selectors_and_headings_only_witness :
  match snd (extract one_terms_page) with
  | Some (o, _) =>
      o = FromSelector \/ o = FromHeadingParent \/ o = FromSiblings
  | None => True
  end
  /\ ~ In ContainerScan (fst (extract one_terms_page))
  /\ ~ In BodyFallback (fst (extract one_terms_page)).
Proof.
  apply (unlikely_page_uses_selectors_and_headings_only one_terms_page).
  vm_compute. reflexivity.
Defined.

Lemma trim_trimmed s : trimmed (trim s).
Proof. split; [apply trim_starts | apply trim_ends]. Qed.

Lemma getText_trimmed n : trimmed (getTextContentWithoutScriptsStyles n).
Proof.
  destruct n as [n | ]; [apply trim_trimmed | split; reflexivity].
Qed.

Lemma selectorScan_trimmed doc sels t :
  selectorScan doc sels = Some t -> trimmed t.
Proof.
  induction sels as [ | sel rest IH]; cbn [selectorScan]; [discriminate | ].
  unfold trySelector.
  destruct (querySelector doc sel) as [e | ]; [ | exact IH].
  destruct (500 <? len _)%Z; [ | exact IH].
  intro H. injection H as <-. apply (getText_trimmed (Some e)).
Qed.

Lemma containerScan_trimmed doc sels t :
  containerScan doc sels = Some t -> trimmed t.
Proof.
  induction sels as [ | sel rest IH]; cbn [containerScan]; [discriminate | ].
  unfold tryContainer.
  destruct (querySelector doc sel) as [e | ]; [ | exact IH].
  destruct (1000 <? len _)%Z; [ | exact IH].
  intro H. injection H as <-. apply (getText_trimmed (Some e)).
Qed.

Lemma iframeScan_trimmed likely frames t :
  iframeScan likely frames = Some t -> trimmed t.
Proof.
  induction frames as [ | f rest IH]; cbn [iframeScan]; [discriminate | ].
  destruct (frame_of f) as [b | ]; [ | exact IH].
  destruct ((1000 <? len _)%Z && likely); [ | exact IH].
  intro H. injection H as <-. apply trim_trimmed.
Qed.

Lemma headingScan_trimmed hs o t :
  headingScan hs = Some (o, t) -> trimmed t.
Proof.
  induction hs as [ | h rest IH]; cbn [headingScan]; [discriminate | ].
  match goal with
  | |- context [existsb ?f headingKeywords] =>
      destruct (existsb f headingKeywords); [ | exact IH]
  end.
  destruct (headingParent h) as [p | ] eqn:P.
  - intro H. injection H as _ <-. unfold headingParent in P.
    destruct (h_parent h) as [q | ]; [ | discriminate].
    destruct (_ && _); [ | discriminate].
    injection P as <-. apply (getText_trimmed (Some q)).
  - destruct (500 <? len _)%Z; [ | exact IH].
    intro H. injection H as _ <-. apply trim_trimmed.
Qed.

(** X6. Whatever strategy it comes from, the text the extractor returns
    has no white space at its start and none at its end. *)
Theorem extracted_text_is_trimmed :
  forall doc t,
    extractTermsAndConditions doc = Some t ->
    starts_nonws t = true /\ starts_nonws (rev t) = true.
Proof.
  intros doc t. unfold extractTermsAndConditions, extract.
  destruct (selectorScan doc possibleSelectors) as [t1 | ] eqn:S1.
  { cbn. intro H. injection H as <-. eapply selectorScan_trimmed; eauto. }
  destruct (headingScan (headings doc)) as [[o2 t2] | ] eqn:S2.
  { cbn. intro H. injection H as <-. eapply headingScan_trimmed; eauto. }
  destruct (iframeScan (isLikelyTCPage doc) (iframes doc)) as [t3 | ] eqn:S3.
  { cbn. intro H. injection H as <-. eapply iframeScan_trimmed; eauto. }
  destruct (isLikelyTCPage doc); [ | discriminate].
  destruct (containerScan doc commonContainers) as [t4 | ] eqn:S4.
  { cbn. intro H. injection H as <-. eapply containerScan_trimmed; eauto. }
  cbn [snd option_map]. destruct (1500 <? len _)%Z; [ | discriminate].
  cbn [option_map snd]. intro H. injection H as <-.
  apply (getText_trimmed (body doc)).
Qed.

Lemma extracted_text_is_trimmed_witness :
  starts_nonws text600 = true /\ starts_nonws (rev text600) = true.
Proof.
  apply (@extracted_text_is_trimmed one_terms_page text600).
  vm_compute. reflexivity.
Defined.

(** X7. On a page judged likely to hold terms whose cleaned body text is
    longer than 1500, the extractor always returns some text: if every
    earlier strategy fails, the body fallback succeeds. *)
Theorem likely_page_with_long_body_yields_text :
  forall doc,
    isLikelyTCPage doc = true ->
    (1500 < len (getTextContentWithoutScriptsStyles (body doc)))%Z ->
    exists t, extractTermsAndConditions doc = Some t.
Proof.
  intros doc L B. unfold extractTermsAndConditions, extract. rewrite L.
  destruct (selectorScan doc possibleSelectors) as [t1 | ];
    [eexists; reflexivity | ].
  destruct (headingScan (headings doc)) as [[o2 t2] | ];
    [eexists; reflexivity | ].
  destruct (iframeScan true (iframes doc)) as [t3 | ];
    [eexists; reflexivity | ].
  destruct (containerScan doc commonContainers) as [t4 | ];
    [eexists; reflexivity | ].
  apply Z.ltb_lt in B. cbn [snd]. rewrite B. eexists. reflexivity.
Qed.

Lemma likely_page_with_long_body_yields_text_witness :
  exists t, extractTermsAndConditions policy_page = Some t.
Proof.
  apply (likely_page_with_long_body_yields_text policy_page);
    vm_compute; reflexivity.
Defined.


(** X9. The sibling walk after a heading stops at the next heading:
    nothing that follows it is collected. *)
Theorem sibling_walk_stops_at_next_heading :
  forall pre h post content collected,
    test re_heading_tag (tagName h) = true ->
    collectSiblings (pre ++ h :: post) content collected
    = collectSiblings pre content collected.
Proof.
  induction pre as [ | e pre IH]; intros h post content collected H.
  - cbn [app collectSiblings]. rewrite H. reflexivity.
  - cbn [app collectSiblings].
    destruct (negb (test re_heading_tag (tagName e))
              && (collected <? 100000)%Z); [ | reflexivity].
    destruct (negb (str_eqb (tagName e) (lit "SCRIPT"))
              && negb (str_eqb (tagName e) (lit "STYLE")));
      apply IH, H.
Qed.

Lemma sibling_walk_stops_at_next_heading_witness :
  collectSiblings ([long_terms] ++ some_heading :: [long_terms]) [] 0%Z
  = collectSiblings [long_terms] [] 0%Z.
Proof.
  apply (sibling_walk_stops_at_next_heading [long_terms] some_heading).
  vm_compute. reflexivity.
Defined.

(** Induction on the document tree. *)
Lemma node_induction (P : node -> Prop) :
  (forall d, P (Text d)) ->
  (forall t i c f ks, Forall P ks -> P (Element t i c f ks)) ->
  forall n, P n.
Proof.
  intros HT HE. fix IH 1. intros [d | t i c f ks]; [apply HT | apply HE].
  induction ks as [ | k ks IHks]; constructor; [apply IH | exact IHks].
Qed.

Lemma remove_keeps_kind n :
  is_script_or_style (remove_scripts_styles n) = is_script_or_style n
  /\ is_element (remove_scripts_styles n) = is_element n.
Proof. destruct n; split; reflexivity. Qed.

Lemma elements_head n :
  elements n = if is_element n then n :: descendants n else [].
Proof. destruct n; reflexivity. Qed.

(** X10. After the removal step of getTextContentWithoutScriptsStyles no
    script or style element is left below the node, so their content
    never reaches the text; and the step changes nothing when applied a
    second time. *)
Theorem removal_leaves_no_script_or_style :
  forall n,
    forallb (fun e => negb (is_script_or_style e))
            (descendants (remove_scripts_styles n)) = true
    /\ remove_scripts_styles (remove_scripts_styles n)
       = remove_scripts_styles n.
Proof.
  induction n as [d | t i c f ks IH] using node_induction;
    [split; reflexivity | ].
  cbn [remove_scripts_styles]. unfold descendants. cbn [children_of].
  induction IH as [ | k ks [Hk1 Hk2] _ [IH1 IH2]]; [split; reflexivity | ].
  cbn [flat_map]. destruct (is_script_or_style k) eqn:K.
  - cbn [app]. split; [exact IH1 | exact IH2].
  - cbn [app flat_map]. rewrite forallb_app, IH1, andb_true_r.
    split.
    + rewrite elements_head.
      destruct (is_element (remove_scripts_styles k)); [ | reflexivity].
      cbn [forallb]. rewrite (proj1 (remove_keeps_kind k)), K.
      exact Hk1.
    + cbn [remove_scripts_styles flat_map].
      rewrite (proj1 (remove_keeps_kind k)), K. cbn [app].
      rewrite Hk2. injection IH2 as IH2. rewrite IH2. reflexivity.
Qed.

(** X11. On a text without tags (no less-than sign, ampersand, carriage
    return or NUL) getPlainText only squeezes runs of three or more line
    feeds into two and trims the ends. *)
Theorem plain_text_of_text_without_tags :
  forall s,
    no_markup s = true ->
    getPlainText s = normalize_blank_lines s.
Proof.
  intros s H. unfold getPlainText, normalize_blank_lines.
  destruct s as [ | c s]; [reflexivity | ].
  cbn [is_empty]. unfold tokenize.
  pose proof (plain_literal _ H) as L.
  rewrite normalize_newlines_id by apply literal_no_cr, L.
  rewrite <- (app_nil_r (c :: s)) at 1.
  change (InData []) with (after_text []).
  rewrite (tokenize_literal (c :: s) [] [] L I). cbn [tokenize_from].
  rewrite eof_after_text, textContent_br_flush, app_nil_r, rev_involutive.
  reflexivity.
Qed.

Lemma plain_text_of_text_without_tags_witness :
  getPlainText blank_line_text = normalize_blank_lines blank_line_text.
Proof.
  apply (plain_text_of_text_without_tags blank_line_text).
  vm_compute. reflexivity.
Defined.

(** *** The options page: the masked key *)

Lemma masked_key_length apiKey :
  List.length (maskedKey apiKey)
  = (Nat.min 3 (List.length apiKey) + 3 + Nat.min 4 (List.length apiKey))%nat.
Proof.
  unfold maskedKey, substring_prefix, substring_to_end, substring_from, len.
  rewrite !length_app, length_firstn, length_skipn.
  change (List.length (lit "...")) with 3%nat. lia.
Qed.

(** X13. The masked API key of the options page shows the first three
    and the last four code units of the key around three dots; for a key
    of four code units or fewer the part after the dots is the whole
    key. *)
Theorem masked_key_shows_short_key_whole :
  forall apiKey,
    List.length (maskedKey apiKey)
    = (Nat.min 3 (List.length apiKey) + 3
       + Nat.min 4 (List.length apiKey))%nat
    /\ ((List.length apiKey <= 4)%nat ->
        maskedKey apiKey = firstn 3 apiKey ++ lit "..." ++ apiKey).
Proof.
  intro apiKey. unfold maskedKey, substring_prefix, substring_to_end,
    substring_from, len.
  split.
  - rewrite !length_app, length_firstn, length_skipn.
    change (List.length (lit "...")) with 3%nat. lia.
  - intro H.
    replace (Z.to_nat (Z.max 0 (Z.of_nat (List.length apiKey) - 4)))
      with 0%nat by lia.
    reflexivity.
Qed.

Lemma masked_key_shows_short_key_whole_witness :
  maskedKey short_key = firstn 3 short_key ++ lit "..." ++ short_key.
Proof.
  apply (proj2 (masked_key_shows_short_key_whole short_key)).
  vm_compute. lia.
Defined.

(** *** What the matcher and the replacements are made of *)

Lemma forallb_firstn (p : N -> bool) n (l : list N) :
  forallb p l = true -> forallb p (firstn n l) = true.
Proof.
  revert n. induction l as [ | c l IH]; intros [ | n] H; try reflexivity.
  cbn [forallb firstn] in *. apply andb_true_iff in H. destruct H as [Hc Hl].
  rewrite Hc, (IH n Hl). reflexivity.
Qed.

Lemma forallb_skipn (p : N -> bool) n (l : list N) :
  forallb p l = true -> forallb p (skipn n l) = true.
Proof.
  revert n. induction l as [ | c l IH]; intros [ | n] H; try reflexivity;
    try exact H.
  cbn [forallb skipn] in *. apply andb_true_iff in H. apply IH, H.
Qed.

(** The matcher reads the input and records parts of it: a state made
    of code units of a class stays in the class. *)
Lemma rmatch_within (p : N -> bool) r :
  forall st k res,
    state_within p st ->
    (forall st' res', state_within p st' -> k st' = Some res' ->
                      state_within p res') ->
    rmatch r st k = Some res ->
    state_within p res.
Proof.
  induction r as [ | q | r1 IH1 r2 IH2 | r1 IH1 r2 IH2 | g r1 IH1
                 | i r1 IH1 | pos r1 IH1 | q | m | m ];
    intros st k res S K H; simpl in H.
  - eapply K; eauto.
  - destruct S as [Sb [Sa Sc]]. destruct (after st) as [ | c rest] eqn:A;
      [discriminate | ].
    destruct (q c); [ | discriminate].
    cbn [forallb] in Sa. apply andb_true_iff in Sa. destruct Sa as [Hc Hr].
    eapply K; [ | exact H]. repeat split; cbn [before after caps forallb];
      [rewrite Hc, Sb; reflexivity | exact Hr | exact Sc].
  - eapply IH1; [exact S | | exact H].
    intros st1 res1 S1 H1. eapply IH2; eauto.
  - destruct (rmatch r1 st k) eqn:H1.
    + injection H as <-. eapply IH1; eauto.
    + eapply IH2; eauto.
  - revert res S H. generalize (List.length (after st)) as fuel.
    intro fuel. revert st.
    induction fuel as [ | fuel IHf]; intros st res S H.
    + eapply K; eauto.
    + destruct g.
      * match type of H with
        | match ?X with _ => _ end = _ => destruct X eqn:H1
        end.
        -- injection H as <-. eapply IH1; [exact S | | exact H1].
           intros st1 res1 S1 E. cbv beta in E.
           destruct (List.length (after st1) <? List.length (after st))%nat;
             [ | discriminate].
           eapply IHf; eauto.
        -- eapply K; eauto.
      * destruct (k st) eqn:Hk.
        -- injection H as <-. eapply K; eauto.
        -- eapply IH1; [exact S | | exact H].
           intros st1 res1 S1 E. cbv beta in E.
           destruct (List.length (after st1) <? List.length (after st))%nat;
             [ | discriminate].
           eapply IHf; eauto.
  - eapply IH1; [exact S | | exact H].
    intros st1 res1 [Sb [Sa Sc]] E. cbv beta in E. eapply K; [ | exact E].
    repeat split; cbn [before after caps forallb snd]; auto.
    rewrite Sc, andb_true_r. unfold consumed_since.
    rewrite forallb_rev. apply forallb_firstn, Sb.
  - destruct (rmatch r1 st Some) as [st1 | ] eqn:H1.
    + destruct pos; [ | discriminate].
      eapply K; [ | exact H].
      assert (state_within p st1) as S1.
      { eapply IH1; [exact S | | exact H1].
        intros st' res' S' E. injection E as <-. exact S'. }
      destruct S as [Sb [Sa _]]. destruct S1 as [_ [_ Sc]].
      repeat split; assumption.
    + destruct pos; [discriminate | ]. eapply K; eauto.
  - destruct (before st) as [ | c ?]; [eapply K; eauto | ].
    destruct (q c); [discriminate | eapply K; eauto].
  - destruct (before st) as [ | c ?]; [eapply K; eauto | ].
    destruct (m && is_lt c); [eapply K; eauto | discriminate].
  - destruct (after st) as [ | c ?]; [eapply K; eauto | ].
    destruct (m && is_lt c); [eapply K; eauto | discriminate].
Qed.

Lemma match_at_within (p : N -> bool) r bef aft st :
  forallb p bef = true -> forallb p aft = true ->
  match_at r bef aft = Some st ->
  state_within p st /\ match_within p (result_of bef st).
Proof.
  intros Hb Ha M. unfold match_at in M.
  assert (state_within p st) as S.
  { eapply rmatch_within; [ | | exact M].
    - repeat split; assumption.
    - intros st' res' S' E. injection E as <-. exact S'. }
  split; [exact S | ]. destruct S as [Sb [_ Sc]].
  split; cbn [result_of m_text m_caps]; [ | exact Sc].
  unfold consumed_since. rewrite forallb_rev. apply forallb_firstn, Sb.
Qed.

Lemma scan_within (p : N -> bool) r :
  forall aft skip cur bef,
    forallb p cur = true -> forallb p bef = true -> forallb p aft = true ->
    Forall (fun pm => forallb p (fst pm) = true /\ match_within p (snd pm))
           (fst (scan r skip cur bef aft))
    /\ forallb p (snd (scan r skip cur bef aft)) = true.
Proof.
  induction aft as [ | c aft IH]; intros skip cur bef Hc Hb Ha;
    cbn [scan].
  - destruct skip as [ | n].
    + destruct (match_at r bef []) as [st | ] eqn:M.
      * cbn [fst snd]. split; [ | reflexivity].
        constructor; [ | constructor]. cbn [fst snd].
        split; [rewrite forallb_rev; exact Hc | ].
        eapply match_at_within; eauto.
      * cbn [fst snd]. split; [constructor | rewrite forallb_rev; exact Hc].
    + cbn [fst snd]. split; [constructor | rewrite forallb_rev; exact Hc].
  - cbn [forallb] in Ha. apply andb_true_iff in Ha. destruct Ha as [Hp Ha].
    assert (forallb p (c :: bef) = true) as Hcb
      by (cbn [forallb]; rewrite Hp, Hb; reflexivity).
    destruct skip as [ | n]; [ | apply IH; assumption].
    destruct (match_at r bef (c :: aft)) as [st | ] eqn:M.
    + assert (match_within p (result_of bef st)) as W.
      { eapply match_at_within; [exact Hb | | exact M].
        cbn [forallb]. rewrite Hp, Ha. reflexivity. }
      destruct (List.length (c :: aft) - List.length (after st))%nat.
      * destruct (IH 0%nat [c] (c :: bef)) as [F T]; try assumption;
          [cbn [forallb]; rewrite Hp; reflexivity | ].
        destruct (scan r 0 [c] (c :: bef) aft) as [ms tl].
        cbn [fst snd] in *. split; [ | exact T].
        constructor; [ | exact F]. cbn [fst snd].
        split; [rewrite forallb_rev; exact Hc | exact W].
      * destruct (IH n [] (c :: bef)) as [F T]; try assumption;
          [reflexivity | ].
        destruct (scan r n [] (c :: bef) aft) as [ms tl].
        cbn [fst snd] in *. split; [ | exact T].
        constructor; [ | exact F]. cbn [fst snd].
        split; [rewrite forallb_rev; exact Hc | exact W].
    + apply IH; try assumption. cbn [forallb]. rewrite Hp, Hc. reflexivity.
Qed.

(** A replacement made of code units of the class, applied to a text of
    the class, gives a text of the class. *)
Lemma replace_all_within (p : N -> bool) r f s :
  (forall m, match_within p m -> forallb p (f m) = true) ->
  forallb p s = true ->
  forallb p (replace_all r f s) = true.
Proof.
  intros Hf Hs. unfold replace_all, matches.
  destruct (scan_within p r s 0 [] [] eq_refl eq_refl Hs) as [F T].
  destruct (scan r 0 [] [] s) as [ms tl]. cbn [fst snd] in *.
  rewrite forallb_app, T, andb_true_r.
  induction F as [ | pm ms [H1 H2] F IH]; [reflexivity | ].
  cbn [flat_map]. rewrite !forallb_app, H1, (Hf _ H2), IH. reflexivity.
Qed.

Lemma lookup_cap_within (p : N -> bool) i caps g :
  forallb (fun kv => forallb p (snd kv)) caps = true ->
  lookup_cap i caps = Some g ->
  forallb p g = true.
Proof.
  induction caps as [ | [j v] caps IH]; cbn [lookup_cap forallb snd];
    [discriminate | ].
  intros H L. apply andb_true_iff in H. destruct H as [Hv Hc].
  destruct (Nat.eqb i j); [injection L as <-; exact Hv | eauto].
Qed.

Lemma wrap_within (p : N -> bool) tag m :
  forallb p tag_cus = true ->
  existsb (String.eqb tag) ["strong"; "em"; "code"]%string = true ->
  match_within p m ->
  forallb p (wrap tag m) = true.
Proof.
  intros T E [_ C].
  assert (forallb p (dollar 1 m) = true) as D.
  { unfold dollar, group. destruct (lookup_cap 1 (m_caps m)) as [g | ] eqn:L;
      [ | reflexivity].
    eapply lookup_cap_within; eauto. }
  assert (forall x, In x tag_cus -> p x = true) as TI
    by (rewrite forallb_forall in T; exact T).
  assert (forall w, forallb (fun c => existsb (N.eqb c) tag_cus) w = true ->
                    forallb p w = true) as TW.
  { intros w Hw. rewrite forallb_forall in *. intros x Hx.
    specialize (Hw x Hx). apply existsb_exists in Hw.
    destruct Hw as [y [Hy Exy]]. apply N.eqb_eq in Exy. subst. apply TI, Hy. }
  unfold wrap. cbn [existsb] in E.
  repeat (apply orb_true_iff in E; destruct E as [E | E]);
    try discriminate; apply String.eqb_eq in E; subst tag;
    rewrite !forallb_app, D; rewrite !TW by reflexivity; reflexivity.
Qed.

Lemma processLine_within (p : N -> bool) line :
  forallb p tag_cus = true ->
  forallb p line = true ->
  forallb p (processLine line) = true.
Proof.
  intros T H. unfold processLine.
  repeat (apply replace_all_within;
          [intros m W; apply wrap_within; [exact T | reflexivity | exact W] | ]).
  destruct (_ || _); [apply forallb_skipn | ]; apply trim_forallb, H.
Qed.

(** X14. The markup the renderer returns never holds a line feed, and it
    is made of the code units of the text and of the renderer's own tags
    only: any class of code units that contains the text and the tags
    contains the markup. *)
Theorem markup_has_no_line_feed_and_adds_only_tags :
  forall text,
    forallb (fun c => negb (c =? 10)%N) (convertMarkdownToHtml text) = true
    /\ forall p : N -> bool,
         forallb p tag_cus = true ->
         forallb p text = true ->
         forallb p (convertMarkdownToHtml text) = true.
Proof.
  intro text.
  assert (forall p : N -> bool,
             forallb p tag_cus = true ->
             forallb (forallb p) (split_lines text) = true ->
             forallb p (convertMarkdownToHtml text) = true) as G.
  { intros p T H. unfold convertMarkdownToHtml.
    destruct (is_empty text); [reflexivity | ].
    apply forallb_join.
    - apply forallb_forall. intros x Hx.
      rewrite forallb_forall in T. apply T.
      unfold tag_cus. revert Hx. vm_compute. tauto.
    - rewrite forallb_forall in *. intros l Hl.
      apply filter_In in Hl. destruct Hl as [Hl _].
      apply in_map_iff in Hl. destruct Hl as [l0 [<- Hl0]].
      apply processLine_within; [ | apply H, Hl0].
      rewrite forallb_forall. exact T. }
  split.
  - apply G; [reflexivity | ].
    apply (@split_on_no_sep 10%N text []). reflexivity.
  - intros p T H. apply G; [exact T | ].
    apply split_on_forallb; [reflexivity | exact H].
Qed.

Lemma markup_has_no_line_feed_and_adds_only_tags_witness :
  forallb (fun c => (c <? 128)%N) (convertMarkdownToHtml emphasis_text) = true.
Proof.
  apply (proj2 (markup_has_no_line_feed_and_adds_only_tags emphasis_text));
    reflexivity.
Defined.

(** *** Runs of line feeds *)

Lemma span_length (p : N -> bool) s :
  (List.length (span_take p s) + List.length (span_drop p s)
   = List.length s)%nat.
Proof.
  induction s as [ | c s IH]; cbn [span_take span_drop]; [reflexivity | ].
  destruct (p c); cbn [List.length]; lia.
Qed.

Lemma star_cls_all (p : N -> bool) :
  forall aft fuel bef cs,
    (List.length aft <= fuel)%nat ->
    star_loop true (Cls p) Some fuel (MState bef aft cs)
    = Some (MState (rev (span_take p aft) ++ bef) (span_drop p aft) cs).
Proof.
  induction aft as [ | c aft IH]; intros fuel bef cs Hf.
  - destruct fuel; reflexivity.
  - destruct fuel as [ | fuel]; [cbn [List.length] in Hf; lia | ].
    cbn [star_loop rmatch after before caps span_take span_drop].
    destruct (p c) eqn:W; [ | reflexivity].
    assert ((List.length aft <? List.length (c :: aft))%nat = true) as L
      by (apply Nat.ltb_lt; cbn [List.length]; lia).
    rewrite L, IH by (cbn [List.length] in Hf; lia).
    cbn [rev]. rewrite <- app_assoc. reflexivity.
Qed.

Lemma match_at_newlines3_run bef a b c rest :
  match_at re_newlines3 bef (a :: b :: c :: rest)
  = if (a =? 10)%N && (b =? 10)%N && (c =? 10)%N
    then Some (MState (rev (lead_lf rest) ++ c :: b :: a :: bef)
                      (span_drop (is_c 10) rest) [])
    else None.
Proof.
  unfold match_at, re_newlines3. cbn [seqs].
  rewrite rmatch_seq, rmatch_cls. unfold is_c at 1.
  destruct (a =? 10)%N; [ | reflexivity].
  rewrite rmatch_seq, rmatch_cls. unfold is_c at 1.
  destruct (b =? 10)%N; [ | reflexivity].
  rewrite rmatch_seq, rmatch_cls. unfold is_c at 1.
  destruct (c =? 10)%N; [ | reflexivity].
  rewrite rmatch_star. cbn [after andb]. apply star_cls_all. lia.
Qed.

Lemma match_at_newlines3_short bef aft :
  (List.length aft < 3)%nat -> match_at re_newlines3 bef aft = None.
Proof.
  intro H. unfold match_at, re_newlines3. cbn [seqs].
  destruct aft as [ | a [ | b [ | c rest]]];
    [reflexivity | | | cbn [List.length] in H; lia].
  - rewrite rmatch_seq, rmatch_cls. destruct (is_c 10 a); reflexivity.
  - rewrite rmatch_seq, rmatch_cls. destruct (is_c 10 a); [ | reflexivity].
    rewrite rmatch_seq, rmatch_cls. destruct (is_c 10 b); reflexivity.
Qed.

Lemma lead_lf_two s :
  (2 <=? List.length (lead_lf s))%nat
  = match s with
    | b :: c :: _ => (b =? 10)%N && (c =? 10)%N
    | _ => false
    end.
Proof.
  unfold lead_lf. destruct s as [ | b [ | c rest]]; cbn [span_take].
  - reflexivity.
  - unfold is_c. destruct (b =? 10)%N; reflexivity.
  - unfold is_c. destruct (b =? 10)%N; [ | reflexivity].
    destruct (c =? 10)%N; reflexivity.
Qed.

Lemma lead_lf_cons c y :
  List.length (lead_lf (c :: y))
  = if (c =? 10)%N then S (List.length (lead_lf y)) else 0%nat.
Proof.
  unfold lead_lf. cbn [span_take]. unfold is_c.
  destruct (c =? 10)%N; reflexivity.
Qed.

Lemma scan_newlines3 :
  forall aft,
    (forall cur bef,
        render [10; 10] (scan re_newlines3 0 cur bef aft)
        = rev cur ++ squeeze false aft)
    /\ (forall cur bef,
           render [10; 10]
             (scan re_newlines3 (List.length (lead_lf aft)) cur bef aft)
           = rev cur ++ squeeze true aft).
Proof.
  induction aft as [ | c aft [IH0 IH1]].
  - assert (forall cur bef,
               render [10; 10] (scan re_newlines3 0 cur bef [])
               = rev cur ++ squeeze false []) as E.
    { intros cur bef. cbn [scan].
      rewrite match_at_newlines3 by exact I.
      unfold render. cbn [fst snd flat_map app squeeze].
      rewrite app_nil_r. reflexivity. }
    split; [exact E | exact E].
  - assert (forall cur bef,
               render [10; 10] (scan re_newlines3 0 cur bef (c :: aft))
               = rev cur ++ squeeze false (c :: aft)) as E.
    { intros cur bef. cbn [scan squeeze].
      destruct (c =? 10)%N eqn:C.
      - rewrite lead_lf_two.
        destruct aft as [ | b [ | c2 rest]].
        + rewrite match_at_newlines3_short by (cbn; lia). rewrite IH0.
          cbn [rev]. rewrite <- app_assoc. reflexivity.
        + rewrite match_at_newlines3_short by (cbn; lia). rewrite IH0.
          cbn [rev]. rewrite <- app_assoc. reflexivity.
        + rewrite match_at_newlines3_run, C. cbn [andb].
          destruct ((b =? 10)%N && (c2 =? 10)%N) eqn:B.
          * cbn [after].
            assert ((List.length (c :: b :: c2 :: rest)
                     - List.length (span_drop (is_c 10) rest))%nat
                    = S (List.length (lead_lf (b :: c2 :: rest)))) as L.
            { pose proof (span_length (is_c 10) rest) as SL.
              fold (lead_lf rest) in SL.
              apply andb_true_iff in B. destruct B as [B1 B2].
              rewrite !lead_lf_cons, B1, B2. cbn [List.length]. lia. }
            rewrite L. specialize (IH1 [] (c :: bef)).
            destruct (scan re_newlines3
                        (List.length (lead_lf (b :: c2 :: rest))) []
                        (c :: bef) (b :: c2 :: rest)) as [ms tl].
            unfold render in *. cbn [fst snd flat_map rev app] in *.
            rewrite <- !app_assoc. cbn [app]. rewrite IH1. reflexivity.
          * rewrite IH0. cbn [rev]. rewrite <- app_assoc. reflexivity.
      - rewrite match_at_newlines3.
        + rewrite IH0. cbn [rev]. rewrite <- app_assoc. reflexivity.
        + destruct aft as [ | b rest]; [exact I | ]. rewrite C. reflexivity. }
    split; [exact E | ].
    intros cur bef. rewrite lead_lf_cons. cbn [squeeze].
    destruct (c =? 10)%N eqn:C.
    + cbn [scan]. apply IH1.
    + rewrite E. cbn [squeeze]. rewrite C. reflexivity.
Qed.

Lemma replace_newlines3_squeeze s :
  replace_all re_newlines3 (fun _ => [10; 10]) s = squeeze false s.
Proof.
  rewrite replace_all_render. unfold matches.
  rewrite (proj1 (scan_newlines3 s)). reflexivity.
Qed.

Lemma has_lf3_cons c y :
  has_lf3 (c :: y)
  = ((c =? 10)%N && (2 <=? List.length (lead_lf y))%nat) || has_lf3 y.
Proof.
  cbn [has_lf3]. rewrite lead_lf_two.
  destruct y as [ | b [ | c2 rest]];
    rewrite ?andb_false_r, ?andb_assoc; reflexivity.
Qed.

(** The squeezed text has no three line feeds in a row. *)
Lemma squeeze_no_lf3 :
  forall s,
    (has_lf3 (squeeze false s) = false
     /\ (List.length (lead_lf (squeeze false s)) <= 2)%nat
     /\ ((List.length (lead_lf s) <= 1)%nat ->
         (List.length (lead_lf (squeeze false s))
          <= List.length (lead_lf s))%nat))
    /\ (has_lf3 (squeeze true s) = false
        /\ List.length (lead_lf (squeeze true s)) = 0%nat).
Proof.
  induction s as [ | c s [[A1 [A2 A3]] [B1 B2]]].
  - repeat split; cbn; lia.
  - cbn [squeeze]. rewrite (lead_lf_cons c s).
    destruct (c =? 10)%N eqn:C.
    + split; [ | split; assumption].
      destruct (2 <=? List.length (lead_lf s))%nat eqn:T.
      * cbn [app]. rewrite !has_lf3_cons, !lead_lf_cons.
        change (10 =? 10)%N with true. cbn [andb]. rewrite B2, B1.
        apply Nat.leb_le in T. repeat split; cbn; lia.
      * apply Nat.leb_gt in T. rewrite has_lf3_cons, lead_lf_cons, C.
        cbn [andb]. rewrite A1.
        assert (List.length (lead_lf (squeeze false s)) <= 1)%nat as Q
          by (specialize (A3 ltac:(lia)); lia).
        assert ((2 <=? List.length (lead_lf (squeeze false s)))%nat = false)
          as Q2 by (apply Nat.leb_gt; lia).
        rewrite Q2. repeat split; try reflexivity; try lia.
    + rewrite has_lf3_cons, lead_lf_cons, C. cbn [andb orb].
      repeat split; try assumption; try lia.
Qed.

Lemma has_lf3_suffix :
  forall pre aft, has_lf3 (pre ++ aft) = false -> has_lf3 aft = false.
Proof.
  induction pre as [ | c pre IH]; intros aft H; [exact H | ].
  cbn [app has_lf3] in H. apply orb_false_iff in H. apply IH, H.
Qed.

Lemma has_lf3_prefix :
  forall pre aft, has_lf3 (pre ++ aft) = false -> has_lf3 pre = false.
Proof.
  induction pre as [ | c pre IH]; intros aft H; [reflexivity | ].
  cbn [app] in H. rewrite has_lf3_cons in *.
  apply orb_false_iff in H. destruct H as [H1 H2].
  rewrite (IH aft H2), orb_false_r.
  destruct (c =? 10)%N; [ | reflexivity]. cbn [andb] in *.
  apply Nat.leb_gt in H1. apply Nat.leb_gt.
  assert (List.length (lead_lf pre) <= List.length (lead_lf (pre ++ aft)))%nat
    as Q; [ | lia].
  clear. unfold lead_lf. induction pre as [ | x pre IH]; cbn [span_take app].
  - cbn. lia.
  - destruct (is_c 10 x); cbn [List.length]; lia.
Qed.

Lemma trim_no_lf3 s : has_lf3 s = false -> has_lf3 (trim s) = false.
Proof.
  intro H. destruct (drop_ws_split s) as [p E]. rewrite E in H.
  apply has_lf3_suffix in H.
  destruct (drop_ws_split (rev (drop_ws s))) as [q F].
  apply (f_equal (@rev N)) in F. rewrite rev_involutive, rev_app_distr in F.
  fold (trim s) in F. rewrite F in H. eapply has_lf3_prefix, H.
Qed.

(** X15. The plain text getPlainText returns never has three line feeds
    in a row (at most one blank line between two lines) and has no white
    space at its start or its end. *)
Theorem plain_text_has_no_triple_line_feed :
  forall htmlString,
    has_lf3 (getPlainText htmlString) = false
    /\ starts_nonws (getPlainText htmlString) = true
    /\ starts_nonws (rev (getPlainText htmlString)) = true.
Proof.
  intro htmlString. unfold getPlainText.
  destruct (is_empty htmlString); [repeat split | ].
  split; [ | split; [apply trim_starts | apply trim_ends]].
  apply trim_no_lf3. rewrite replace_newlines3_squeeze.
  apply squeeze_no_lf3.
Qed.

(** *** The two renderers *)

(** Two patterns of the same shape whose classes agree on a class of
    code units match alike on a text of that class. *)
Lemma rmatch_agree (p : N -> bool) r1 :
  forall r2 st k1 k2,
    similar p r1 r2 ->
    state_within p st ->
    (forall st', state_within p st' -> k1 st' = k2 st') ->
    rmatch r1 st k1 = rmatch r2 st k2.
Proof.
  induction r1 as [ | q | a1 IH1 b1 IH2 | a1 IH1 b1 IH2 | g a1 IH1
                  | i a1 IH1 | pos a1 IH1 | q | m | m ];
    intros r2 st k1 k2 Sim S K; destruct r2; cbn [similar] in Sim;
    try contradiction; cbn [rmatch].
  - apply K, S.
  - destruct S as [Sb [Sa Sc]].
    destruct (after st) as [ | c rest]; [reflexivity | ].
    cbn [forallb] in Sa. apply andb_true_iff in Sa. destruct Sa as [Hc Hr].
    rewrite (Sim c Hc).
    match goal with |- (if ?b then _ else _) = _ => destruct b end;
      [ | reflexivity].
    apply K. repeat split; cbn [before after caps forallb];
      [rewrite Hc, Sb; reflexivity | exact Hr | exact Sc].
  - destruct Sim as [Sa Sb]. apply IH1; [exact Sa | exact S | ].
    intros st' S'. apply IH2; assumption.
  - destruct Sim as [Sa Sb].
    rewrite (IH1 _ st k1 k2 Sa S K), (IH2 _ st k1 k2 Sb S K). reflexivity.
  - destruct Sim as [<- Sa].
    generalize (List.length (after st)) as fuel. intro fuel.
    match goal with
    | |- ?L fuel st = ?R fuel st => set (loop1 := L); set (loop2 := R)
    end.
    revert st S. induction fuel as [ | fuel IHf]; intros st S.
    + apply K, S.
    + assert (rmatch a1 st (fun st' =>
                 if (List.length (after st') <? List.length (after st))%nat
                 then loop1 fuel st' else None)
              = rmatch r2 st (fun st' =>
                 if (List.length (after st') <? List.length (after st))%nat
                 then loop2 fuel st' else None)) as E.
      { apply IH1; [exact Sa | exact S | ].
        intros st' S'. destruct (_ <? _)%nat; [ | reflexivity].
        apply IHf, S'. }
      change (loop1 (Datatypes.S fuel) st) with
        (if g then
           match rmatch a1 st (fun st' =>
                   if (List.length (after st') <? List.length (after st))%nat
                   then loop1 fuel st' else None) with
           | Some res => Some res
           | None => k1 st
           end
         else
           match k1 st with
           | Some res => Some res
           | None =>
               rmatch a1 st (fun st' =>
                 if (List.length (after st') <? List.length (after st))%nat
                 then loop1 fuel st' else None)
           end).
      change (loop2 (Datatypes.S fuel) st) with
        (if g then
           match rmatch r2 st (fun st' =>
                   if (List.length (after st') <? List.length (after st))%nat
                   then loop2 fuel st' else None) with
           | Some res => Some res
           | None => k2 st
           end
         else
           match k2 st with
           | Some res => Some res
           | None =>
               rmatch r2 st (fun st' =>
                 if (List.length (after st') <? List.length (after st))%nat
                 then loop2 fuel st' else None)
           end).
      rewrite E, (K st S). reflexivity.
  - destruct Sim as [<- Sa]. apply IH1; [exact Sa | exact S | ].
    intros st' [Sb [Saf Sc]]. apply K.
    repeat split; cbn [before after caps forallb snd]; auto.
    rewrite Sc, andb_true_r. unfold consumed_since.
    rewrite forallb_rev. apply forallb_firstn, Sb.
  - destruct Sim as [<- Sa].
    rewrite (IH1 _ st Some Some Sa S (fun _ _ => eq_refl)).
    destruct (rmatch r2 st Some) as [st1 | ] eqn:H1.
    + destruct pos; [ | reflexivity]. apply K.
      assert (state_within p st1) as S1.
      { eapply rmatch_within; [exact S | | exact H1].
        intros st' res' S' E. injection E as <-. exact S'. }
      destruct S as [Sb [Saf _]]. destruct S1 as [_ [_ Sc]].
      repeat split; assumption.
    + destruct pos; [reflexivity | apply K, S].
  - destruct S as [Sb [Sa Sc]].
    destruct (before st) as [ | c rest] eqn:B;
      [apply K; repeat split; [rewrite B; reflexivity | assumption ..] | ].
    cbn [forallb] in Sb. apply andb_true_iff in Sb. destruct Sb as [Hc Hr].
    rewrite (Sim c Hc).
    match goal with |- (if ?b then _ else _) = _ => destruct b end;
      [reflexivity | ].
    apply K. repeat split; [rewrite B; cbn [forallb]; rewrite Hc, Hr;
                            reflexivity | assumption ..].
  - subst. destruct (before st) as [ | c ?]; [apply K, S | ].
    destruct (_ && _); [apply K, S | reflexivity].
  - subst. destruct (after st) as [ | c ?]; [apply K, S | ].
    destruct (_ && _); [apply K, S | reflexivity].
Qed.

Lemma match_at_agree (p : N -> bool) r1 r2 bef aft :
  similar p r1 r2 ->
  forallb p bef = true -> forallb p aft = true ->
  match_at r1 bef aft = match_at r2 bef aft.
Proof.
  intros Sim Hb Ha. unfold match_at.
  apply (@rmatch_agree p); [exact Sim | repeat split; assumption | reflexivity].
Qed.

Lemma scan_agree (p : N -> bool) r1 r2 :
  similar p r1 r2 ->
  forall aft skip cur bef,
    forallb p bef = true -> forallb p aft = true ->
    scan r1 skip cur bef aft = scan r2 skip cur bef aft.
Proof.
  intro Sim. induction aft as [ | c aft IH]; intros skip cur bef Hb Ha;
    cbn [scan].
  - rewrite (@match_at_agree p r1 r2 bef [] Sim Hb eq_refl). reflexivity.
  - rewrite (@match_at_agree p r1 r2 bef (c :: aft) Sim Hb Ha).
    cbn [forallb] in Ha. apply andb_true_iff in Ha. destruct Ha as [Hc Ha].
    assert (forallb p (c :: bef) = true) as Hcb
      by (cbn [forallb]; rewrite Hc, Hb; reflexivity).
    destruct skip as [ | n]; [ | apply IH; assumption].
    destruct (match_at r2 bef (c :: aft)) as [st | ];
      [ | apply IH; assumption].
    destruct (List.length (c :: aft) - List.length (after st))%nat;
      rewrite IH by assumption; reflexivity.
Qed.

Lemma replace_all_agree (p : N -> bool) r1 r2 f s :
  similar p r1 r2 ->
  forallb p s = true ->
  replace_all r1 f s = replace_all r2 f s.
Proof.
  intros Sim H. unfold replace_all, matches.
  rewrite (@scan_agree p r1 r2 Sim s 0%nat [] [] eq_refl H). reflexivity.
Qed.

Lemma italic_patterns_similar :
  similar (not_c underscore) Popout.re_italic re_italic.
Proof.
  assert (forall c, not_c underscore c = true ->
                    is_c star c = star_or_underscore c) as A.
  { intros c H. unfold star_or_underscore, is_c, not_c in *.
    apply negb_true_iff in H. rewrite H, orb_false_r. reflexivity. }
  cbn. repeat split; auto.
Qed.

Lemma processLine_agree line :
  forallb (not_c underscore) line = true ->
  Popout.processLine line = processLine line.
Proof.
  intro H. unfold Popout.processLine, processLine.
  set (s0 := if _ || _ then _ else _).
  assert (forallb (not_c underscore) s0 = true) as H0.
  { subst s0. destruct (_ || _); [apply forallb_skipn | ];
      apply trim_forallb, H. }
  clearbody s0.
  assert (forall tag r s,
             existsb (String.eqb tag) ["strong"; "em"; "code"]%string = true ->
             forallb (not_c underscore) s = true ->
             forallb (not_c underscore) (replace_all r (wrap tag) s) = true)
    as W.
  { intros tag r s E Hs. apply replace_all_within; [ | exact Hs].
    intros m Hm. apply wrap_within; [reflexivity | exact E | exact Hm]. }
  set (s1 := replace_all re_bold (wrap "strong") s0).
  assert (forallb (not_c underscore) s1 = true) as H1
    by (apply W; [reflexivity | exact H0]).
  clearbody s1.
  set (s2 := replace_all re_bold_underscore (wrap "strong") s1).
  assert (forallb (not_c underscore) s2 = true) as H2
    by (apply W; [reflexivity | exact H1]).
  clearbody s2.
  rewrite (@replace_all_agree (not_c underscore) Popout.re_italic re_italic
             (wrap "em") s2 italic_patterns_similar H2).
  set (s3 := replace_all re_italic (wrap "em") s2).
  assert (forallb (not_c underscore) s3 = true) as H3
    by (apply W; [reflexivity | exact H2]).
  clearbody s3.
  rewrite (@replace_all_first_class Popout.re_italic_underscore
             (is_c underscore) (wrap "em") s3 eq_refl H3).
  rewrite (@replace_all_first_class re_italic_underscore
             (is_c underscore) (wrap "em") s3 eq_refl H3).
  reflexivity.
Qed.

(** X16. The renderer of the pop-out window and the renderer of the popup
    give the same markup for every text without an underscore: their
    italic patterns differ only in whether an underscore next to a star
    prevents the match. *)
Theorem renderers_agree_without_underscore :
  forall text,
    forallb (not_c underscore) text = true ->
    Popout.convertMarkdownToHtml text = convertMarkdownToHtml text.
Proof.
  intros text H. unfold Popout.convertMarkdownToHtml, convertMarkdownToHtml.
  destruct (is_empty text); [reflexivity | ].
  do 2 f_equal. apply map_ext_in. intros l Hl.
  apply processLine_agree.
  assert (forallb (forallb (not_c underscore)) (split_lines text) = true) as F
    by (apply split_on_forallb; [reflexivity | exact H]).
  rewrite forallb_forall in F. apply F, Hl.
Qed.

Lemma renderers_agree_without_underscore_witness :
  Popout.convertMarkdownToHtml emphasis_text
  = convertMarkdownToHtml emphasis_text.
Proof.
  apply (renderers_agree_without_underscore emphasis_text).
  vm_compute. reflexivity.
Defined.

(** With an underscore before the star the two renderers differ: the
    pop-out window marks the emphasis, the popup does not. *)
Example renderers_differ_after_underscore :
  Popout.convertMarkdownToHtml underscore_star_text = lit "x_<em>a</em> b"
  /\ convertMarkdownToHtml underscore_star_text = lit "x_*a* b".
Proof. split; vm_compute; reflexivity. Qed.

(** *** The options page *)

Lemma drop_ws_keeps a x r :
  is_ws x = false -> exists a', drop_ws (a ++ x :: r) = a' ++ x :: r.
Proof.
  intro H. induction a as [ | c a IH]; cbn [app drop_ws].
  - rewrite H. exists []. reflexivity.
  - destruct (is_ws c); [exact IH | ]. exists (c :: a). reflexivity.
Qed.

Lemma trim_keeps a x r :
  is_ws x = false -> is_empty (trim (a ++ x :: r)) = false.
Proof.
  intro H. unfold trim.
  destruct (@drop_ws_keeps a x r H) as [a' ->].
  rewrite rev_app_distr. cbn [rev]. rewrite <- app_assoc. cbn [app].
  destruct (@drop_ws_keeps (rev r) x (rev a') H) as [b ->].
  rewrite rev_app_distr. cbn [rev]. rewrite <- app_assoc.
  destruct (rev (rev a')); reflexivity.
Qed.

Lemma trim_length s : (List.length (trim s) <= List.length s)%nat.
Proof.
  unfold trim. rewrite length_rev.
  etransitivity; [apply drop_ws_length | ]. rewrite length_rev.
  apply drop_ws_length.
Qed.

Lemma assignValue_length v :
  (List.length (assignValue v) <= List.length v)%nat.
Proof.
  unfold assignValue. induction v as [ | c v IH]; cbn [filter];
    [apply Nat.le_refl | ].
  destruct (negb _); cbn [List.length]; lia.
Qed.

Lemma assignValue_id v :
  forallb (fun c => negb (is_lt c)) v = true -> assignValue v = v.
Proof.
  unfold assignValue. induction v as [ | c v IH]; cbn [filter forallb];
    [reflexivity | ].
  intro H. apply andb_true_iff in H. destruct H as [Hc Hv].
  rewrite (IH Hv).
  assert ((c =? 10)%N || (c =? 13)%N = false) as ->; [ | reflexivity].
  unfold is_lt in Hc. apply negb_true_iff in Hc.
  repeat (apply orb_false_iff in Hc; destruct Hc as [Hc ?]).
  apply orb_false_iff. split; assumption.
Qed.

(** X17. Options page: when a key is stored, a click on the save button
    right after the page has loaded, without the input having been
    focused, stores the masked key shown in the input in place of the
    key.  The stored value then has at most ten code units, so a key
    longer than that is lost. *)
Theorem save_without_focus_stores_masked_key :
  forall apiKey,
    is_empty apiKey = false ->
    let p := onSave (onLoad (initialPage (Some apiKey))) in
    storedKey p = Some (trim (assignValue (maskedKey apiKey)))
    /\ status p = Some (lit "API key saved successfully!", lit "success")
    /\ forall k, storedKey p = Some k -> (List.length k <= 10)%nat.
Proof.
  intros apiKey E p. subst p.
  unfold onLoad, initialPage. cbn [storedKey]. rewrite E.
  unfold onSave. cbn [inputValue storedKey shownMask status].
  assert (is_empty (trim (assignValue (maskedKey apiKey))) = false) as T.
  { unfold maskedKey, assignValue. rewrite !filter_app.
    change (filter _ (lit "...")) with (46%N :: lit "..").
    cbn [app]. apply trim_keeps. reflexivity. }
  rewrite T. cbn [storedKey status].
  split; [reflexivity | ]. split; [reflexivity | ].
  intros k K. injection K as <-.
  etransitivity; [apply trim_length | ].
  etransitivity; [apply assignValue_length | ].
  rewrite (masked_key_length apiKey). lia.
Qed.

Lemma save_without_focus_stores_masked_key_witness :
  storedKey (onSave (onLoad (initialPage (Some long_key))))
  = Some (lit "AIz...CDEF").
Proof.
  apply (save_without_focus_stores_masked_key long_key). reflexivity.
Defined.

(** X18. Options page: when the stored key holds no line terminator, a
    focus on the input after the load empties the input, and a click on
    the save button then reports an error and leaves the stored key as
    it was. *)
Theorem save_after_focus_keeps_stored_key :
  forall apiKey,
    is_empty apiKey = false ->
    forallb (fun c => negb (is_lt c)) apiKey = true ->
    let p := onSave (onFocus (onLoad (initialPage (Some apiKey)))) in
    storedKey p = Some apiKey
    /\ inputValue p = []
    /\ status p = Some (lit "Please enter a valid API key", lit "error").
Proof.
  intros apiKey E L p. subst p.
  unfold onLoad, initialPage. cbn [storedKey]. rewrite E.
  assert (forallb (fun c => negb (is_lt c)) (maskedKey apiKey) = true) as M.
  { unfold maskedKey, substring_prefix, substring_to_end, substring_from.
    rewrite !forallb_app, forallb_firstn, forallb_skipn by exact L.
    reflexivity. }
  rewrite (assignValue_id _ M).
  assert (str_eqb (maskedKey apiKey) (maskedKey apiKey) = true) as R.
  { unfold str_eqb.
    destruct (list_eq_dec N.eq_dec (maskedKey apiKey) (maskedKey apiKey));
      [reflexivity | contradiction]. }
  unfold onFocus. cbn [shownMask inputValue storedKey status]. rewrite R.
  unfold onSave. cbn [inputValue storedKey shownMask status assignValue filter].
  repeat split; reflexivity.
Qed.

Lemma save_after_focus_keeps_stored_key_witness :
  storedKey (onSave (onFocus (onLoad (initialPage (Some long_key)))))
  = Some long_key.
Proof.
  apply (save_after_focus_keeps_stored_key long_key); reflexivity.
Defined.
